(** * libCBOR: a shallow embedding of [src/CBOR.cpp]

    The development models the three parts of the codec that the
    specification talks about:

    - the [Writer] (push encoder), whose output is the list of bytes handed
      to the output stream, in order;
    - the [Reader] state machine [readDataType] together with its accessors,
      as a function on the decode-in-progress record and the input stream;
    - the recursive well-formedness checker [isWellFormed] /
      [isIndefiniteWellFormed].

    Machine integers are mathematical integers ([Z]) with every conversion
    and wrap-around of the C++ code written out; [int] is taken to be at
    least 32 bits wide.  The input stream is the list of bytes that are
    currently readable.  Where the C++ code calls [in_.read()] several
    times within one expression, the calls are taken in the order in which
    they are written. *)

From Stdlib Require Import ZArith List Lia Bool Floats.
Import ListNotations.
Open Scope Z_scope.

(** ** Fixed-width integer conversions *)

Module Ints.

(** [static_cast<uintN_t>(x)]: reduction modulo [2^N]. *)
Definition u8 (x : Z) : Z := x mod 2 ^ 8.
Definition u16 (x : Z) : Z := x mod 2 ^ 16.
Definition u32 (x : Z) : Z := x mod 2 ^ 32.
Definition u64 (x : Z) : Z := x mod 2 ^ 64.

(** [static_cast<int64_t>(x)]: two's complement reading of the low 64 bits. *)
Definition s64 (x : Z) : Z := (x + 2 ^ 63) mod 2 ^ 64 - 2 ^ 63.

Definition UINT32_MAX : Z := 2 ^ 32 - 1.

End Ints.
Import Ints.

(** ** The byte transport (Arduino [Stream] / [Print]) *)

Module IO.

(** Modelled from the spec: the input stream is Arduino's [Stream], which is
    not among the sources; section 4.1 gives its contract.  A stream is the
    list of the bytes that can be read right now, oldest first; bytes that
    arrive later are appended to it between two calls. *)
Definition stream := list Z.

(** [in_.read()]: the next byte as an [int] in [0, 255], or [-1] when no
    byte is available.  The stream is left untouched in the latter case. *)
Definition read (s : stream) : Z * stream :=
  match s with
  | [] => (-1, [])
  | b :: s' => (u8 b, s')
  end.

(** [in_.available()]. *)
Definition available (s : stream) : Z := Z.of_nat (length s).

(** [out_.write(b)]: the argument is narrowed to [uint8_t]. *)
Definition write (b : Z) : list Z := [u8 b].

End IO.
Import IO.

(** Major types (the [constexpr int] constants at the top of the file). *)
Definition kUnsignedInt : Z := 0.
Definition kNegativeInt : Z := 1.
Definition kBytes : Z := 2.
Definition kText : Z := 3.
Definition kArray : Z := 4.
Definition kMap : Z := 5.
Definition kTag : Z := 6.
Definition kSimpleOrFloat : Z := 7.

(** ** Writer *)

Module Writer.

(** [Writer::writeTypedInt(uint8_t mt, uint64_t u)]. *)
Definition writeTypedInt (mt u : Z) : list Z :=
  if u <? 24 then
    write (mt + u)
  else if u <? Z.shiftl 1 8 then
    write (mt + 24) ++ write u
  else if u <? Z.shiftl 1 16 then
    write (mt + 25) ++ write (Z.shiftr u 8) ++ write u
  else if u <? Z.shiftl 1 32 then
    write (mt + 26) ++
    write (Z.shiftr u 24) ++ write (Z.shiftr u 16) ++
    write (Z.shiftr u 8) ++ write u
  else
    write (mt + 27) ++
    write (Z.shiftr u 56) ++ write (Z.shiftr u 48) ++
    write (Z.shiftr u 40) ++ write (Z.shiftr u 32) ++
    write (Z.shiftr u 24) ++ write (Z.shiftr u 16) ++
    write (Z.shiftr u 8) ++ write u.

Definition writeUnsignedInt (u : Z) : list Z :=
  writeTypedInt (Z.shiftl kUnsignedInt 5) u.

(** [Writer::writeInt(int64_t i)]: the sign is spread over all 64 bits by
    the arithmetic shift, masked to obtain the major type and xor-ed with
    the argument. *)
Definition writeInt (i : Z) : list Z :=
  let u := u64 (Z.shiftr i 63) in
  let mt := u8 (Z.land u (Z.shiftl kNegativeInt 5)) in
  let u := Z.lxor u (u64 i) in
  writeTypedInt mt u.

Definition writeBoolean (b : bool) : list Z :=
  write (Z.shiftl kSimpleOrFloat 5 + (if b then 21 else 20)).

Definition writeNull : list Z := write (Z.shiftl kSimpleOrFloat 5 + 22).

Definition writeUndefined : list Z := write (Z.shiftl kSimpleOrFloat 5 + 23).

(** [Writer::writeSimpleValue(uint8_t v)]. *)
Definition writeSimpleValue (v : Z) : list Z :=
  if v <? 24 then
    write (Z.shiftl kSimpleOrFloat 5 + v)
  else
    write (Z.shiftl kSimpleOrFloat 5 + 24) ++ write v.

Definition writeTag (v : Z) : list Z := writeTypedInt (Z.shiftl kTag 5) v.

(** The [begin*] preludes take an [unsigned int] length. *)
Definition beginBytes (length : Z) : list Z :=
  writeTypedInt (Z.shiftl kBytes 5) length.
Definition beginText (length : Z) : list Z :=
  writeTypedInt (Z.shiftl kText 5) length.
Definition beginArray (length : Z) : list Z :=
  writeTypedInt (Z.shiftl kArray 5) length.
Definition beginMap (length : Z) : list Z :=
  writeTypedInt (Z.shiftl kMap 5) length.

Definition beginIndefiniteBytes : list Z := write (Z.shiftl kBytes 5 + 31).
Definition beginIndefiniteText : list Z := write (Z.shiftl kText 5 + 31).
Definition beginIndefiniteArray : list Z := write (Z.shiftl kArray 5 + 31).
Definition beginIndefiniteMap : list Z := write (Z.shiftl kMap 5 + 31).
Definition endIndefinite : list Z := write (Z.shiftl kSimpleOrFloat 5 + 31).

(** [Writer::writeFloat(float f)].  All the function uses of [f] is its
    32-bit pattern, which [memcpy] copies into [uint32_t val]; the model
    takes that pattern. *)
Definition writeFloat (val : Z) : list Z :=
  write (Z.shiftl kSimpleOrFloat 5 + 26) ++
  write (Z.shiftr val 24) ++ write (Z.shiftr val 16) ++
  write (Z.shiftr val 8) ++ write val.

(** [Writer::writeDouble(double d)], on the 64-bit pattern of [d] that
    [memcpy] copies into [uint64_t val]. *)
Definition writeDouble (val : Z) : list Z :=
  write (Z.shiftl kSimpleOrFloat 5 + 27) ++
  write (Z.shiftr val 56) ++ write (Z.shiftr val 48) ++
  write (Z.shiftr val 40) ++ write (Z.shiftr val 32) ++
  write (Z.shiftr val 24) ++ write (Z.shiftr val 16) ++
  write (Z.shiftr val 8) ++ write val.

(** [Writer::writeBytes(uint8_t *buffer, size_t length)]: the [length]
    bytes of the buffer, in order. *)
Definition writeBytes (buffer : list Z) : list Z := map u8 buffer.

End Writer.

(** ** The C library functions used by the float accessors

    A C [double] is a binary64 value, i.e. one of Rocq's primitive floats
    (which carry a single NaN and no NaN payload). *)

Module CMath.

(** Conversion of a non-negative [int] (below [2^63]) to [double]. *)
Definition double_of_int (m : Z) : float := of_uint63 (Uint63.of_Z m).

(** [ldexp(x, e)]: [x * 2^e]. *)
Definition ldexp (x : float) (e : Z) : float := Z.ldexp x e.

(** [copysign(x, y)]: the magnitude of [x] with the sign of [y]. *)
Definition copysign (x y : float) : float :=
  if get_sign y then (- abs x)%float else abs x.

Definition INFINITY : float := infinity.
Definition NAN : float := nan.

(** A C [float] is a binary32 value. *)
Definition single := spec_float.

(** [static_cast<float>(d)]: rounding to the nearest binary32 value
    (24 bits of precision, infinities at exponent 128), ties to even. *)
Definition static_cast_float (d : float) : single :=
  match Prim2SF d with
  | S754_finite sg m e => binary_round 24 128 sg m e
  | x => x
  end.

(** The value of an IEEE-754 bit pattern with [kBitsM] mantissa bits and
    [kBitsE] exponent bits, as a [double].  This is what [memcpy] from an
    integer of that width into a [float] or [double] (followed, for
    [float], by the exact widening to [double]) produces; the
    decomposition is the one spelled out in the commented-out code of
    [getDouble]. *)
Definition memcpy_ieee754 (kBitsM kBitsE bits : Z) : float :=
  let kExpBias := Z.shiftl 1 (kBitsE - 1) - 1 in
  let e := Z.land (Z.shiftr bits kBitsM) (Z.shiftl 1 kBitsE - 1) in
  let m := Z.land bits (Z.shiftl 1 kBitsM - 1) in
  let val :=
    if e =? 0 then ldexp (double_of_int m) (1 - kExpBias - kBitsM)
    else if negb (e =? Z.shiftl 1 kBitsE - 1) then
      ldexp (double_of_int (m + Z.shiftl 1 kBitsM)) (e - kExpBias - kBitsM)
    else if m =? 0 then INFINITY else NAN in
  let sign :=
    if negb (Z.land bits (Z.shiftl 1 (kBitsM + kBitsE)) =? 0)
    then (-1)%float else 1%float in
  copysign val sign.

End CMath.

(** ** The enumerations of [CBOR.h] *)

Module DataType.
(** Modelled from the spec: [enum class DataType] is declared in [CBOR.h],
    which is not among the sources; its values are the logical types of
    section 3, under the names [CBOR.cpp] uses. *)
Inductive t :=
| kUnsignedInt | kNegativeInt | kBytes | kText | kArray | kMap | kTag
| kFloat | kDouble | kBoolean | kNull | kUndefined | kBreak
| kSimpleValue | kEOS | kSyntaxError.
End DataType.

Module SyntaxError.
(** Modelled from the spec: [enum class SyntaxError] is declared in
    [CBOR.h]; its values are the error kinds of section 7. *)
Inductive t :=
| kNoError | kUnknownAdditionalInfo | kNotAnIndefiniteType | kBadSimpleValue.
End SyntaxError.

Module State.
(** Modelled from the spec: [enum class State] is declared in [CBOR.h]; its
    values are the five states of section 4.3. *)
Inductive t :=
| kStart | kAdditionalInfo | kWaitAvailable | kReadValue | kDetermineType.

Definition eqb (a b : t) : bool :=
  match a, b with
  | kStart, kStart | kAdditionalInfo, kAdditionalInfo
  | kWaitAvailable, kWaitAvailable | kReadValue, kReadValue
  | kDetermineType, kDetermineType => true
  | _, _ => false
  end.
End State.

(** ** Reader: the decode state machine *)

Module Reader.

(** Modelled from the spec: the member variables of [Reader] are declared
    in [CBOR.h]; they are the fields of the decode-in-progress record of
    section 3 under the names [CBOR.cpp] uses.  The input stream [in_] is
    threaded separately. *)
Record t := mk {
  state_ : State.t;
  initialByte_ : Z;
  majorType_ : Z;
  addlInfo_ : Z;
  waitAvailable_ : Z;
  value_ : Z;
  syntaxError_ : SyntaxError.t
}.

(** Modelled from the spec: the constructor is in [CBOR.h]; a freshly
    constructed reader is in the start state (section 4.3). *)
Definition init : t := mk State.kStart 0 0 0 0 0 SyntaxError.kNoError.

Definition with_state (x : State.t) (r : t) : t :=
  mk x (initialByte_ r) (majorType_ r) (addlInfo_ r) (waitAvailable_ r)
     (value_ r) (syntaxError_ r).
Definition with_initialByte (x : Z) (r : t) : t :=
  mk (state_ r) x (majorType_ r) (addlInfo_ r) (waitAvailable_ r)
     (value_ r) (syntaxError_ r).
Definition with_majorType (x : Z) (r : t) : t :=
  mk (state_ r) (initialByte_ r) x (addlInfo_ r) (waitAvailable_ r)
     (value_ r) (syntaxError_ r).
Definition with_addlInfo (x : Z) (r : t) : t :=
  mk (state_ r) (initialByte_ r) (majorType_ r) x (waitAvailable_ r)
     (value_ r) (syntaxError_ r).
Definition with_waitAvailable (x : Z) (r : t) : t :=
  mk (state_ r) (initialByte_ r) (majorType_ r) (addlInfo_ r) x
     (value_ r) (syntaxError_ r).
Definition with_value (x : Z) (r : t) : t :=
  mk (state_ r) (initialByte_ r) (majorType_ r) (addlInfo_ r)
     (waitAvailable_ r) x (syntaxError_ r).
Definition with_syntaxError (x : SyntaxError.t) (r : t) : t :=
  mk (state_ r) (initialByte_ r) (majorType_ r) (addlInfo_ r)
     (waitAvailable_ r) (value_ r) x.

(** Control flow of [readDataType]: each [if (state_ == ...)] block either
    returns from the function or falls through to the next block. *)
Inductive flow :=
| Return (d : DataType.t) (r : t) (s : stream)
| Continue (r : t) (s : stream).

Definition andThen (f : flow) (k : t -> stream -> flow) : flow :=
  match f with
  | Return d r s => Return d r s
  | Continue r s => k r s
  end.

Notation "f >>> k" := (andThen f k) (at level 50, left associativity).

(** Lines 29-43: read the initial byte. *)
Definition onStart (r : t) (s : stream) : flow :=
  if State.eqb (state_ r) State.kStart then
    let (ib, s) := read s in
    let r := with_initialByte ib r in
    let r := with_value 0 r in
    let r := with_syntaxError SyntaxError.kNoError r in
    if ib <? 0 then
      let r := with_majorType 0 r in
      let r := with_addlInfo 0 r in
      let r := with_waitAvailable 0 r in
      Return DataType.kEOS r s
    else
      let r := with_majorType (Z.shiftr (u8 ib) 5) r in
      let r := with_addlInfo (Z.land ib 31) r in
      Continue (with_state State.kAdditionalInfo r) s
  else Continue r s.

(** Lines 46-86: note how many argument bytes are needed. *)
Definition onAdditionalInfo (r : t) (s : stream) : flow :=
  if State.eqb (state_ r) State.kAdditionalInfo then
    let r := with_waitAvailable 0 r in
    let ai := addlInfo_ r in
    if ai =? 24 then
      Continue (with_state State.kWaitAvailable (with_waitAvailable 1 r)) s
    else if ai =? 25 then
      Continue (with_state State.kWaitAvailable (with_waitAvailable 2 r)) s
    else if ai =? 26 then
      Continue (with_state State.kWaitAvailable (with_waitAvailable 4 r)) s
    else if ai =? 27 then
      Continue (with_state State.kWaitAvailable (with_waitAvailable 8 r)) s
    else if (ai =? 28) || (ai =? 29) || (ai =? 30) then
      Return DataType.kSyntaxError (with_syntaxError SyntaxError.kUnknownAdditionalInfo r) s
    else if ai =? 31 then
      let mt := majorType_ r in
      if (mt =? kUnsignedInt) || (mt =? kNegativeInt) || (mt =? kTag) then
        Return DataType.kSyntaxError (with_syntaxError SyntaxError.kNotAnIndefiniteType r) s
      else
        Continue (with_state State.kReadValue r) s
    else
      Continue (with_state State.kReadValue r) s
  else Continue r s.

(** Lines 89-94: wait until the argument bytes are all there. *)
Definition onWaitAvailable (r : t) (s : stream) : flow :=
  if State.eqb (state_ r) State.kWaitAvailable then
    if available s <? waitAvailable_ r then
      Return DataType.kEOS r s
    else
      Continue (with_state State.kReadValue r) s
  else Continue r s.

(** The argument reads of lines 99-124.  The operands of [|] are read
    from left to right; every [in_.read()] result is converted to the
    unsigned type of the cast before it is shifted. *)
Definition readValue16 (s : stream) : Z * stream :=
  let (b1, s) := read s in
  let (b0, s) := read s in
  (Z.lor (Z.shiftl (u16 b1) 8) (u16 b0), s).

Definition readValue32 (s : stream) : Z * stream :=
  let (b3, s) := read s in
  let (b2, s) := read s in
  let (b1, s) := read s in
  let (b0, s) := read s in
  (Z.lor (Z.lor (Z.lor (u32 (Z.shiftl (u32 b3) 24))
                       (u32 (Z.shiftl (u32 b2) 16)))
                (u32 (Z.shiftl (u32 b1) 8)))
         (u32 b0), s).

Definition readValue64 (s : stream) : Z * stream :=
  let (b7, s) := read s in
  let (b6, s) := read s in
  let (b5, s) := read s in
  let (b4, s) := read s in
  let (b3, s) := read s in
  let (b2, s) := read s in
  let (b1, s) := read s in
  let (b0, s) := read s in
  (Z.lor (Z.lor (Z.lor (Z.lor (Z.lor (Z.lor (Z.lor
     (u64 (Z.shiftl (u64 b7) 56))
     (u64 (Z.shiftl (u64 b6) 48)))
     (u64 (Z.shiftl (u64 b5) 40)))
     (u64 (Z.shiftl (u64 b4) 32)))
     (u64 (Z.shiftl (u64 b3) 24)))
     (u64 (Z.shiftl (u64 b2) 16)))
     (u64 (Z.shiftl (u64 b1) 8)))
     (u64 b0), s).

(** Lines 98-136: the [switch (addlInfo_)] that assigns [value_]. *)
Definition readValue (ai : Z) (s : stream) : Z * stream :=
  if ai =? 24 then let (b, s) := read s in (u64 b, s)
  else if ai =? 25 then readValue16 s
  else if ai =? 26 then readValue32 s
  else if ai =? 27 then readValue64 s
  else if (ai =? 28) || (ai =? 29) || (ai =? 30) then (ai, s)
  else if ai =? 31 then (0, s)
  else (ai, s).

(** Lines 97-138: read the argument. *)
Definition onReadValue (r : t) (s : stream) : flow :=
  if State.eqb (state_ r) State.kReadValue then
    let (v, s) := readValue (addlInfo_ r) s in
    Continue (with_state State.kDetermineType (with_value v r)) s
  else Continue r s.

(** Lines 140-198: map the header to a logical data type. *)
Definition onDetermineType (r : t) (s : stream) : flow :=
  if State.eqb (state_ r) State.kDetermineType then
    let r := with_state State.kStart r in
    let mt := majorType_ r in
    if mt =? kUnsignedInt then Return DataType.kUnsignedInt r s
    else if mt =? kNegativeInt then Return DataType.kNegativeInt r s
    else if mt =? kBytes then Return DataType.kBytes r s
    else if mt =? kText then Return DataType.kText r s
    else if mt =? kArray then Return DataType.kArray r s
    else if mt =? kMap then Return DataType.kMap r s
    else if mt =? kTag then Return DataType.kTag r s
    else if mt =? kSimpleOrFloat then
      let ai := addlInfo_ r in
      if (ai =? 20) || (ai =? 21) then Return DataType.kBoolean (with_value 0 r) s
      else if ai =? 22 then Return DataType.kNull (with_value 0 r) s
      else if ai =? 23 then Return DataType.kUndefined (with_value 0 r) s
      else if ai =? 24 then
        if value_ r <? 32 then
          Return DataType.kSyntaxError (with_syntaxError SyntaxError.kBadSimpleValue r) s
        else Return DataType.kSimpleValue r s
      else if (ai =? 25) || (ai =? 26) then Return DataType.kFloat r s
      else if ai =? 27 then Return DataType.kDouble r s
      else if (ai =? 28) || (ai =? 29) || (ai =? 30) then
        Return DataType.kSyntaxError (with_syntaxError SyntaxError.kUnknownAdditionalInfo r) s
      else if ai =? 31 then Return DataType.kBreak (with_value 0 r) s
      else Return DataType.kSimpleValue r s
    else Return DataType.kUnsignedInt r s
  else Continue r s.

(** [Reader::readDataType()]: the returned data type, the reader after
    the call and what is left of the stream. *)
Definition readDataType (r : t) (s : stream) : DataType.t * t * stream :=
  match Continue r s >>> onStart >>> onAdditionalInfo >>> onWaitAvailable
                     >>> onReadValue >>> onDetermineType with
  | Return d r s => (d, r, s)
  | Continue r s => (DataType.kEOS, r, s)
  end.

Definition getSyntaxError (r : t) : SyntaxError.t := syntaxError_ r.
Definition getRawValue (r : t) : Z := value_ r.
Definition getLength (r : t) : Z := value_ r.

Definition isIndefiniteLength (r : t) : bool :=
  let mt := majorType_ r in
  if (mt =? kBytes) || (mt =? kText) || (mt =? kArray) || (mt =? kMap)
  then addlInfo_ r =? 31
  else false.

(** [Reader::getBoolean()]. *)
Definition getBoolean (r : t) : bool :=
  if majorType_ r =? kSimpleOrFloat then
    if addlInfo_ r =? 21 then true
    else if (addlInfo_ r =? 24) && (value_ r =? 21) then true
    else false
  else false.

Definition getUnsignedInt (r : t) : Z :=
  if majorType_ r =? kUnsignedInt then value_ r else 0.

(** [Reader::getInt()]: [-1LL - static_cast<int64_t>(value_)]. *)
Definition getInt (r : t) : Z :=
  if majorType_ r =? kNegativeInt then s64 (-1 - s64 (value_ r)) else 0.

Definition getSimpleValue (r : t) : Z :=
  if majorType_ r =? kSimpleOrFloat then u8 (value_ r) else 0.

Definition getTag (r : t) : Z :=
  if majorType_ r =? kTag then value_ r else 0.

(** [Reader::getDouble()]. *)
Definition getDouble (r : t) : float :=
  if negb (majorType_ r =? kSimpleOrFloat) then 0%float
  else if addlInfo_ r =? 25 then
    let kBitsM := 10 in
    let kBitsE := 5 in
    let kExpBias := Z.shiftl 1 (kBitsE - 1) - 1 in
    let half := u16 (value_ r) in
    let e := Z.land (Z.shiftr half kBitsM) (Z.shiftl 1 kBitsE - 1) in
    let m := Z.land half (Z.shiftl 1 kBitsM - 1) in
    let val :=
      if e =? 0 then
        CMath.ldexp (CMath.double_of_int m) (1 - kExpBias - kBitsM)
      else if negb (e =? Z.shiftl 1 kBitsE - 1) then
        CMath.ldexp (CMath.double_of_int (m + Z.shiftl 1 kBitsM))
                    (e - kExpBias - kBitsM)
      else if m =? 0 then CMath.INFINITY else CMath.NAN in
    let sign :=
      if negb (Z.land half (Z.shiftl 1 (kBitsM + kBitsE)) =? 0)
      then (-1)%float else 1%float in
    CMath.copysign val sign
  else if addlInfo_ r =? 26 then
    let bits := u32 (value_ r) in
    CMath.memcpy_ieee754 23 8 bits
  else if addlInfo_ r =? 27 then
    CMath.memcpy_ieee754 52 11 (value_ r)
  else 0%float.

(** [Reader::getFloat()]. *)
Definition getFloat (r : t) : CMath.single :=
  CMath.static_cast_float (getDouble r).

(** *** The well-formedness checker *)

(** Lines 375-427: the argument of the item head.  The outcome is a
    [return -1], the dispatch to [isIndefiniteWellFormed], or the value of
    [val]. *)
Inductive head :=
| HeadMalformed (s : stream)
| HeadIndefinite (s : stream)
| HeadValue (val : Z) (s : stream).

(** [(int64_t{in_.read()} << 24) | ... | int64_t{in_.read()}]; the result
    is negative as soon as one of the reads returned [-1]. *)
Definition read4 (s : stream) : Z * stream :=
  let (b3, s) := read s in
  let (b2, s) := read s in
  let (b1, s) := read s in
  let (b0, s) := read s in
  (Z.lor (Z.lor (Z.lor (Z.shiftl b3 24) (Z.shiftl b2 16)) (Z.shiftl b1 8))
         b0, s).

Definition readHead (majorType ai : Z) (s : stream) : head :=
  if ai =? 24 then
    let (v, s) := read s in
    if v <? 0 then HeadMalformed s
    else
      let val := u8 v in
      if (majorType =? kSimpleOrFloat) && (val <? 32) then HeadMalformed s
      else HeadValue val s
  else if ai =? 25 then
    let (b1, s) := read s in
    let (b0, s) := read s in
    let v := Z.lor (Z.shiftl b1 8) b0 in
    if v <? 0 then HeadMalformed s else HeadValue (u16 v) s
  else if ai =? 26 then
    let (v, s) := read4 s in
    if v <? 0 then HeadMalformed s else HeadValue (u32 v) s
  else if ai =? 27 then
    let val := 0 in
    let (v, s) := read4 s in
    if v <? 0 then HeadMalformed s
    else
      let val := Z.lor (u64 (Z.shiftl val 32)) (u32 v) in
      let (v, s) := read4 s in
      if v <? 0 then HeadMalformed s
      else HeadValue (Z.lor (u64 (Z.shiftl val 32)) (u32 v)) s
  else if (ai =? 28) || (ai =? 29) || (ai =? 30) then HeadMalformed s
  else if ai =? 31 then HeadIndefinite s
  else HeadValue ai s.

(** Lines 433-445: [for (i = 0; i < val; i++) if (in_.read() < 0) return -1]. *)
Fixpoint readRaw (val : Z) (s : stream) {struct s} : bool * stream :=
  if 0 <? val then
    match s with
    | [] => (false, [])
    | _ :: s' => readRaw (val - 1) s'
    end
  else (true, s).

(** Line 449: the overflow check of a map header. *)
Definition mapOverflow (val : Z) : bool :=
  negb (val =? 0) && (u64 (2 * val) <=? val).

(** The result of a check: the returned [int] and what is left of the
    stream.  [None] means that the bound given to the model on the depth
    of the recursion or on the number of iterations of a loop was too
    small; [isWellFormed_total] shows that a bound above the length of the
    stream is always enough. *)
Definition checked := option (Z * stream).

Section Loops.

(** The recursive calls [isWellFormed(breakable)]. *)
Variable item : bool -> stream -> checked.

(** Lines 455-467:
    [for (i = 0; i < val; i++) if (isWellFormed(false) < 0) return -1]. *)
Fixpoint forItems (k : nat) (val : Z) (s : stream) : option (bool * stream) :=
  if 0 <? val then
    match k with
    | O => None
    | S k =>
        match item false s with
        | None => None
        | Some (t, s) =>
            if t <? 0 then Some (false, s) else forItems k (val - 1) s
        end
    end
  else Some (true, s).

(** Lines 486-497: the chunks of an indefinite-length string. *)
Fixpoint whileChunks (k : nat) (majorType : Z) (s : stream)
  : option (bool * stream) :=
  match k with
  | O => None
  | S k =>
      match item true s with
      | None => None
      | Some (t, s) =>
          if t =? -2 then Some (true, s)
          else if t =? -1 then Some (false, s)
          else if negb (t =? majorType) then Some (false, s)
          else whileChunks k majorType s
      end
  end.

(** Lines 500-508: the items of an indefinite-length array. *)
Fixpoint whileItems (k : nat) (s : stream) : option (bool * stream) :=
  match k with
  | O => None
  | S k =>
      match item true s with
      | None => None
      | Some (t, s) =>
          if t =? -2 then Some (true, s)
          else if t =? -1 then Some (false, s)
          else whileItems k s
      end
  end.

(** Lines 511-522: the pairs of an indefinite-length map. *)
Fixpoint whilePairs (k : nat) (s : stream) : option (bool * stream) :=
  match k with
  | O => None
  | S k =>
      match item true s with
      | None => None
      | Some (t, s) =>
          if t =? -2 then Some (true, s)
          else if t =? -1 then Some (false, s)
          else
            match item false s with
            | None => None
            | Some (t, s) =>
                if t <? 0 then Some (false, s) else whilePairs k s
            end
      end
  end.

(** A loop that left through [return -1] makes the function return
    [-1]; otherwise the function goes on to [return majorType]. *)
Definition finish (majorType : Z) (l : option (bool * stream)) : checked :=
  match l with
  | None => None
  | Some (ok, s) => Some (if ok then majorType else -1, s)
  end.

(** [Reader::isIndefiniteWellFormed(uint8_t majorType, bool breakable)];
    [k] bounds the iterations of the loops. *)
Definition isIndefiniteWellFormed (k : nat) (majorType : Z)
           (breakable : bool) (s : stream) : checked :=
  if (majorType =? kBytes) || (majorType =? kText) then
    finish majorType (whileChunks k majorType s)
  else if majorType =? kArray then
    finish majorType (whileItems k s)
  else if majorType =? kMap then
    finish majorType (whilePairs k s)
  else if majorType =? kSimpleOrFloat then
    if breakable then Some (-2, s) else Some (-1, s)
  else Some (-1, s).

(** Lines 429-479: the content that follows a definite-length head. *)
Definition checkContent (k : nat) (majorType val : Z) (s : stream)
  : checked :=
  let items (val : Z) (s : stream) :=
    if val <=? UINT32_MAX
    then finish majorType (forItems k (u32 val) s)
    else finish majorType (forItems k val s) in
  if (majorType =? 2) || (majorType =? 3) then
    let (ok, s) :=
      if val <=? UINT32_MAX then readRaw (u32 val) s else readRaw val s in
    Some (if ok then majorType else -1, s)
  else if majorType =? 5 then
    if mapOverflow val then Some (-1, s)
    else items (u64 (Z.shiftl val 1)) s
  else if majorType =? 4 then
    items val s
  else if majorType =? 6 then
    match item false s with
    | None => None
    | Some (t, s) => Some (if t <? 0 then -1 else majorType, s)
    end
  else Some (majorType, s).

End Loops.

(** [Reader::isWellFormed(bool breakable)].  [fuel] bounds the depth of
    the recursion and, one level down, the iterations of each loop. *)
Fixpoint isWellFormed (fuel : nat) (breakable : bool) (s : stream)
  : checked :=
  match fuel with
  | O => None
  | S fuel =>
      let (ib, s) := read s in
      if ib <? 0 then Some (-1, s)
      else
        let majorType := Z.shiftr (u8 ib) 5 in
        let ai := u8 (Z.land ib 31) in
        match readHead majorType ai s with
        | HeadMalformed s => Some (-1, s)
        | HeadIndefinite s =>
            isIndefiniteWellFormed (isWellFormed fuel) fuel
                                   majorType breakable s
        | HeadValue val s =>
            checkContent (isWellFormed fuel) fuel majorType val s
        end
  end.

(** [Reader::isWellFormed()]: [isWellFormed(false) >= 0] on the bytes that
    are readable, with the bound that is always enough. *)
Definition isWellFormedItem (s : stream) : option bool :=
  match isWellFormed (S (length s)) false s with
  | None => None
  | Some (t, _) => Some (0 <=? t)
  end.

End Reader.

Import Reader.

(** * Vocabulary of the specification

    The notions in which the properties below are stated. *)

(** The data types that [readDataType] reports for an item that carries no
    floating-point number. *)
Definition notFloatItem (d : DataType.t) : bool :=
  match d with
  | DataType.kFloat | DataType.kDouble | DataType.kEOS => false
  | _ => true
  end.

(** The half-precision value in the words of the specification: sign bit
    15, exponent bits 14..10, mantissa bits 9..0. *)
Definition halfValue (half : Z) : float :=
  let s := Z.testbit half 15 in
  let e := (half / 2 ^ 10) mod 2 ^ 5 in
  let m := half mod 2 ^ 10 in
  let magnitude :=
    if e =? 0 then CMath.ldexp (CMath.double_of_int m) (-24)
    else if e <? 31 then CMath.ldexp (CMath.double_of_int (m + 1024)) (e - 25)
    else if m =? 0 then infinity else nan in
  CMath.copysign magnitude (if s then (-1)%float else 1%float).

(** The number of argument bytes announced by an additional information. *)
Definition argBytes (ai : Z) : Z :=
  if ai =? 24 then 1 else if ai =? 25 then 2
  else if ai =? 26 then 4 else if ai =? 27 then 8 else 0.

(** The outcome of the [kDetermineType] block as a function of the head:
    the data type returned, the value left in [value_] and the syntax error
    recorded, if any ([step_determine] relates it to the block). *)
Definition determineType (mt ai v : Z) : DataType.t * Z * SyntaxError.t :=
  if mt =? 0 then (DataType.kUnsignedInt, v, SyntaxError.kNoError)
  else if mt =? 1 then (DataType.kNegativeInt, v, SyntaxError.kNoError)
  else if mt =? 2 then (DataType.kBytes, v, SyntaxError.kNoError)
  else if mt =? 3 then (DataType.kText, v, SyntaxError.kNoError)
  else if mt =? 4 then (DataType.kArray, v, SyntaxError.kNoError)
  else if mt =? 5 then (DataType.kMap, v, SyntaxError.kNoError)
  else if mt =? 6 then (DataType.kTag, v, SyntaxError.kNoError)
  else if mt =? 7 then
    if (ai =? 20) || (ai =? 21) then (DataType.kBoolean, 0, SyntaxError.kNoError)
    else if ai =? 22 then (DataType.kNull, 0, SyntaxError.kNoError)
    else if ai =? 23 then (DataType.kUndefined, 0, SyntaxError.kNoError)
    else if ai =? 24 then
      if v <? 32 then (DataType.kSyntaxError, v, SyntaxError.kBadSimpleValue)
      else (DataType.kSimpleValue, v, SyntaxError.kNoError)
    else if (ai =? 25) || (ai =? 26) then (DataType.kFloat, v, SyntaxError.kNoError)
    else if ai =? 27 then (DataType.kDouble, v, SyntaxError.kNoError)
    else if (ai =? 28) || (ai =? 29) || (ai =? 30) then
      (DataType.kSyntaxError, v, SyntaxError.kUnknownAdditionalInfo)
    else if ai =? 31 then (DataType.kBreak, 0, SyntaxError.kNoError)
    else (DataType.kSimpleValue, v, SyntaxError.kNoError)
  else (DataType.kUnsignedInt, v, SyntaxError.kNoError).

(** The initial bytes on which the reader reports a syntax error before it
    reads an argument: additional information 28, 29 or 30, or additional
    information 31 on major type 0, 1 or 6. *)
Definition badInitialByte (ib : Z) : bool :=
  let ai := Z.land ib 31 in
  let mt := Z.shiftr ib 5 in
  ((28 <=? ai) && (ai <=? 30)) ||
  ((ai =? 31) && ((mt =? 0) || (mt =? 1) || (mt =? 6))).

(** The stream cannot supply the bytes that the head in progress still
    needs: no initial byte, or fewer argument bytes than the additional
    information announces. *)
Definition starved (r : Reader.t) (s : stream) : bool :=
  match state_ r with
  | State.kStart =>
      match s with
      | [] => true
      | ib :: t => available t <? argBytes (Z.land (u8 ib) 31)
      end
  | State.kAdditionalInfo => available s <? argBytes (addlInfo_ r)
  | State.kWaitAvailable => available s <? waitAvailable_ r
  | _ => false
  end.

(** A call that reports [kEOS], leaves a record that further calls do not
    change while no byte arrives, and from which the call made once [q] has
    arrived gives what the first call would have given with [q] there. *)
Definition shortRead (r : Reader.t) (s q : stream) (r1 : Reader.t) (s1 : stream)
  : Prop :=
  readDataType r s = (DataType.kEOS, r1, s1) /\
  readDataType r1 s1 = (DataType.kEOS, r1, s1) /\
  readDataType r1 (s1 ++ q) = readDataType r (s ++ q).

(** The [w] bytes of [u] in big-endian order, in the words of the
    specification. *)
Fixpoint be_bytes (w : nat) (u : Z) : list Z :=
  match w with
  | O => []
  | S w' => (u / 2 ^ (8 * Z.of_nat w')) mod 256 :: be_bytes w' u
  end.

(** The five argument widths and what each can represent. *)
Definition widths : list nat := [0; 1; 2; 4; 8]%nat.

Definition fits (w : nat) (u : Z) : bool :=
  match w with
  | O => u <? 24
  | _ => u <? 2 ^ (8 * Z.of_nat w)
  end.

(** The additional information that announces a width. *)
Definition widthCode (w : nat) (u : Z) : Z :=
  match w with
  | 0%nat => u
  | 1%nat => 24
  | 2%nat => 25
  | 4%nat => 26
  | _ => 27
  end.

(** The width [writeTypedInt] picks. *)
Definition chosenWidth (u : Z) : nat :=
  if u <? 24 then 0%nat
  else if u <? 2 ^ 8 then 1%nat
  else if u <? 2 ^ 16 then 2%nat
  else if u <? 2 ^ 32 then 4%nat
  else 8%nat.

(** The number denoted by a big-endian byte string. *)
Fixpoint be_value (l : list Z) (acc : Z) : Z :=
  match l with
  | [] => acc
  | b :: l' => be_value l' (acc * 256 + b)
  end.

Definition isByte (b : Z) : Prop := 0 <= b < 256.

(** A check that returns on every stream shorter than [bound], never gives
    bytes back, and consumes at least one byte unless it returns [-1]. *)
Definition productive (item : bool -> stream -> checked) (bound : nat) : Prop :=
  forall (b : bool) (s : stream),
    (length s < bound)%nat ->
    exists t s', item b s = Some (t, s') /\
                 (length s' <= length s)%nat /\
                 (t <> -1 -> (length s' < length s)%nat).

(** What is left of the stream after the head. *)
Definition headStream (h : head) : stream :=
  match h with
  | HeadMalformed s | HeadIndefinite s | HeadValue _ s => s
  end.

(** An argument [n] and an additional information [ai] that can carry it:
    embedded, or in the 1, 2, 4 or 8 bytes that [ai] announces (the
    encoding need not be the shortest one). *)
Definition headValid (ai n : Z) : Prop :=
  (0 <= ai < 24 /\ n = ai) \/
  (24 <= ai <= 27 /\ 0 <= n < 2 ^ (8 * argBytes ai)).

(** The bytes of a definite-length head. *)
Definition definiteHead (major ai n : Z) : list Z :=
  (Z.shiftl major 5 + ai) :: be_bytes (Z.to_nat (argBytes ai)) n.

(** [n] children in a row, each accepted by the checker. *)
Inductive itemsRun (item : bool -> stream -> checked)
  : nat -> stream -> stream -> Prop :=
| itemsRun_done (s : stream) : itemsRun item 0 s s
| itemsRun_next (n : nat) (s s1 s' : stream) (t : Z) :
    item false s = Some (t, s1) ->
    0 <= t ->
    itemsRun item n s1 s' ->
    itemsRun item (S n) s s'.

(** The initial byte of an indefinite-length item. *)
Definition indefiniteHead (major : Z) : Z := Z.shiftl major 5 + 31.

(** [n] children in a row for which the check returns [majorType],
    followed by a Break. *)
Inductive chunksRun (item : bool -> stream -> checked) (majorType : Z)
  : nat -> stream -> stream -> Prop :=
| chunksRun_break (s s' : stream) :
    item true s = Some (-2, s') ->
    chunksRun item majorType 0 s s'
| chunksRun_chunk (n : nat) (s s1 s' : stream) :
    item true s = Some (majorType, s1) ->
    chunksRun item majorType n s1 s' ->
    chunksRun item majorType (S n) s s'.

(** The data type that [readDataType] reports for the major types 0 to 6. *)
Definition majorDataType (major : Z) : DataType.t :=
  if major =? 0 then DataType.kUnsignedInt
  else if major =? 1 then DataType.kNegativeInt
  else if major =? 2 then DataType.kBytes
  else if major =? 3 then DataType.kText
  else if major =? 4 then DataType.kArray
  else if major =? 5 then DataType.kMap
  else DataType.kTag.

(** The three ways a call can end, from any record. *)
Inductive outcome (r : Reader.t) (s : stream)
  : DataType.t -> Reader.t -> stream -> Prop :=
| outcome_starved (r' : Reader.t) (s' : stream) :
    starved r s = true ->
    state_ r' = State.kStart \/ state_ r' = State.kWaitAvailable ->
    outcome r s DataType.kEOS r' s'
| outcome_stuck (r' : Reader.t) (s' : stream) :
    starved r s = false ->
    state_ r' = State.kAdditionalInfo ->
    28 <= addlInfo_ r' <= 31 ->
    outcome r s DataType.kSyntaxError r' s'
| outcome_item (d : DataType.t) (r' : Reader.t) (s' : stream) :
    starved r s = false ->
    d <> DataType.kEOS ->
    state_ r' = State.kStart ->
    outcome r s d r' s'.

(** A check whose accepting results do not depend on what follows the
    bytes it has consumed. *)
Definition local (item : bool -> stream -> checked) : Prop :=
  forall (b : bool) (s s' q : stream) (t : Z),
    item b s = Some (t, s') -> t <> -1 ->
    item b (s ++ q) = Some (t, s' ++ q).

(** The head with [q] appended to the stream it leaves. *)
Definition appHead (h : head) (q : stream) : head :=
  match h with
  | HeadMalformed s => HeadMalformed (s ++ q)
  | HeadIndefinite s => HeadIndefinite (s ++ q)
  | HeadValue val s => HeadValue val (s ++ q)
  end.

(** [n] elements in a row, each accepted by the checker called with
    [breakable] set, followed by a Break. *)
Inductive elementsRun (item : bool -> stream -> checked)
  : nat -> stream -> stream -> Prop :=
| elementsRun_break (s s' : stream) :
    item true s = Some (-2, s') ->
    elementsRun item 0 s s'
| elementsRun_next (n : nat) (s s1 s' : stream) (t : Z) :
    item true s = Some (t, s1) ->
    0 <= t ->
    elementsRun item n s1 s' ->
    elementsRun item (S n) s s'.

(** [n] pairs in a row, followed by a Break: each key is accepted by the
    checker called with [breakable] set, each value by the checker called
    with [breakable] unset. *)
Inductive pairsRun (item : bool -> stream -> checked)
  : nat -> stream -> stream -> Prop :=
| pairsRun_break (s s' : stream) :
    item true s = Some (-2, s') ->
    pairsRun item 0 s s'
| pairsRun_next (n : nat) (s s1 s2 s' : stream) (t1 t2 : Z) :
    item true s = Some (t1, s1) ->
    0 <= t1 ->
    item false s1 = Some (t2, s2) ->
    0 <= t2 ->
    pairsRun item n s2 s' ->
    pairsRun item (S n) s s'.

(** A check whose negative results are [-1] and [-2]. *)
Definition twoErrors (item : bool -> stream -> checked) : Prop :=
  forall (b : bool) (s s' : stream) (t : Z),
    item b s = Some (t, s') -> t < 0 -> t = -1 \/ t = -2.

(** * Properties *)

(** ** Bit-level facts about fixed-width integers *)

Lemma land_pow2_testbit (a n : Z) :
  0 <= n -> (Z.land a (Z.shiftl 1 n) =? 0) = negb (Z.testbit a n).
Proof.
  intros Hn.
  assert (E : Z.land a (Z.shiftl 1 n) = if Z.testbit a n then 2 ^ n else 0).
  { apply Z.bits_inj'. intros k Hk.
    rewrite Z.land_spec, Z.shiftl_1_l, Z.pow2_bits_eqb by lia.
    destruct (Z.eqb_spec n k) as [->|Hne].
    - destruct (Z.testbit a k); simpl.
      + now rewrite Z.pow2_bits_true.
      + now rewrite Z.bits_0.
    - rewrite andb_false_r.
      destruct (Z.testbit a n).
      + now rewrite Z.pow2_bits_false.
      + now rewrite Z.bits_0. }
  rewrite E. destruct (Z.testbit a n); simpl.
  - apply Z.eqb_neq. pose proof (Z.pow_pos_nonneg 2 n). lia.
  - reflexivity.
Qed.

Lemma land_low_mask (a n : Z) :
  0 <= n -> Z.land a (Z.shiftl 1 n - 1) = a mod 2 ^ n.
Proof.
  intros Hn. rewrite Z.shiftl_1_l, <- Z.land_ones by lia.
  now rewrite Z.ones_equiv, Z.sub_1_r.
Qed.

(** ** Accessors *)

(** C8.  [getBoolean] answers [true] exactly when the major type is 7 and
    either the additional information is 21, or it is 24 and the argument is
    21.  Every other reader record gives [false]: in particular additional
    information 20 (the encoding of false) and the one-byte form with
    argument 20. *)
Theorem getBoolean_true_iff (r : Reader.t) :
  getBoolean r = true <->
  majorType_ r = 7 /\
  (addlInfo_ r = 21 \/ (addlInfo_ r = 24 /\ value_ r = 21)).
Proof.
  unfold getBoolean, kSimpleOrFloat.
  destruct (Z.eqb_spec (majorType_ r) 7) as [Hm|Hm];
    destruct (Z.eqb_spec (addlInfo_ r) 21) as [Ha|Ha];
    destruct (Z.eqb_spec (addlInfo_ r) 24) as [Hb|Hb];
    destruct (Z.eqb_spec (value_ r) 21) as [Hv|Hv];
    simpl; split; intros H; try discriminate; try reflexivity;
    try (split; [assumption|]); try tauto; try lia;
    destruct H as [H1 [H2|[H2 H3]]]; congruence.
Qed.

Lemma getDouble_outside_float (r : Reader.t) :
  majorType_ r <> kSimpleOrFloat \/
  (addlInfo_ r <> 25 /\ addlInfo_ r <> 26 /\ addlInfo_ r <> 27) ->
  getDouble r = 0%float.
Proof.
  unfold getDouble. intros [H|(H25 & H26 & H27)].
  - apply Z.eqb_neq in H. now rewrite H.
  - apply Z.eqb_neq in H25, H26, H27. rewrite H25, H26, H27.
    now destruct (negb _).
Qed.

(** ** The reader's state machine, block by block *)

Ltac reader_unfold :=
  cbv beta iota zeta delta
    [readDataType andThen onStart onAdditionalInfo onWaitAvailable
     onReadValue onDetermineType
     with_state with_initialByte with_majorType with_addlInfo
     with_waitAvailable with_value with_syntaxError
     state_ initialByte_ majorType_ addlInfo_ waitAvailable_ value_
     syntaxError_ State.eqb getSyntaxError
     kUnsignedInt kNegativeInt kBytes kText kArray kMap kTag kSimpleOrFloat].

Ltac split_if :=
  match goal with
  | |- context [if ?c then _ else _] => destruct c eqn:?
  | H : context [if ?c then _ else _] |- _ => destruct c eqn:?
  end.

Lemma u8_range (x : Z) : 0 <= u8 x < 256.
Proof. unfold u8. apply Z.mod_pos_bound. reflexivity. Qed.

Lemma u8_small (x : Z) : 0 <= x < 256 -> u8 x = x.
Proof. intros H. unfold u8. now apply Z.mod_small. Qed.

Ltac bool_to_Z :=
  repeat progress
    (rewrite ?orb_true_iff, ?orb_false_iff, ?andb_true_iff, ?andb_false_iff,
       ?negb_true_iff, ?negb_false_iff,
       ?Z.eqb_eq, ?Z.eqb_neq, ?Z.ltb_lt, ?Z.ltb_ge, ?Z.leb_le, ?Z.leb_gt in *).

(** Every result of [readDataType] is the [return] of one of its five
    blocks; the trailing [return DataType::kEOS] is only reached from a
    record whose state is none that a block sets. *)
Lemma readDataType_cases (r r' : Reader.t) (s s' : stream) (d : DataType.t) :
  readDataType r s = (d, r', s') ->
  (exists r0 s0, onStart r0 s0 = Return d r' s') \/
  (exists r0 s0, onAdditionalInfo r0 s0 = Return d r' s') \/
  (exists r0 s0, onWaitAvailable r0 s0 = Return d r' s') \/
  (exists r0 s0, onReadValue r0 s0 = Return d r' s') \/
  (exists r0 s0, onDetermineType r0 s0 = Return d r' s') \/
  d = DataType.kEOS.
Proof.
  unfold readDataType, andThen.
  destruct (onStart r s) as [d1 r1 s1|r1 s1] eqn:E1.
  { intros [= <- <- <-]. left. eauto. }
  destruct (onAdditionalInfo r1 s1) as [d2 r2 s2|r2 s2] eqn:E2.
  { intros [= <- <- <-]. right. left. eauto. }
  destruct (onWaitAvailable r2 s2) as [d3 r3 s3|r3 s3] eqn:E3.
  { intros [= <- <- <-]. do 2 right. left. eauto. }
  destruct (onReadValue r3 s3) as [d4 r4 s4|r4 s4] eqn:E4.
  { intros [= <- <- <-]. do 3 right. left. eauto. }
  destruct (onDetermineType r4 s4) as [d5 r5 s5|r5 s5] eqn:E5.
  { intros [= <- <- <-]. do 4 right. left. eauto. }
  intros [= <- <- <-]. do 5 right. reflexivity.
Qed.

Lemma onStart_return (r r' : Reader.t) (s s' : stream) (d : DataType.t) :
  onStart r s = Return d r' s' ->
  d = DataType.kEOS /\ s = [] /\ s' = [] /\ state_ r = State.kStart /\
  r' = Reader.mk State.kStart (-1) 0 0 0 0 SyntaxError.kNoError.
Proof.
  destruct r as [st ib mt ai wa v se].
  destruct st; reader_unfold; try discriminate.
  destruct s as [|b s]; cbv beta iota zeta delta [read].
  - simpl. intros [= <- <- <-]. auto.
  - pose proof (u8_range b) as Hb.
    destruct (u8 b <? 0) eqn:Hneg; [apply Z.ltb_lt in Hneg; lia|discriminate].
Qed.

Lemma onAdditionalInfo_return (r r' : Reader.t) (s s' : stream) (d : DataType.t) :
  onAdditionalInfo r s = Return d r' s' ->
  d = DataType.kSyntaxError /\ s' = s /\ state_ r = State.kAdditionalInfo /\
  r' = with_syntaxError (syntaxError_ r') (with_waitAvailable 0 r) /\
  ((28 <= addlInfo_ r <= 30 /\
    syntaxError_ r' = SyntaxError.kUnknownAdditionalInfo) \/
   (addlInfo_ r = 31 /\
    (majorType_ r = 0 \/ majorType_ r = 1 \/ majorType_ r = 6) /\
    syntaxError_ r' = SyntaxError.kNotAnIndefiniteType)).
Proof.
  destruct r as [st ib mt ai wa v se].
  unfold kUnsignedInt, kNegativeInt, kTag.
  destruct st; reader_unfold; try discriminate.
  repeat split_if; intros [= <- <- <-]; bool_to_Z;
    repeat split; try reflexivity; cbn;
    [left; split; [lia|reflexivity] | right; repeat split; tauto || lia].
Qed.

Lemma onWaitAvailable_return (r r' : Reader.t) (s s' : stream) (d : DataType.t) :
  onWaitAvailable r s = Return d r' s' ->
  d = DataType.kEOS /\ s' = s /\ r' = r /\
  state_ r = State.kWaitAvailable /\ available s < waitAvailable_ r.
Proof.
  destruct r as [st ib mt ai wa v se].
  destruct st; reader_unfold; try discriminate.
  split_if; intros [= <- <- <-]. bool_to_Z. auto.
Qed.

Lemma onReadValue_return (r r' : Reader.t) (s s' : stream) (d : DataType.t) :
  onReadValue r s = Return d r' s' -> False.
Proof.
  unfold onReadValue. destruct (State.eqb _ _); [|discriminate].
  now destruct (readValue (addlInfo_ r) s).
Qed.

Lemma onDetermineType_return (r r' : Reader.t) (s s' : stream) (d : DataType.t) :
  onDetermineType r s = Return d r' s' ->
  s' = s /\ state_ r = State.kDetermineType /\ state_ r' = State.kStart /\
  majorType_ r' = majorType_ r /\ addlInfo_ r' = addlInfo_ r /\
  (notFloatItem d = true ->
   majorType_ r <> kSimpleOrFloat \/
   (addlInfo_ r <> 25 /\ addlInfo_ r <> 26 /\ addlInfo_ r <> 27)) /\
  (d = DataType.kSyntaxError ->
   syntaxError_ r' = SyntaxError.kBadSimpleValue \/
   syntaxError_ r' = SyntaxError.kUnknownAdditionalInfo).
Proof.
  destruct r as [st ib mt ai wa v se].
  unfold kSimpleOrFloat, kUnsignedInt, kNegativeInt, kBytes, kText, kArray,
    kMap, kTag.
  destruct st; reader_unfold; try discriminate.
  repeat split_if; intros [= <- <- <-]; bool_to_Z;
    repeat split; try reflexivity; try discriminate; cbn; auto; lia.
Qed.

(** What [readDataType] leaves in the record when it reports an item that
    is not a floating-point number. *)
Lemma readDataType_not_float (r r' : Reader.t) (s s' : stream) (d : DataType.t) :
  readDataType r s = (d, r', s') ->
  notFloatItem d = true ->
  majorType_ r' <> kSimpleOrFloat \/
  (addlInfo_ r' <> 25 /\ addlInfo_ r' <> 26 /\ addlInfo_ r' <> 27).
Proof.
  intros H Hd.
  apply readDataType_cases in H.
  destruct H as [(r0 & s0 & H)|[(r0 & s0 & H)|[(r0 & s0 & H)|
                [(r0 & s0 & H)|[(r0 & s0 & H)|H]]]]].
  - apply onStart_return in H. destruct H as [-> _]. discriminate.
  - apply onAdditionalInfo_return in H.
    destruct H as (_ & _ & _ & -> & H). right.
    cbn. destruct H as [[H _]|[H _]]; lia.
  - apply onWaitAvailable_return in H. destruct H as [-> _]. discriminate.
  - now apply onReadValue_return in H.
  - apply onDetermineType_return in H.
    destruct H as (_ & _ & _ & -> & -> & H & _). auto.
  - subst. discriminate.
Qed.

(** C10.  [getFloat] is [getDouble] narrowed to single precision, and
    [getDouble] is exactly [0.0] when the major type is not 7 or the
    additional information is none of 25, 26, 27.  This is the case after
    every item that [readDataType] reports as something else than a Float
    or a Double (Boolean, Null, Undefined, SimpleValue, Break, the integer,
    string, container and tag types, and syntax errors). *)
Theorem getDouble_zero_unless_float (r : Reader.t) :
  getFloat r = CMath.static_cast_float (getDouble r) /\
  (majorType_ r <> kSimpleOrFloat \/
   (addlInfo_ r <> 25 /\ addlInfo_ r <> 26 /\ addlInfo_ r <> 27) ->
   getDouble r = 0%float /\ getFloat r = S754_zero false) /\
  (forall (r0 : Reader.t) (s s' : stream) (d : DataType.t),
      readDataType r0 s = (d, r, s') ->
      notFloatItem d = true ->
      getDouble r = 0%float /\ getFloat r = S754_zero false).
Proof.
  assert (Z0 : forall x, getDouble x = 0%float -> getFloat x = S754_zero false).
  { intros x Hx. unfold getFloat. now rewrite Hx. }
  split; [reflexivity|]. split.
  - intros H. apply getDouble_outside_float in H. auto.
  - intros r0 s s' d H Hd.
    pose proof (getDouble_outside_float r (readDataType_not_float _ _ _ _ _ H Hd)).
    auto.
Qed.

(** The claim at a concrete record: the state after the item [0xF5]
    (Boolean true). *)
Lemma getDouble_zero_unless_float_witness :
  getDouble (Reader.mk State.kStart 245 7 21 0 0 SyntaxError.kNoError)
  = 0%float.
Proof.
  apply (getDouble_zero_unless_float
           (Reader.mk State.kStart 245 7 21 0 0 SyntaxError.kNoError)).
  right. cbn. repeat split; discriminate.
Defined.

(** ** Half-precision floats *)

(** C7.  After a half-precision item (major type 7, additional information
    25) [getDouble] is the value of the low 16 bits of the argument read
    as an IEEE-754 half: [ldexp(m, -24)] for exponent 0,
    [ldexp(m + 1024, e - 25)] for exponents 1..30, infinity or NaN for
    exponent 31, with the sign applied by [copysign].  The bytes
    [F9 3C 00] decode to a Float whose [getDouble] is exactly [1.0]. *)
Theorem getDouble_half_precision (r : Reader.t) :
  (majorType_ r = 7 -> addlInfo_ r = 25 ->
   getDouble r = halfValue (value_ r mod 2 ^ 16)) /\
  (state_ r = State.kStart ->
   exists r', readDataType r [0xF9; 0x3C; 0x00] = (DataType.kFloat, r', []) /\
              value_ r' = 0x3C00 /\ getDouble r' = 1%float).
Proof.
  split.
  - intros Hm Ha. unfold getDouble, halfValue, kSimpleOrFloat.
    rewrite Hm, Ha. cbn [Z.eqb Pos.eqb negb].
    change (u16 (value_ r)) with (value_ r mod 2 ^ 16).
    set (half := value_ r mod 2 ^ 16).
    change (Z.shiftl 1 (5 - 1) - 1) with 15.
    change (Z.shiftl 1 5 - 1) with (Z.shiftl 1 5 - 1).
    rewrite !land_low_mask by lia.
    rewrite Z.shiftr_div_pow2 by lia.
    change (10 + 5) with 15.
    rewrite land_pow2_testbit by lia. rewrite negb_involutive.
    change (Z.shiftl 1 10) with 1024.
    change (1 - 15 - 10) with (-24).
    set (e := (half / 2 ^ 10) mod 2 ^ 5).
    assert (He : 0 <= e < 32) by (apply Z.mod_pos_bound; reflexivity).
    replace (e - 15 - 10) with (e - 25) by lia.
    change (Z.shiftl 1 5 - 1) with 31.
    replace (negb (e =? 31)) with (e <? 31); [reflexivity|].
    destruct (Z.ltb_spec e 31), (Z.eqb_spec e 31); simpl; auto; lia.
  - intros Hs. destruct r as [st ib mt ai wa v se]. cbn in Hs. subst st.
    exists (Reader.mk State.kStart 0xF9 7 25 2 0x3C00 SyntaxError.kNoError).
    repeat split; reflexivity.
Qed.

(** The claim at a concrete record: payload [0xC400] decodes to [-4.0], and
    a fresh reader decodes [F9 3C 00] to [1.0]. *)
Lemma getDouble_half_precision_witness :
  getDouble (Reader.mk State.kStart 0xF9 7 25 2 0xC400 SyntaxError.kNoError)
  = (-4)%float /\
  exists r', readDataType Reader.init [0xF9; 0x3C; 0x00]
             = (DataType.kFloat, r', []) /\
             value_ r' = 0x3C00 /\ getDouble r' = 1%float.
Proof.
  split.
  - exact (proj1 (getDouble_half_precision
             (Reader.mk State.kStart 0xF9 7 25 2 0xC400 SyntaxError.kNoError))
             eq_refl eq_refl).
  - exact (proj2 (getDouble_half_precision Reader.init) eq_refl).
Defined.

(** ** The state machine, one transition at a time

    A block of [readDataType] is skipped when the record is in another
    state, so a call that starts in some state is the call that starts in
    the state the block moves to. *)

Ltac decide_if :=
  match goal with
  | |- context [if ?c then _ else _] =>
      first [ replace c with true by (symmetry; bool_to_Z; lia)
            | replace c with false by (symmetry; bool_to_Z; lia) ]
  end.

Lemma available_cons (b : Z) (s : stream) : available (b :: s) = 1 + available s.
Proof. unfold available. cbn [length]. lia. Qed.

Lemma available_nonneg (s : stream) : 0 <= available s.
Proof. unfold available. lia. Qed.

(** A block leaves alone a record that is in another state. *)
Lemma onStart_skip (r : Reader.t) (s : stream) :
  state_ r <> State.kStart -> onStart r s = Continue r s.
Proof.
  unfold onStart. intros H.
  destruct (state_ r); try congruence; reflexivity.
Qed.

Lemma onAdditionalInfo_skip (r : Reader.t) (s : stream) :
  state_ r <> State.kAdditionalInfo -> onAdditionalInfo r s = Continue r s.
Proof.
  unfold onAdditionalInfo. intros H.
  destruct (state_ r); try congruence; reflexivity.
Qed.

Lemma onWaitAvailable_skip (r : Reader.t) (s : stream) :
  state_ r <> State.kWaitAvailable -> onWaitAvailable r s = Continue r s.
Proof.
  unfold onWaitAvailable. intros H.
  destruct (state_ r); try congruence; reflexivity.
Qed.

Lemma onReadValue_skip (r : Reader.t) (s : stream) :
  state_ r <> State.kReadValue -> onReadValue r s = Continue r s.
Proof.
  unfold onReadValue. intros H.
  destruct (state_ r); try congruence; reflexivity.
Qed.

(** What each block does to a record in its own state. *)
Lemma onStart_byte (r : Reader.t) (b : Z) (s : stream) :
  state_ r = State.kStart ->
  onStart r (b :: s)
  = Continue (Reader.mk State.kAdditionalInfo (u8 b) (Z.shiftr (u8 b) 5)
                        (Z.land (u8 b) 31) (waitAvailable_ r) 0
                        SyntaxError.kNoError) s.
Proof.
  destruct r as [st i0 mt ai wa v se]. cbn [state_]. intros ->.
  reader_unfold. cbv beta iota zeta delta [read].
  pose proof (u8_range b) as Hb.
  rewrite (u8_small (u8 b)) by assumption.
  now replace (u8 b <? 0) with false by (symmetry; apply Z.ltb_ge; lia).
Qed.

Lemma onAdditionalInfo_wait (r : Reader.t) (s : stream) :
  state_ r = State.kAdditionalInfo ->
  24 <= addlInfo_ r <= 27 ->
  onAdditionalInfo r s
  = Continue (with_state State.kWaitAvailable
                (with_waitAvailable (argBytes (addlInfo_ r)) r)) s.
Proof.
  destruct r as [st i0 mt ai wa v se]. cbn [state_ addlInfo_]. intros -> Ha.
  unfold argBytes. reader_unfold.
  repeat split_if; bool_to_Z; try reflexivity; lia.
Qed.

Lemma onAdditionalInfo_error (r : Reader.t) (s : stream) :
  state_ r = State.kAdditionalInfo ->
  28 <= addlInfo_ r <= 30 ->
  onAdditionalInfo r s
  = Return DataType.kSyntaxError
      (with_syntaxError SyntaxError.kUnknownAdditionalInfo
         (with_waitAvailable 0 r)) s.
Proof.
  destruct r as [st i0 mt ai wa v se]. cbn [state_ addlInfo_]. intros -> Ha.
  reader_unfold. now repeat decide_if.
Qed.

Lemma onAdditionalInfo_not_indefinite (r : Reader.t) (s : stream) :
  state_ r = State.kAdditionalInfo ->
  addlInfo_ r = 31 ->
  majorType_ r = 0 \/ majorType_ r = 1 \/ majorType_ r = 6 ->
  onAdditionalInfo r s
  = Return DataType.kSyntaxError
      (with_syntaxError SyntaxError.kNotAnIndefiniteType
         (with_waitAvailable 0 r)) s.
Proof.
  destruct r as [st i0 mt ai wa v se].
  cbn [state_ addlInfo_ majorType_]. intros -> Ha Hm.
  reader_unfold. now repeat decide_if.
Qed.

Lemma onAdditionalInfo_read (r : Reader.t) (s : stream) :
  state_ r = State.kAdditionalInfo ->
  addlInfo_ r < 24 \/ 31 < addlInfo_ r \/
  (addlInfo_ r = 31 /\
   majorType_ r <> 0 /\ majorType_ r <> 1 /\ majorType_ r <> 6) ->
  onAdditionalInfo r s
  = Continue (with_state State.kReadValue (with_waitAvailable 0 r)) s.
Proof.
  destruct r as [st i0 mt ai wa v se].
  cbn [state_ addlInfo_ majorType_]. intros -> Ha.
  reader_unfold.
  repeat split_if; bool_to_Z; try reflexivity; lia.
Qed.

Lemma onWaitAvailable_eos (r : Reader.t) (s : stream) :
  state_ r = State.kWaitAvailable ->
  available s < waitAvailable_ r ->
  onWaitAvailable r s = Return DataType.kEOS r s.
Proof.
  destruct r as [st i0 mt ai wa v se].
  cbn [state_ waitAvailable_]. intros -> Ha.
  reader_unfold. now decide_if.
Qed.

Lemma onWaitAvailable_ready (r : Reader.t) (s : stream) :
  state_ r = State.kWaitAvailable ->
  waitAvailable_ r <= available s ->
  onWaitAvailable r s = Continue (with_state State.kReadValue r) s.
Proof.
  destruct r as [st i0 mt ai wa v se].
  cbn [state_ waitAvailable_]. intros -> Ha.
  reader_unfold. now decide_if.
Qed.

Lemma onReadValue_value (r : Reader.t) (s : stream) :
  state_ r = State.kReadValue ->
  onReadValue r s
  = Continue (with_state State.kDetermineType
                (with_value (fst (readValue (addlInfo_ r) s)) r))
             (snd (readValue (addlInfo_ r) s)).
Proof.
  destruct r as [st i0 mt ai wa v se]. cbn [state_ addlInfo_]. intros ->.
  unfold onReadValue. cbv beta iota zeta delta [State.eqb state_ addlInfo_].
  destruct (readValue ai s) as [v' s']. reflexivity.
Qed.

(** Rewrites the blocks of a call whose record is in a known state. *)
Ltac run_blocks :=
  unfold readDataType; cbv beta iota delta [andThen];
  repeat first
    [ rewrite onStart_skip by (cbn; congruence)
    | rewrite onAdditionalInfo_skip by (cbn; congruence)
    | rewrite onWaitAvailable_skip by (cbn; congruence)
    | rewrite onReadValue_skip by (cbn; congruence)
    | progress cbv beta iota ].

Lemma step_start_empty (r : Reader.t) :
  state_ r = State.kStart ->
  readDataType r []
  = (DataType.kEOS, Reader.mk State.kStart (-1) 0 0 0 0 SyntaxError.kNoError, []).
Proof.
  destruct r as [st i0 mt ai wa v se]. cbn [state_]. now intros ->.
Qed.

(** The [kAdditionalInfo] block first clears [waitAvailable_], so the call
    does not depend on the value that field had. *)
Lemma onAdditionalInfo_waitAvailable (r : Reader.t) (wa : Z) (s : stream) :
  state_ r = State.kAdditionalInfo ->
  onAdditionalInfo (with_waitAvailable wa r) s = onAdditionalInfo r s.
Proof.
  destruct r as [st i0 mt ai wa0 v se]. cbn [state_]. intros ->. reflexivity.
Qed.

Lemma step_start (r : Reader.t) (b : Z) (s : stream) :
  state_ r = State.kStart ->
  readDataType r (b :: s)
  = readDataType (Reader.mk State.kAdditionalInfo (u8 b) (Z.shiftr (u8 b) 5)
                            (Z.land (u8 b) 31) 0 0 SyntaxError.kNoError) s.
Proof.
  intros H. unfold readDataType at 1. cbv beta iota delta [andThen].
  rewrite onStart_byte by assumption. run_blocks.
  now rewrite <- (onAdditionalInfo_waitAvailable _ (waitAvailable_ r))
    by reflexivity.
Qed.

Lemma step_addl_wait (r : Reader.t) (s : stream) :
  state_ r = State.kAdditionalInfo ->
  24 <= addlInfo_ r <= 27 ->
  readDataType r s
  = readDataType (with_state State.kWaitAvailable
                    (with_waitAvailable (argBytes (addlInfo_ r)) r)) s.
Proof.
  intros H Ha. run_blocks.
  now rewrite onAdditionalInfo_wait.
Qed.

Lemma step_addl_error (r : Reader.t) (s : stream) :
  state_ r = State.kAdditionalInfo ->
  28 <= addlInfo_ r <= 30 ->
  readDataType r s
  = (DataType.kSyntaxError,
     with_syntaxError SyntaxError.kUnknownAdditionalInfo
       (with_waitAvailable 0 r), s).
Proof.
  intros H Ha. run_blocks.
  now rewrite onAdditionalInfo_error.
Qed.

Lemma step_addl_not_indefinite (r : Reader.t) (s : stream) :
  state_ r = State.kAdditionalInfo ->
  addlInfo_ r = 31 ->
  majorType_ r = 0 \/ majorType_ r = 1 \/ majorType_ r = 6 ->
  readDataType r s
  = (DataType.kSyntaxError,
     with_syntaxError SyntaxError.kNotAnIndefiniteType
       (with_waitAvailable 0 r), s).
Proof.
  intros H Ha Hm. run_blocks.
  now rewrite onAdditionalInfo_not_indefinite.
Qed.

Lemma step_addl_read (r : Reader.t) (s : stream) :
  state_ r = State.kAdditionalInfo ->
  addlInfo_ r < 24 \/ 31 < addlInfo_ r \/
  (addlInfo_ r = 31 /\
   majorType_ r <> 0 /\ majorType_ r <> 1 /\ majorType_ r <> 6) ->
  readDataType r s
  = readDataType (with_state State.kReadValue (with_waitAvailable 0 r)) s.
Proof.
  intros H Ha. run_blocks.
  now rewrite onAdditionalInfo_read.
Qed.

Lemma step_wait_eos (r : Reader.t) (s : stream) :
  state_ r = State.kWaitAvailable ->
  available s < waitAvailable_ r ->
  readDataType r s = (DataType.kEOS, r, s).
Proof.
  intros H Ha. run_blocks.
  now rewrite onWaitAvailable_eos.
Qed.

Lemma step_wait_ready (r : Reader.t) (s : stream) :
  state_ r = State.kWaitAvailable ->
  waitAvailable_ r <= available s ->
  readDataType r s = readDataType (with_state State.kReadValue r) s.
Proof.
  intros H Ha. run_blocks.
  now rewrite onWaitAvailable_ready.
Qed.

Lemma step_read (r : Reader.t) (s : stream) :
  state_ r = State.kReadValue ->
  readDataType r s
  = readDataType
      (with_state State.kDetermineType
         (with_value (fst (readValue (addlInfo_ r) s)) r))
      (snd (readValue (addlInfo_ r) s)).
Proof.
  intros H. run_blocks.
  now rewrite onReadValue_value.
Qed.

Lemma step_determine (r : Reader.t) (s : stream) :
  state_ r = State.kDetermineType ->
  readDataType r s
  = let '(d, v, e) := determineType (majorType_ r) (addlInfo_ r) (value_ r) in
    (d, Reader.mk State.kStart (initialByte_ r) (majorType_ r) (addlInfo_ r)
          (waitAvailable_ r) v
          (match e with
           | SyntaxError.kNoError => syntaxError_ r
           | _ => e
           end), s).
Proof.
  destruct r as [st i0 mt ai wa v se].
  cbn [state_ syntaxError_ majorType_ addlInfo_ value_ initialByte_
       waitAvailable_]. intros ->.
  unfold determineType. reader_unfold.
  repeat split_if; reflexivity.
Qed.

(** ** Reading a complete head

    When the argument bytes announced by the initial byte are all
    available, one call of [readDataType] on a reader in [kStart] decodes
    the whole head. *)

Lemma land_31_range (x : Z) : 0 <= Z.land x 31 <= 31.
Proof.
  change 31 with (Z.ones 5) at 1 2. rewrite Z.land_ones by lia.
  pose proof (Z.mod_pos_bound x (2 ^ 5) eq_refl). lia.
Qed.

Lemma readDataType_head (r : Reader.t) (ib : Z) (s : stream) :
  state_ r = State.kStart ->
  0 <= ib < 256 ->
  badInitialByte ib = false ->
  argBytes (Z.land ib 31) <= available s ->
  readDataType r (ib :: s)
  = let ai := Z.land ib 31 in
    let mt := Z.shiftr ib 5 in
    let '(d, v, e) := determineType mt ai (fst (readValue ai s)) in
    (d, Reader.mk State.kStart ib mt ai (argBytes ai) v e,
     snd (readValue ai s)).
Proof.
  intros Hs Hib Hbad Hav.
  rewrite step_start by assumption. rewrite u8_small by assumption.
  pose proof (land_31_range ib) as Hai.
  unfold badInitialByte in Hbad. cbv zeta in *.
  set (ai := Z.land ib 31) in *. set (mt := Z.shiftr ib 5) in *.
  assert (Hd : forall wa,
    readDataType (Reader.mk State.kReadValue ib mt ai wa 0 SyntaxError.kNoError) s
    = let '(d, v, e) := determineType mt ai (fst (readValue ai s)) in
      (d, Reader.mk State.kStart ib mt ai wa v e, snd (readValue ai s))).
  { intros wa. rewrite step_read by reflexivity.
    rewrite step_determine by reflexivity.
    cbn [with_state with_value state_ initialByte_ majorType_ addlInfo_
         waitAvailable_ value_ syntaxError_].
    destruct (determineType mt ai (fst (readValue ai s))) as [[d v] e].
    now destruct e. }
  destruct (Z_le_gt_dec 24 ai) as [H24|H24];
    [destruct (Z_le_gt_dec ai 27) as [H27|H27]|].
  - rewrite step_addl_wait by (cbn; auto).
    cbn [with_state with_waitAvailable state_ initialByte_ majorType_
         addlInfo_ waitAvailable_ value_ syntaxError_].
    rewrite step_wait_ready by (cbn; auto).
    apply Hd.
  - rewrite step_addl_read.
    + replace (argBytes ai) with 0
        by (unfold argBytes; repeat decide_if; reflexivity).
      apply Hd.
    + reflexivity.
    + cbn [addlInfo_ majorType_]. bool_to_Z. lia.
  - rewrite step_addl_read.
    + replace (argBytes ai) with 0
        by (unfold argBytes; repeat decide_if; reflexivity).
      apply Hd.
    + reflexivity.
    + cbn [addlInfo_ majorType_]. lia.
Qed.

(** ** Syntax errors *)

(** C2 (the code departs from the claim).  On an initial byte with a
    reserved additional information, or with additional information 31 on an
    integer or tag, [readDataType] returns [kSyntaxError] but leaves the
    state machine in [kAdditionalInfo], not in [kStart]: every later call
    reports the same error again and never reads another byte. *)
Theorem readDataType_syntax_error_sticks (r : Reader.t) (ib : Z) (s : stream) :
  state_ r = State.kStart ->
  0 <= ib < 256 ->
  badInitialByte ib = true ->
  exists r',
    readDataType r (ib :: s) = (DataType.kSyntaxError, r', s) /\
    state_ r' = State.kAdditionalInfo /\
    (getSyntaxError r' = SyntaxError.kUnknownAdditionalInfo \/
     getSyntaxError r' = SyntaxError.kNotAnIndefiniteType) /\
    forall s2, readDataType r' s2 = (DataType.kSyntaxError, r', s2).
Proof.
  intros Hs Hib Hbad.
  rewrite step_start by assumption. rewrite u8_small by assumption.
  unfold badInitialByte in Hbad. cbv zeta in Hbad. bool_to_Z.
  destruct Hbad as [[H1 H2]|[H1 H2]].
  - eexists.
    rewrite step_addl_error by (cbn; auto).
    split; [reflexivity|]. split; [reflexivity|]. split; [now left|].
    intros s2. now rewrite step_addl_error by (cbn; auto).
  - eexists.
    rewrite step_addl_not_indefinite
      by (cbn; first [reflexivity | assumption | tauto]).
    split; [reflexivity|]. split; [reflexivity|]. split; [now right|].
    intros s2.
    now rewrite step_addl_not_indefinite
      by (cbn; first [reflexivity | assumption | tauto]).
Qed.

(** The failing input: the byte [0x1C] (major type 0, additional
    information 28) followed by the item [0x01]. *)
Lemma readDataType_syntax_error_sticks_witness :
  exists r',
    readDataType Reader.init [0x1C; 0x01] = (DataType.kSyntaxError, r', [0x01]) /\
    state_ r' = State.kAdditionalInfo /\
    (getSyntaxError r' = SyntaxError.kUnknownAdditionalInfo \/
     getSyntaxError r' = SyntaxError.kNotAnIndefiniteType) /\
    forall s2, readDataType r' s2 = (DataType.kSyntaxError, r', s2).
Proof.
  apply (readDataType_syntax_error_sticks Reader.init 0x1C [0x01]).
  - reflexivity.
  - lia.
  - reflexivity.
Defined.

(** The sibling path: a simple value below 32 in the one-byte form is
    reported from the last block, which has already set the state back to
    [kStart], so the next call starts a fresh item. *)
Lemma readDataType_bad_simple_value (r : Reader.t) (v : Z) (s : stream) :
  state_ r = State.kStart ->
  0 <= v < 32 ->
  readDataType r (0xF8 :: v :: s)
  = (DataType.kSyntaxError,
     Reader.mk State.kStart 0xF8 7 24 1 v SyntaxError.kBadSimpleValue, s).
Proof.
  intros Hs Hv.
  rewrite readDataType_head; try assumption; try reflexivity; try lia.
  - change (Z.land 248 31) with 24. change (Z.shiftr 248 5) with 7.
    cbv beta iota zeta delta [readValue read fst snd Z.eqb Pos.eqb].
    unfold u64. rewrite u8_small by lia.
    rewrite Z.mod_small by lia.
    unfold determineType. cbn [Z.eqb Pos.eqb orb].
    now replace (v <? 32) with true by (symmetry; bool_to_Z; lia).
  - rewrite available_cons. pose proof (available_nonneg s).
    change (argBytes (Z.land 248 31)) with 1. lia.
Qed.

(** C9.  For a simple value [v] in [24, 31] the Writer emits [F8 v], which
    its own checker rejects ([-1]) and on which the Reader reports a syntax
    error of kind [kBadSimpleValue]. *)
Theorem writeSimpleValue_reserved_malformed
        (v : Z) (r : Reader.t) (fuel : nat) (breakable : bool) :
  24 <= v <= 31 ->
  state_ r = State.kStart ->
  Writer.writeSimpleValue v = [0xF8; v] /\
  isWellFormed (S fuel) breakable (Writer.writeSimpleValue v) = Some (-1, []) /\
  exists r',
    readDataType r (Writer.writeSimpleValue v) = (DataType.kSyntaxError, r', []) /\
    getSyntaxError r' = SyntaxError.kBadSimpleValue /\
    state_ r' = State.kStart.
Proof.
  intros Hv Hs.
  assert (Hw : Writer.writeSimpleValue v = [0xF8; v]).
  { unfold Writer.writeSimpleValue, write.
    replace (v <? 24) with false by (symmetry; bool_to_Z; lia).
    now rewrite (u8_small v) by lia. }
  rewrite Hw. split; [reflexivity|]. split.
  - cbn [isWellFormed]. cbv beta iota zeta delta [read].
    change (u8 248) with 248. cbv beta iota zeta delta [Z.ltb Z.compare].
    change (Z.shiftr 248 5) with 7. change (u8 (Z.land 248 31)) with 24.
    unfold readHead. cbv beta iota zeta delta [Z.eqb Pos.eqb read].
    rewrite (u8_small v), (u8_small v) by (rewrite ?u8_small; lia).
    replace (v <? 0) with false by (symmetry; bool_to_Z; lia).
    unfold kSimpleOrFloat. cbv beta iota zeta delta [Z.eqb Pos.eqb andb].
    now replace (v <? 32) with true by (symmetry; bool_to_Z; lia).
  - rewrite readDataType_bad_simple_value by (assumption || lia).
    eexists. split; [reflexivity|]. split; reflexivity.
Qed.

(** The claim at [v = 24] with a fresh reader. *)
Lemma writeSimpleValue_reserved_malformed_witness :
  Writer.writeSimpleValue 24 = [0xF8; 24] /\
  isWellFormed 1 false (Writer.writeSimpleValue 24) = Some (-1, []) /\
  exists r',
    readDataType Reader.init (Writer.writeSimpleValue 24)
    = (DataType.kSyntaxError, r', []) /\
    getSyntaxError r' = SyntaxError.kBadSimpleValue /\
    state_ r' = State.kStart.
Proof.
  apply (writeSimpleValue_reserved_malformed 24 Reader.init 0 false).
  - lia.
  - reflexivity.
Defined.

(** ** Short reads *)

Lemma argBytes_pos (ai : Z) : 0 < argBytes ai -> 24 <= ai <= 27.
Proof. unfold argBytes. repeat split_if; bool_to_Z; lia. Qed.

Lemma shortRead_waitAvailable (r : Reader.t) (s q : stream) :
  state_ r = State.kWaitAvailable ->
  available s < waitAvailable_ r ->
  shortRead r s q r s.
Proof.
  intros Hs Ha. unfold shortRead.
  rewrite step_wait_eos by assumption. auto.
Qed.

Lemma shortRead_additionalInfo (r : Reader.t) (s q : stream) :
  state_ r = State.kAdditionalInfo ->
  available s < argBytes (addlInfo_ r) ->
  shortRead r s q
    (with_state State.kWaitAvailable
       (with_waitAvailable (argBytes (addlInfo_ r)) r)) s.
Proof.
  intros Hs Ha.
  assert (Hai : 24 <= addlInfo_ r <= 27).
  { apply argBytes_pos. pose proof (available_nonneg s). lia. }
  set (r1 := with_state State.kWaitAvailable
               (with_waitAvailable (argBytes (addlInfo_ r)) r)).
  assert (H1 : shortRead r1 s q r1 s).
  { apply shortRead_waitAvailable; [reflexivity|].
    destruct r; exact Ha. }
  destruct H1 as (E1 & E2 & E3). unfold shortRead.
  rewrite !(step_addl_wait r) by assumption. fold r1. auto.
Qed.

Lemma app_nil_stream (q : stream) : ([] : stream) ++ q = q.
Proof. reflexivity. Qed.

(** C6.  When the stream cannot supply the bytes that the current head
    needs, [readDataType] returns [kEOS]; the record it leaves holds the
    major type, additional information and pending byte count decoded so
    far, calling again without new bytes returns [kEOS] and changes neither
    the record nor the stream, and once further bytes [q] have arrived the
    next call gives exactly what one call would have given with all the
    bytes there from the start. *)
Theorem readDataType_short_read (r : Reader.t) (s q : stream) :
  starved r s = true ->
  exists r1 s1,
    readDataType r s = (DataType.kEOS, r1, s1) /\
    readDataType r1 s1 = (DataType.kEOS, r1, s1) /\
    readDataType r1 (s1 ++ q) = readDataType r (s ++ q) /\
    (state_ r = State.kWaitAvailable -> r1 = r /\ s1 = s) /\
    (state_ r = State.kAdditionalInfo ->
     majorType_ r1 = majorType_ r /\ addlInfo_ r1 = addlInfo_ r /\
     waitAvailable_ r1 = argBytes (addlInfo_ r) /\ s1 = s) /\
    (forall ib t, state_ r = State.kStart -> s = ib :: t ->
     majorType_ r1 = Z.shiftr (u8 ib) 5 /\ addlInfo_ r1 = Z.land (u8 ib) 31 /\
     waitAvailable_ r1 = argBytes (Z.land (u8 ib) 31) /\ s1 = t).
Proof.
  unfold starved. intros H.
  destruct (state_ r) eqn:Hs; try discriminate.
  - destruct s as [|ib t].
    + exists (Reader.mk State.kStart (-1) 0 0 0 0 SyntaxError.kNoError), [].
      rewrite !step_start_empty by (assumption || reflexivity).
      split; [reflexivity|]. split; [reflexivity|]. split.
      * rewrite !app_nil_stream. destruct q as [|b q'].
        -- now rewrite !step_start_empty.
        -- now rewrite !step_start.
      * split; [discriminate|]. split; [discriminate|].
        intros ib t _ Hnil. discriminate Hnil.
    + apply Z.ltb_lt in H.
      set (rA := Reader.mk State.kAdditionalInfo (u8 ib) (Z.shiftr (u8 ib) 5)
                           (Z.land (u8 ib) 31) 0 0 SyntaxError.kNoError).
      destruct (shortRead_additionalInfo rA t q eq_refl H) as (E1 & E2 & E3).
      eexists. exists t.
      rewrite <- app_comm_cons, !(step_start r) by assumption. fold rA.
      split; [exact E1|]. split; [exact E2|]. split; [exact E3|].
      split; [discriminate|]. split; [discriminate|].
      intros ib' t' _ [= <- <-]. repeat split.
  - apply Z.ltb_lt in H.
    destruct (shortRead_additionalInfo r s q Hs H) as (E1 & E2 & E3).
    eexists. exists s.
    split; [exact E1|]. split; [exact E2|]. split; [exact E3|].
    split; [discriminate|]. split; [|discriminate].
    intros _. destruct r; repeat split.
  - apply Z.ltb_lt in H.
    destruct (shortRead_waitAvailable r s q Hs H) as (E1 & E2 & E3).
    exists r, s.
    split; [exact E1|]. split; [exact E2|]. split; [exact E3|].
    split; [auto|]. split; discriminate.
Qed.

(** The claim on the head [19 03 E8] (unsigned 1000) delivered as [19 03]
    and then [E8]. *)
Lemma readDataType_short_read_witness :
  exists r1 s1,
    readDataType Reader.init [0x19; 0x03] = (DataType.kEOS, r1, s1) /\
    readDataType r1 s1 = (DataType.kEOS, r1, s1) /\
    readDataType r1 (s1 ++ [0xE8]) = readDataType Reader.init ([0x19; 0x03] ++ [0xE8]) /\
    (state_ Reader.init = State.kWaitAvailable -> r1 = Reader.init /\ s1 = [0x19; 0x03]) /\
    (state_ Reader.init = State.kAdditionalInfo ->
     majorType_ r1 = majorType_ Reader.init /\
     addlInfo_ r1 = addlInfo_ Reader.init /\
     waitAvailable_ r1 = argBytes (addlInfo_ Reader.init) /\ s1 = [0x19; 0x03]) /\
    (forall ib t, state_ Reader.init = State.kStart -> [0x19; 0x03] = ib :: t ->
     majorType_ r1 = Z.shiftr (u8 ib) 5 /\ addlInfo_ r1 = Z.land (u8 ib) 31 /\
     waitAvailable_ r1 = argBytes (Z.land (u8 ib) 31) /\ s1 = t).
Proof.
  apply (readDataType_short_read Reader.init [0x19; 0x03] [0xE8]).
  reflexivity.
Defined.

(** ** Big-endian arguments *)

Lemma lor_shifted (hi lo n : Z) :
  0 <= n -> 0 <= lo < 2 ^ n -> Z.lor (hi * 2 ^ n) lo = hi * 2 ^ n + lo.
Proof.
  intros Hn Hlo.
  assert (E : Z.land (hi * 2 ^ n) lo = 0).
  { apply Z.bits_inj'. intros k Hk.
    rewrite Z.land_spec, Z.bits_0.
    destruct (Z_lt_le_dec k n) as [Hlt|Hge].
    - now rewrite Z.mul_pow2_bits_low.
    - rewrite <- (Z.mod_small lo (2 ^ n)) by assumption.
      rewrite Z.mod_pow2_bits_high by lia. apply andb_false_r. }
  pose proof (Z.add_lor_land (hi * 2 ^ n) lo). lia.
Qed.

Lemma lxor_all_ones (a : Z) :
  0 <= a < 2 ^ 64 -> Z.lxor (2 ^ 64 - 1) a = 2 ^ 64 - 1 - a.
Proof.
  intros Ha.
  assert (E : Z.land (2 ^ 64 - 1) a = a).
  { rewrite Z.land_comm. change (2 ^ 64 - 1) with (Z.ones 64).
    rewrite Z.land_ones by lia. now apply Z.mod_small. }
  pose proof (Z.add_lxor_2land (2 ^ 64 - 1) a). lia.
Qed.

Lemma writeTypedInt_bytes (mt u : Z) :
  Writer.writeTypedInt mt u
  = u8 (mt + widthCode (chosenWidth u) u) :: be_bytes (chosenWidth u) u.
Proof.
  unfold Writer.writeTypedInt, chosenWidth, write.
  change (Z.shiftl 1 8) with (2 ^ 8). change (Z.shiftl 1 16) with (2 ^ 16).
  change (Z.shiftl 1 32) with (2 ^ 32).
  repeat split_if; cbn [app widthCode]; f_equal;
    unfold u8; rewrite ?Z.shiftr_div_pow2 by lia;
    cbn [be_bytes]; rewrite ?Z.div_1_r; reflexivity.
Qed.

Lemma chosenWidth_shortest (u : Z) :
  0 <= u < 2 ^ 64 ->
  In (chosenWidth u) widths /\
  fits (chosenWidth u) u = true /\
  forall w, In w widths -> fits w u = true -> (chosenWidth u <= w)%nat.
Proof.
  intros Hu. unfold chosenWidth, widths.
  repeat split_if; bool_to_Z.
  all: split; [cbn; tauto|].
  all: split; [cbn; bool_to_Z; lia|].
  all: intros w Hw Hf; cbn in Hw;
    repeat (destruct Hw as [<-|Hw]; [cbn in Hf; bool_to_Z; lia|]);
    contradiction.
Qed.

Lemma be_bytes_length (w : nat) (u : Z) : length (be_bytes w u) = w.
Proof. induction w as [|w IH]; cbn [be_bytes length]; congruence. Qed.

Lemma widthCode_range (u : Z) :
  0 <= u -> 0 <= widthCode (chosenWidth u) u <= 27.
Proof.
  intros Hu. unfold chosenWidth.
  repeat split_if; bool_to_Z; cbn [widthCode]; lia.
Qed.

(** The initial byte [(major << 5) + code] decomposes into its fields. *)
Lemma initial_byte_fields (major code : Z) :
  0 <= major <= 7 -> 0 <= code <= 31 ->
  let ib := u8 (Z.shiftl major 5 + code) in
  ib = 32 * major + code /\ Z.shiftr ib 5 = major /\ Z.land ib 31 = code.
Proof.
  intros Hm Hc. cbv zeta.
  rewrite Z.shiftl_mul_pow2 by lia. change (2 ^ 5) with 32.
  rewrite u8_small by lia.
  split; [lia|]. split.
  - rewrite Z.shiftr_div_pow2 by lia. change (2 ^ 5) with 32.
    symmetry. apply (Z.div_unique_pos _ 32 major code); lia.
  - change 31 with (Z.ones 5). rewrite Z.land_ones by lia.
    change (2 ^ 5) with 32.
    symmetry. apply (Z.mod_unique_pos _ 32 major code); lia.
Qed.

(** C4.  For every [mt] and every unsigned 64-bit [u], [writeTypedInt]
    emits the initial byte followed by the argument in exactly one of the
    five widths (embedded, 1, 2, 4 or 8 bytes, big-endian), and the width it
    picks is the smallest of the five that can represent [u].  When [mt] is
    a major type shifted into the top three bits, the initial byte carries
    that major type and the code of the width. *)
Theorem writeTypedInt_shortest_width (mt u : Z) :
  0 <= u < 2 ^ 64 ->
  exists w,
    In w widths /\
    Writer.writeTypedInt mt u = u8 (mt + widthCode w u) :: be_bytes w u /\
    length (Writer.writeTypedInt mt u) = S w /\
    fits w u = true /\
    (forall w', In w' widths -> fits w' u = true -> (w <= w')%nat) /\
    (forall major, 0 <= major <= 7 -> mt = Z.shiftl major 5 ->
       Z.shiftr (u8 (mt + widthCode w u)) 5 = major /\
       Z.land (u8 (mt + widthCode w u)) 31 = widthCode w u).
Proof.
  intros Hu. exists (chosenWidth u).
  destruct (chosenWidth_shortest u Hu) as (Hin & Hfit & Hmin).
  split; [exact Hin|]. split; [apply writeTypedInt_bytes|].
  split; [rewrite writeTypedInt_bytes; cbn [length];
          now rewrite be_bytes_length|].
  split; [exact Hfit|]. split; [exact Hmin|].
  intros major Hmaj ->.
  pose proof (widthCode_range u (proj1 Hu)) as Hc.
  apply (initial_byte_fields major (widthCode (chosenWidth u) u)); lia.
Qed.

(** The claim at [u = 1000000] with major type 0: the head [1A 00 0F 42 40],
    four argument bytes. *)
Lemma writeTypedInt_shortest_width_witness :
  exists w,
    In w widths /\
    Writer.writeTypedInt 0 1000000 = u8 (0 + widthCode w 1000000) :: be_bytes w 1000000 /\
    length (Writer.writeTypedInt 0 1000000) = S w /\
    fits w 1000000 = true /\
    (forall w', In w' widths -> fits w' 1000000 = true -> (w <= w')%nat) /\
    (forall major, 0 <= major <= 7 -> 0 = Z.shiftl major 5 ->
       Z.shiftr (u8 (0 + widthCode w 1000000)) 5 = major /\
       Z.land (u8 (0 + widthCode w 1000000)) 31 = widthCode w 1000000).
Proof.
  apply (writeTypedInt_shortest_width 0 1000000). lia.
Defined.

Lemma be_bytes_isByte (w : nat) (u : Z) : Forall isByte (be_bytes w u).
Proof.
  induction w as [|w IH]; cbn [be_bytes]; constructor; [|exact IH].
  apply Z.mod_pos_bound. reflexivity.
Qed.

Lemma be_value_be_bytes (w : nat) (u acc : Z) :
  be_value (be_bytes w u) acc = acc * 2 ^ (8 * Z.of_nat w) + u mod 2 ^ (8 * Z.of_nat w).
Proof.
  revert acc. induction w as [|w IH]; intros acc.
  - cbn [be_bytes be_value]. change (2 ^ (8 * Z.of_nat 0)) with 1.
    rewrite Z.mod_1_r. lia.
  - cbn [be_bytes be_value]. rewrite IH.
    replace (8 * Z.of_nat (S w)) with (8 * Z.of_nat w + 8) by lia.
    rewrite Z.pow_add_r by lia. change (2 ^ 8) with 256.
    assert (Hp : 0 < 2 ^ (8 * Z.of_nat w)) by (apply Z.pow_pos_nonneg; lia).
    rewrite (Z.rem_mul_r u (2 ^ (8 * Z.of_nat w)) 256) by lia.
    ring.
Qed.

Lemma be_value_small (w : nat) (u : Z) :
  0 <= u < 2 ^ (8 * Z.of_nat w) -> be_value (be_bytes w u) 0 = u.
Proof.
  intros Hu. rewrite be_value_be_bytes. rewrite Z.mod_small by assumption. lia.
Qed.

Lemma shl_byte_u64 (b k : Z) :
  isByte b -> 0 <= k <= 56 -> u64 (Z.shiftl (u64 b) k) = b * 2 ^ k.
Proof.
  unfold isByte, u64. intros Hb Hk.
  rewrite (Z.mod_small b) by lia. rewrite Z.shiftl_mul_pow2 by lia.
  assert (H1 : 2 ^ k <= 2 ^ 56) by (apply Z.pow_le_mono_r; lia).
  assert (H2 : 0 < 2 ^ k) by (apply Z.pow_pos_nonneg; lia).
  apply Z.mod_small. nia.
Qed.

Lemma shl_byte_u32 (b k : Z) :
  isByte b -> 0 <= k <= 24 -> u32 (Z.shiftl (u32 b) k) = b * 2 ^ k.
Proof.
  unfold isByte, u32. intros Hb Hk.
  rewrite (Z.mod_small b) by lia. rewrite Z.shiftl_mul_pow2 by lia.
  assert (H1 : 2 ^ k <= 2 ^ 24) by (apply Z.pow_le_mono_r; lia).
  assert (H2 : 0 < 2 ^ k) by (apply Z.pow_pos_nonneg; lia).
  apply Z.mod_small. nia.
Qed.

Ltac bytes_of_Forall :=
  repeat match goal with
         | H : Forall isByte (_ :: _) |- _ =>
             let Hb := fresh "Hb" in
             let Hl := fresh "Hl" in
             apply Forall_cons_iff in H; destruct H as [Hb Hl]
         end.

Lemma readValue_8 (b : Z) (rest : stream) :
  isByte b -> readValue 24 (b :: rest) = (be_value [b] 0, rest).
Proof.
  intros Hb. unfold isByte in Hb.
  cbv beta iota zeta delta [readValue Z.eqb Pos.eqb read be_value].
  unfold u64. rewrite u8_small by lia. now rewrite Z.mod_small by lia.
Qed.

Lemma readValue_16 (b1 b0 : Z) (rest : stream) :
  isByte b1 -> isByte b0 ->
  readValue 25 (b1 :: b0 :: rest) = (be_value [b1; b0] 0, rest).
Proof.
  intros H1 H0. unfold isByte in *.
  cbv beta iota zeta delta [readValue Z.eqb Pos.eqb readValue16 read be_value].
  rewrite !u8_small by lia. unfold u16. rewrite !Z.mod_small by lia.
  rewrite Z.shiftl_mul_pow2 by lia.
  rewrite lor_shifted by lia. f_equal; lia.
Qed.

Lemma readValue_32 (b3 b2 b1 b0 : Z) (rest : stream) :
  isByte b3 -> isByte b2 -> isByte b1 -> isByte b0 ->
  readValue 26 (b3 :: b2 :: b1 :: b0 :: rest)
  = (be_value [b3; b2; b1; b0] 0, rest).
Proof.
  intros H3 H2 H1 H0.
  cbv beta iota zeta delta [readValue Z.eqb Pos.eqb readValue32 read be_value].
  rewrite !u8_small by assumption.
  rewrite !shl_byte_u32 by (assumption || lia).
  unfold isByte in *. unfold u32. rewrite (Z.mod_small b0) by lia.
  rewrite <- !Z.lor_assoc.
  rewrite (lor_shifted b1 b0 8) by lia.
  rewrite (lor_shifted b2 _ 16) by lia.
  rewrite (lor_shifted b3 _ 24) by lia.
  f_equal; lia.
Qed.

Lemma readValue_64 (b7 b6 b5 b4 b3 b2 b1 b0 : Z) (rest : stream) :
  isByte b7 -> isByte b6 -> isByte b5 -> isByte b4 ->
  isByte b3 -> isByte b2 -> isByte b1 -> isByte b0 ->
  readValue 27 (b7 :: b6 :: b5 :: b4 :: b3 :: b2 :: b1 :: b0 :: rest)
  = (be_value [b7; b6; b5; b4; b3; b2; b1; b0] 0, rest).
Proof.
  intros H7 H6 H5 H4 H3 H2 H1 H0.
  cbv beta iota zeta delta [readValue Z.eqb Pos.eqb readValue64 read be_value].
  rewrite !u8_small by assumption.
  rewrite !shl_byte_u64 by (assumption || lia).
  unfold isByte in *. unfold u64. rewrite (Z.mod_small b0) by lia.
  rewrite <- !Z.lor_assoc.
  rewrite (lor_shifted b1 b0 8) by lia.
  rewrite (lor_shifted b2 _ 16) by lia.
  rewrite (lor_shifted b3 _ 24) by lia.
  rewrite (lor_shifted b4 _ 32) by lia.
  rewrite (lor_shifted b5 _ 40) by lia.
  rewrite (lor_shifted b6 _ 48) by lia.
  rewrite (lor_shifted b7 _ 56) by lia.
  f_equal; lia.
Qed.

Lemma readValue_be_bytes (u : Z) (rest : stream) :
  0 <= u < 2 ^ 64 ->
  readValue (widthCode (chosenWidth u) u) (be_bytes (chosenWidth u) u ++ rest)
  = (u, rest).
Proof.
  intros Hu.
  pose proof (be_bytes_isByte (chosenWidth u) u) as Hb.
  pose proof (be_value_small (chosenWidth u) u) as Hv.
  revert Hb Hv. unfold chosenWidth.
  repeat split_if; bool_to_Z; cbn [widthCode be_bytes app]; intros Hb Hv;
    bytes_of_Forall.
  - unfold readValue. now repeat decide_if.
  - rewrite readValue_8 by assumption. rewrite Hv by (cbn; lia). reflexivity.
  - rewrite readValue_16 by assumption. rewrite Hv by (cbn; lia). reflexivity.
  - rewrite readValue_32 by assumption. rewrite Hv by (cbn; lia). reflexivity.
  - rewrite readValue_64 by assumption. rewrite Hv by (cbn; lia). reflexivity.
Qed.

Lemma argBytes_widthCode (u : Z) :
  0 <= u ->
  argBytes (widthCode (chosenWidth u) u) = Z.of_nat (chosenWidth u).
Proof.
  intros Hu. unfold chosenWidth.
  repeat split_if; bool_to_Z; cbn [widthCode]; try reflexivity.
  unfold argBytes. now repeat decide_if.
Qed.

(** ** Round trip of the argument encoder *)

(** Reading back the head written by [writeTypedInt] for a major type. *)
Lemma readDataType_writeTypedInt (r : Reader.t) (major u : Z) (rest : stream) :
  state_ r = State.kStart ->
  0 <= major <= 7 ->
  0 <= u < 2 ^ 64 ->
  readDataType r (Writer.writeTypedInt (Z.shiftl major 5) u ++ rest)
  = let code := widthCode (chosenWidth u) u in
    let '(d, v, e) := determineType major code u in
    (d, Reader.mk State.kStart (32 * major + code) major code
                  (argBytes code) v e, rest).
Proof.
  intros Hs Hm Hu.
  rewrite writeTypedInt_bytes. rewrite <- app_comm_cons.
  pose proof (widthCode_range u (proj1 Hu)) as Hc.
  destruct (initial_byte_fields major (widthCode (chosenWidth u) u))
    as (Hib & Hmt & Hai); [lia|lia|].
  cbv zeta in Hib, Hmt, Hai.
  rewrite readDataType_head.
  - cbv zeta. rewrite Hmt, Hai, readValue_be_bytes by assumption.
    cbn [fst snd]. now rewrite Hib.
  - assumption.
  - apply u8_range.
  - unfold badInitialByte. cbv zeta. rewrite Hmt, Hai.
    bool_to_Z. lia.
  - rewrite Hai, argBytes_widthCode by lia.
    unfold available. rewrite length_app, be_bytes_length. lia.
Qed.

(** The sign mask of [writeInt] selects the major type and the argument. *)
Lemma writeInt_cases (i : Z) :
  - 2 ^ 63 <= i < 2 ^ 63 ->
  Writer.writeInt i
  = Writer.writeTypedInt (Z.shiftl (if i <? 0 then kNegativeInt else kUnsignedInt) 5)
                         (if i <? 0 then - 1 - i else i).
Proof.
  intros Hi. unfold Writer.writeInt. cbv zeta.
  rewrite Z.shiftr_div_pow2 by lia.
  destruct (Z.ltb_spec i 0) as [Hneg|Hpos].
  - replace (i / 2 ^ 63) with (-1)
      by (apply (Z.div_unique i (2 ^ 63) (-1) (i + 2 ^ 63)); lia).
    change (u64 (-1)) with (2 ^ 64 - 1).
    replace (u64 i) with (i + 2 ^ 64)
      by (unfold u64; apply (Z.mod_unique i (2 ^ 64) (-1) (i + 2 ^ 64)); lia).
    rewrite lxor_all_ones by lia.
    f_equal. lia.
  - replace (i / 2 ^ 63) with 0 by (symmetry; apply Z.div_small; lia).
    change (u64 0) with 0. rewrite Z.lxor_0_l.
    unfold u64. rewrite Z.mod_small by lia. reflexivity.
Qed.

Lemma s64_small (x : Z) : - 2 ^ 63 <= x < 2 ^ 63 -> s64 x = x.
Proof. intros H. unfold s64. rewrite Z.mod_small; lia. Qed.

(** C1.  For every signed 64-bit [i], the branch-free [writeInt] writes the
    head of major type 0 with argument [i] when [i >= 0] and of major type 1
    with argument [-1 - i] when [i < 0]; the Reader run on these bytes
    reports [kUnsignedInt] with argument [i], respectively [kNegativeInt]
    with argument [-1 - i], for which [getInt] returns [i]. *)
Theorem writeInt_round_trip (i : Z) (r : Reader.t) (rest : stream) :
  - 2 ^ 63 <= i < 2 ^ 63 ->
  state_ r = State.kStart ->
  Writer.writeInt i
  = Writer.writeTypedInt (if i <? 0 then 0x20 else 0x00)
                         (if i <? 0 then - 1 - i else i) /\
  exists r',
    readDataType r (Writer.writeInt i ++ rest)
    = (if i <? 0 then DataType.kNegativeInt else DataType.kUnsignedInt,
       r', rest) /\
    state_ r' = State.kStart /\
    getSyntaxError r' = SyntaxError.kNoError /\
    getRawValue r' = (if i <? 0 then - 1 - i else i) /\
    (i < 0 -> getInt r' = i) /\
    (0 <= i -> getUnsignedInt r' = i).
Proof.
  intros Hi Hs. rewrite writeInt_cases by assumption.
  split; [now destruct (i <? 0)|].
  destruct (Z.ltb_spec i 0) as [Hneg|Hpos].
  - rewrite readDataType_writeTypedInt by (assumption || (unfold kNegativeInt; lia)).
    cbv zeta. unfold determineType, kNegativeInt. cbn [Z.eqb Pos.eqb].
    eexists. split; [reflexivity|].
    unfold getSyntaxError, getRawValue, getInt, getUnsignedInt, kNegativeInt.
    cbn [state_ syntaxError_ value_ majorType_ Z.eqb Pos.eqb].
    repeat split; try lia.
    intros _. rewrite (s64_small (-1 - i)) by lia. rewrite s64_small; lia.
  - rewrite readDataType_writeTypedInt by (assumption || (unfold kUnsignedInt; lia)).
    cbv zeta. unfold determineType, kUnsignedInt. cbn [Z.eqb Pos.eqb].
    eexists. split; [reflexivity|].
    unfold getSyntaxError, getRawValue, getInt, getUnsignedInt, kUnsignedInt.
    cbn [state_ syntaxError_ value_ majorType_ Z.eqb Pos.eqb].
    repeat split; lia.
Qed.

(** The claim at [i = -1000] with a fresh reader: the head [39 03 E7]. *)
Lemma writeInt_round_trip_witness :
  Writer.writeInt (-1000)
  = Writer.writeTypedInt (if -1000 <? 0 then 0x20 else 0x00)
                         (if -1000 <? 0 then - 1 - -1000 else -1000) /\
  exists r',
    readDataType Reader.init (Writer.writeInt (-1000) ++ [])
    = (if -1000 <? 0 then DataType.kNegativeInt else DataType.kUnsignedInt,
       r', []) /\
    state_ r' = State.kStart /\
    getSyntaxError r' = SyntaxError.kNoError /\
    getRawValue r' = (if -1000 <? 0 then - 1 - -1000 else -1000) /\
    (-1000 < 0 -> getInt r' = -1000) /\
    (0 <= -1000 -> getUnsignedInt r' = -1000).
Proof.
  apply (writeInt_round_trip (-1000) Reader.init []).
  - lia.
  - reflexivity.
Defined.

(** ** The well-formedness checker: it always returns *)

Section CheckerLoops.

(** [item] stands for the recursive calls. *)
Variable item : bool -> stream -> checked.
Variable bound : nat.

Hypothesis Hitem : productive item bound.

Lemma forItems_total (k : nat) :
  forall (val : Z) (s : stream),
    (length s < k)%nat -> (length s < bound)%nat ->
    exists ok s', forItems item k val s = Some (ok, s') /\
                  (length s' <= length s)%nat.
Proof.
  induction k as [|k IH]; intros val s Hk Hb; [lia|].
  cbn [forItems]. destruct (0 <? val); [|eauto].
  destruct (Hitem false s Hb) as (t & s1 & -> & Hle & Hlt).
  destruct (Z.ltb_spec t 0) as [Hneg|Hpos]; [eauto|].
  destruct (IH (val - 1) s1) as (ok & s' & -> & Hle'); [lia|lia|].
  exists ok, s'. split; [reflexivity|lia].
Qed.

Lemma whileChunks_total (k : nat) (majorType : Z) :
  forall s : stream,
    (length s < k)%nat -> (length s < bound)%nat ->
    exists ok s', whileChunks item k majorType s = Some (ok, s') /\
                  (length s' <= length s)%nat.
Proof.
  induction k as [|k IH]; intros s Hk Hb; [lia|].
  cbn [whileChunks].
  destruct (Hitem true s Hb) as (t & s1 & -> & Hle & Hlt).
  destruct (Z.eqb_spec t (-2)) as [H2|H2]; [eauto|].
  destruct (Z.eqb_spec t (-1)) as [H1|H1]; [eauto|].
  destruct (negb (t =? majorType)); [eauto|].
  destruct (IH s1) as (ok & s' & -> & Hle'); [lia|lia|].
  exists ok, s'. split; [reflexivity|lia].
Qed.

Lemma whileItems_total (k : nat) :
  forall s : stream,
    (length s < k)%nat -> (length s < bound)%nat ->
    exists ok s', whileItems item k s = Some (ok, s') /\
                  (length s' <= length s)%nat.
Proof.
  induction k as [|k IH]; intros s Hk Hb; [lia|].
  cbn [whileItems].
  destruct (Hitem true s Hb) as (t & s1 & -> & Hle & Hlt).
  destruct (Z.eqb_spec t (-2)) as [H2|H2]; [eauto|].
  destruct (Z.eqb_spec t (-1)) as [H1|H1]; [eauto|].
  destruct (IH s1) as (ok & s' & -> & Hle'); [lia|lia|].
  exists ok, s'. split; [reflexivity|lia].
Qed.

Lemma whilePairs_total (k : nat) :
  forall s : stream,
    (length s < k)%nat -> (length s < bound)%nat ->
    exists ok s', whilePairs item k s = Some (ok, s') /\
                  (length s' <= length s)%nat.
Proof.
  induction k as [|k IH]; intros s Hk Hb; [lia|].
  cbn [whilePairs].
  destruct (Hitem true s Hb) as (t & s1 & -> & Hle & Hlt).
  destruct (Z.eqb_spec t (-2)) as [H2|H2]; [eauto|].
  destruct (Z.eqb_spec t (-1)) as [H1|H1]; [eauto|].
  destruct (Hitem false s1) as (t2 & s2 & -> & Hle2 & Hlt2); [lia|].
  destruct (Z.ltb_spec t2 0) as [Hneg|Hpos].
  { exists false, s2. split; [reflexivity|lia]. }
  destruct (IH s2) as (ok & s' & -> & Hle'); [lia|lia|].
  exists ok, s'. split; [reflexivity|lia].
Qed.

Lemma finish_total (majorType : Z) (l : option (bool * stream)) (n : nat) :
  (exists ok s', l = Some (ok, s') /\ (length s' <= n)%nat) ->
  exists t s', finish majorType l = Some (t, s') /\ (length s' <= n)%nat.
Proof. intros (ok & s' & -> & H). cbn. eauto. Qed.

Lemma isIndefiniteWellFormed_total (k : nat) (majorType : Z) (breakable : bool)
      (s : stream) :
  (length s < k)%nat -> (length s < bound)%nat ->
  exists t s', isIndefiniteWellFormed item k majorType breakable s = Some (t, s') /\
               (length s' <= length s)%nat.
Proof.
  intros Hk Hb. unfold isIndefiniteWellFormed.
  repeat split_if.
  - apply finish_total. now apply whileChunks_total.
  - apply finish_total. now apply whileItems_total.
  - apply finish_total. now apply whilePairs_total.
  - eauto.
  - eauto.
  - eauto.
Qed.

Lemma checkContent_total (k : nat) (majorType val : Z) (s : stream) :
  (length s < k)%nat -> (length s < bound)%nat ->
  exists t s', checkContent item k majorType val s = Some (t, s') /\
               (length s' <= length s)%nat.
Proof.
  intros Hk Hb. unfold checkContent.
  assert (Hraw : forall v s0, (length (snd (readRaw v s0)) <= length s0)%nat).
  { intros v s0. revert v. induction s0 as [|b s0 IH]; intros v.
    - cbn. destruct (0 <? v); cbn; lia.
    - cbn [readRaw]. destruct (0 <? v); [|cbn; lia].
      specialize (IH (v - 1)). cbn [length]. lia. }
  destruct ((majorType =? 2) || (majorType =? 3)).
  { destruct (val <=? UINT32_MAX).
    - pose proof (Hraw (u32 val) s) as H.
      destruct (readRaw (u32 val) s) as [ok s1]. eauto.
    - pose proof (Hraw val s) as H.
      destruct (readRaw val s) as [ok s1]. eauto. }
  repeat split_if;
    try (apply finish_total; now apply forItems_total); eauto.
  destruct (Hitem false s Hb) as (t & s1 & -> & Hle & _). eauto.
Qed.

End CheckerLoops.

Lemma read_length (s : stream) : (length (snd (read s)) <= length s)%nat.
Proof. destruct s; cbn; lia. Qed.

Lemma read4_length (s : stream) : (length (snd (read4 s)) <= length s)%nat.
Proof.
  unfold read4.
  pose proof (read_length s) as H3. destruct (read s) as [b3 s3].
  pose proof (read_length s3) as H2. destruct (read s3) as [b2 s2].
  pose proof (read_length s2) as H1. destruct (read s2) as [b1 s1].
  pose proof (read_length s1) as H0. destruct (read s1) as [b0 s0].
  cbn [snd] in *. lia.
Qed.

Lemma readHead_length (majorType ai : Z) (s : stream) :
  (length (headStream (readHead majorType ai s)) <= length s)%nat.
Proof.
  unfold readHead.
  destruct (ai =? 24).
  { pose proof (read_length s) as H. destruct (read s) as [v s1].
    repeat split_if; exact H. }
  destruct (ai =? 25).
  { pose proof (read_length s) as H1. destruct (read s) as [b1 s1].
    pose proof (read_length s1) as H0. destruct (read s1) as [b0 s0].
    cbn [snd] in *. split_if; cbn [headStream]; lia. }
  destruct (ai =? 26).
  { pose proof (read4_length s) as H. destruct (read4 s) as [v s1].
    split_if; exact H. }
  destruct (ai =? 27).
  { pose proof (read4_length s) as H1. destruct (read4 s) as [v1 s1].
    cbn [snd] in H1. destruct (v1 <? 0); [exact H1|].
    pose proof (read4_length s1) as H2. destruct (read4 s1) as [v2 s2].
    cbn [snd] in H2. destruct (v2 <? 0); cbn [headStream]; lia. }
  repeat split_if; cbn [headStream]; lia.
Qed.

(** With fuel above the length of the stream the checker returns; it never
    gives bytes back and, unless it returns [-1], it has consumed at least
    the initial byte. *)
Lemma isWellFormed_productive (fuel : nat) : productive (isWellFormed fuel) fuel.
Proof.
  induction fuel as [|fuel IH]; intros b s Hlen; [lia|].
  cbn [isWellFormed].
  destruct s as [|ib s0].
  { exists (-1), []. cbn. split; [reflexivity|]. split; [lia|congruence]. }
  cbv beta iota zeta delta [read].
  pose proof (u8_range ib) as Hib.
  replace (u8 ib <? 0) with false by (symmetry; apply Z.ltb_ge; lia).
  cbn [length] in Hlen.
  pose proof (readHead_length (Z.shiftr (u8 (u8 ib)) 5)
                              (u8 (Z.land (u8 ib) 31)) s0) as Hh.
  destruct (readHead _ _ s0) as [s1|s1|val s1]; cbn [headStream] in Hh.
  - exists (-1), s1. cbn [length]. repeat split; lia.
  - destruct (isIndefiniteWellFormed_total (isWellFormed fuel) fuel IH fuel
                (Z.shiftr (u8 (u8 ib)) 5) b s1) as (t & s' & -> & Hle);
      [lia|lia|].
    exists t, s'. cbn [length]. repeat split; lia.
  - destruct (checkContent_total (isWellFormed fuel) fuel IH fuel
                (Z.shiftr (u8 (u8 ib)) 5) val s1) as (t & s' & -> & Hle);
      [lia|lia|].
    exists t, s'. cbn [length]. repeat split; lia.
Qed.

Lemma isWellFormed_total (fuel : nat) (breakable : bool) (s : stream) :
  (length s < fuel)%nat ->
  exists t s', isWellFormed fuel breakable s = Some (t, s').
Proof.
  intros H.
  destruct (isWellFormed_productive fuel breakable s H) as (t & s' & E & _).
  eauto.
Qed.

(** [Reader::isWellFormed()] always returns on the bytes it is given. *)
Lemma isWellFormedItem_total (s : stream) :
  exists ok, isWellFormedItem s = Some ok.
Proof.
  unfold isWellFormedItem.
  destruct (isWellFormed_total (S (length s)) false s) as (t & s' & ->); [lia|].
  eauto.
Qed.

(** ** Definite-length heads seen by the checker *)

Lemma read4_bytes (b3 b2 b1 b0 : Z) (rest : stream) :
  isByte b3 -> isByte b2 -> isByte b1 -> isByte b0 ->
  read4 (b3 :: b2 :: b1 :: b0 :: rest) = (be_value [b3; b2; b1; b0] 0, rest).
Proof.
  intros H3 H2 H1 H0.
  cbv beta iota zeta delta [read4 read be_value].
  rewrite !u8_small by assumption.
  unfold isByte in *. rewrite !Z.shiftl_mul_pow2 by lia.
  rewrite <- !Z.lor_assoc.
  rewrite (lor_shifted b1 b0 8) by lia.
  rewrite (lor_shifted b2 _ 16) by lia.
  rewrite (lor_shifted b3 _ 24) by lia.
  f_equal; lia.
Qed.

Lemma be_value_4_range (b3 b2 b1 b0 : Z) :
  isByte b3 -> isByte b2 -> isByte b1 -> isByte b0 ->
  0 <= be_value [b3; b2; b1; b0] 0 < 2 ^ 32.
Proof. unfold isByte. cbn [be_value]. lia. Qed.

Lemma readHead_24 (major b : Z) (rest : stream) :
  isByte b -> ~ (major = kSimpleOrFloat /\ b < 32) ->
  readHead major 24 (b :: rest) = HeadValue b rest.
Proof.
  intros Hb Hs. unfold readHead.
  change (24 =? 24) with true. cbv beta iota zeta delta [read].
  rewrite !u8_small by (rewrite ?u8_small; assumption).
  unfold isByte in *.
  replace (b <? 0) with false by (symmetry; bool_to_Z; lia).
  replace (_ && _) with false; [reflexivity|].
  symmetry. bool_to_Z. unfold kSimpleOrFloat in *. lia.
Qed.

Lemma readHead_25 (major b1 b0 : Z) (rest : stream) :
  isByte b1 -> isByte b0 ->
  readHead major 25 (b1 :: b0 :: rest) = HeadValue (be_value [b1; b0] 0) rest.
Proof.
  intros H1 H0. unfold readHead.
  cbv beta iota zeta delta [read Z.eqb Pos.eqb be_value].
  rewrite !u8_small by assumption.
  unfold isByte in *. rewrite Z.shiftl_mul_pow2, lor_shifted by lia.
  replace (_ <? 0) with false by (symmetry; bool_to_Z; lia).
  unfold u16. rewrite Z.mod_small by lia. f_equal; lia.
Qed.

Lemma readHead_26 (major b3 b2 b1 b0 : Z) (rest : stream) :
  isByte b3 -> isByte b2 -> isByte b1 -> isByte b0 ->
  readHead major 26 (b3 :: b2 :: b1 :: b0 :: rest)
  = HeadValue (be_value [b3; b2; b1; b0] 0) rest.
Proof.
  intros H3 H2 H1 H0. unfold readHead.
  cbv beta iota zeta delta [Z.eqb Pos.eqb].
  rewrite read4_bytes by assumption.
  pose proof (be_value_4_range b3 b2 b1 b0 H3 H2 H1 H0) as Hr.
  replace (_ <? 0) with false by (symmetry; bool_to_Z; lia).
  unfold u32. now rewrite Z.mod_small by lia.
Qed.

Lemma readHead_27 (major b7 b6 b5 b4 b3 b2 b1 b0 : Z) (rest : stream) :
  isByte b7 -> isByte b6 -> isByte b5 -> isByte b4 ->
  isByte b3 -> isByte b2 -> isByte b1 -> isByte b0 ->
  readHead major 27 (b7 :: b6 :: b5 :: b4 :: b3 :: b2 :: b1 :: b0 :: rest)
  = HeadValue (be_value [b7; b6; b5; b4; b3; b2; b1; b0] 0) rest.
Proof.
  intros H7 H6 H5 H4 H3 H2 H1 H0. unfold readHead.
  cbv beta iota zeta delta [Z.eqb Pos.eqb].
  pose proof (be_value_4_range b7 b6 b5 b4 H7 H6 H5 H4) as Hr1.
  pose proof (be_value_4_range b3 b2 b1 b0 H3 H2 H1 H0) as Hr2.
  rewrite read4_bytes by assumption.
  replace (be_value [b7; b6; b5; b4] 0 <? 0) with false
    by (symmetry; bool_to_Z; lia).
  rewrite read4_bytes by assumption.
  replace (be_value [b3; b2; b1; b0] 0 <? 0) with false
    by (symmetry; bool_to_Z; lia).
  change (u64 (Z.shiftl 0 32)) with 0. rewrite Z.lor_0_l.
  unfold u32, u64. rewrite !(Z.mod_small (be_value _ 0)) by lia.
  rewrite Z.shiftl_mul_pow2 by lia.
  rewrite (Z.mod_small (_ * 2 ^ 32)) by lia.
  rewrite lor_shifted by lia.
  cbn [be_value] in *. f_equal; lia.
Qed.

Lemma readHead_definite (major ai n : Z) (rest : stream) :
  headValid ai n ->
  ~ (major = kSimpleOrFloat /\ ai = 24 /\ n < 32) ->
  readHead major ai (be_bytes (Z.to_nat (argBytes ai)) n ++ rest)
  = HeadValue n rest.
Proof.
  intros Hv Hsimple.
  pose proof (be_bytes_isByte (Z.to_nat (argBytes ai)) n) as Hb.
  pose proof (be_value_small (Z.to_nat (argBytes ai)) n) as Hn.
  revert Hb Hn.
  destruct Hv as [[Hai ->]|[Hai Hrange]].
  - intros _ _.
    replace (argBytes ai) with 0 by (unfold argBytes; now repeat decide_if).
    cbn [Z.to_nat be_bytes app]. unfold readHead. now repeat decide_if.
  - revert Hrange. unfold argBytes.
    destruct (Z.eqb_spec ai 24) as [E24|N24];
      [|destruct (Z.eqb_spec ai 25) as [E25|N25];
        [|destruct (Z.eqb_spec ai 26) as [E26|N26];
          [|destruct (Z.eqb_spec ai 27) as [E27|N27]; [|lia]]]];
      intros Hrange;
      cbv beta iota zeta delta [Z.to_nat Pos.to_nat Pos.iter_op Nat.add];
      cbn [be_bytes app]; intros Hb Hn; bytes_of_Forall;
      specialize (Hn ltac:(cbn; lia)); subst ai.
    + rewrite readHead_24; [now rewrite <- Hn at 2|assumption|].
      cbn [be_value] in Hn. lia.
    + rewrite readHead_25 by assumption. now rewrite Hn.
    + rewrite readHead_26 by assumption. now rewrite Hn.
    + rewrite readHead_27 by assumption. now rewrite Hn.
Qed.

(** On a definite-length head the checker goes on to the content. *)
Lemma isWellFormed_definite (fuel : nat) (breakable : bool)
      (major ai n : Z) (rest : stream) :
  0 <= major <= 7 ->
  headValid ai n ->
  ~ (major = kSimpleOrFloat /\ ai = 24 /\ n < 32) ->
  isWellFormed (S fuel) breakable (definiteHead major ai n ++ rest)
  = checkContent (isWellFormed fuel) fuel major n rest.
Proof.
  intros Hm Hv Hs.
  assert (Hai : 0 <= ai <= 27) by (destruct Hv; lia).
  destruct (initial_byte_fields major ai) as (Hib & Hmt & Hland); [lia|lia|].
  cbv zeta in Hib, Hmt, Hland.
  unfold definiteHead. rewrite <- app_comm_cons.
  cbn [isWellFormed]. cbv beta iota zeta delta [read].
  pose proof (u8_range (Z.shiftl major 5 + ai)) as Hr.
  replace (u8 (Z.shiftl major 5 + ai) <? 0) with false
    by (symmetry; bool_to_Z; lia).
  rewrite (u8_small (u8 _)) by assumption.
  rewrite Hmt, Hland, (u8_small ai) by lia.
  now rewrite readHead_definite.
Qed.

(** ** Counted children *)

Lemma forItems_accepts (item : bool -> stream -> checked) (k : nat) :
  forall (val : Z) (s s' : stream),
    forItems item k val s = Some (true, s') ->
    itemsRun item (Z.to_nat val) s s'.
Proof.
  induction k as [|k IH]; intros val s s'; cbn [forItems];
    destruct (Z.ltb_spec 0 val) as [Hpos|Hle].
  - discriminate.
  - intros [= <-]. replace (Z.to_nat val) with 0%nat by lia. constructor.
  - destruct (item false s) as [[t s1]|] eqn:E; [|discriminate].
    destruct (Z.ltb_spec t 0) as [Hneg|Hge]; [discriminate|].
    intros H. apply IH in H.
    replace (Z.to_nat val) with (S (Z.to_nat (val - 1))) by lia.
    econstructor; eassumption.
  - intros [= <-]. replace (Z.to_nat val) with 0%nat by lia. constructor.
Qed.

Lemma itemsRun_forItems (item : bool -> stream -> checked) (n : nat) :
  forall (k : nat) (s s' : stream),
    itemsRun item n s s' -> (n <= k)%nat ->
    forItems item k (Z.of_nat n) s = Some (true, s').
Proof.
  induction n as [|n IH]; intros k s s' Hrun Hk.
  - inversion Hrun; subst. destruct k; reflexivity.
  - inversion Hrun as [|n0 s0 s1 s2 t E Ht Hrest]; subst.
    destruct k as [|k]; [lia|].
    cbn [forItems].
    replace (0 <? Z.of_nat (S n)) with true by (symmetry; bool_to_Z; lia).
    rewrite E.
    replace (t <? 0) with false by (symmetry; bool_to_Z; lia).
    replace (Z.of_nat (S n) - 1) with (Z.of_nat n) by lia.
    apply IH; [assumption|lia].
Qed.

(** A run of [n] one-byte items [0x00]. *)
Lemma itemsRun_zeros (fuel n : nat) (rest : stream) :
  itemsRun (isWellFormed (S fuel)) n (repeat 0 n ++ rest) rest.
Proof.
  induction n as [|n IH]; cbn [repeat app].
  - constructor.
  - apply (itemsRun_next _ n _ (repeat 0 n ++ rest) rest 0).
    + reflexivity.
    + lia.
    + exact IH.
Qed.

(** ** The overflow guard of definite-length maps *)

Lemma headValid_range (ai n : Z) : headValid ai n -> 0 <= n < 2 ^ 64.
Proof.
  intros [[Hai ->]|[Hai Hn]]; [lia|].
  revert Hn. unfold argBytes. repeat split_if; bool_to_Z; cbn; lia.
Qed.

Lemma mapOverflow_iff (n : Z) :
  0 <= n < 2 ^ 64 -> (mapOverflow n = true <-> 2 ^ 63 <= n).
Proof.
  intros Hn. unfold mapOverflow, u64. bool_to_Z.
  destruct (Z_lt_le_dec n (2 ^ 63)) as [Hlt|Hge].
  - rewrite Z.mod_small by lia. lia.
  - replace ((2 * n) mod 2 ^ 64) with (2 * n - 2 ^ 64)
      by (apply (Z.mod_unique (2 * n) (2 ^ 64) 1); lia).
    lia.
Qed.

Lemma checkContent_map (item : bool -> stream -> checked) (k : nat)
      (n : Z) (rest : stream) :
  0 <= n < 2 ^ 64 ->
  checkContent item k kMap n rest
  = if mapOverflow n then Some (-1, rest)
    else finish kMap (forItems item k (2 * n) rest).
Proof.
  intros Hn. unfold checkContent, kMap.
  cbn [Z.eqb Pos.eqb orb].
  destruct (mapOverflow n) eqn:Ho; [reflexivity|].
  assert (Hlt : n < 2 ^ 63).
  { destruct (Z_lt_le_dec n (2 ^ 63)) as [H|H]; [exact H|].
    apply (mapOverflow_iff n Hn) in H. congruence. }
  rewrite Z.shiftl_mul_pow2 by lia. change (2 ^ 1) with 2.
  unfold u64. rewrite Z.mod_small by lia.
  replace (n * 2) with (2 * n) by lia.
  destruct (Z.leb_spec (2 * n) UINT32_MAX) as [Hs|Hs]; [|reflexivity].
  unfold u32. unfold UINT32_MAX in Hs. now rewrite Z.mod_small by lia.
Qed.

(** C5.  On a definite-length map head with argument [n] the checker
    returns [-1] exactly when [n <> 0] and [2n] reduced modulo [2^64] is at
    most [n], which is the case exactly when [n >= 2^63].  Otherwise it
    checks [2n] children: its result is that of the loop over [2n] items,
    it accepts exactly when [2n] children in a row are accepted, and there
    is a continuation of the head that it accepts. *)
Theorem map_header_overflow_guard
        (ai n : Z) (rest : stream) (fuel : nat) (breakable : bool) :
  headValid ai n ->
  (mapOverflow n = true <-> n <> 0 /\ (2 * n) mod 2 ^ 64 <= n) /\
  (mapOverflow n = true <-> 2 ^ 63 <= n) /\
  (mapOverflow n = true ->
   isWellFormed (S fuel) breakable (definiteHead kMap ai n ++ rest)
   = Some (-1, rest)) /\
  (mapOverflow n = false ->
   isWellFormed (S fuel) breakable (definiteHead kMap ai n ++ rest)
   = finish kMap (forItems (isWellFormed fuel) fuel (2 * n) rest) /\
   (forall s',
       isWellFormed (S fuel) breakable (definiteHead kMap ai n ++ rest)
       = Some (kMap, s') ->
       itemsRun (isWellFormed fuel) (Z.to_nat (2 * n)) rest s') /\
   (forall s',
       itemsRun (isWellFormed fuel) (Z.to_nat (2 * n)) rest s' ->
       (Z.to_nat (2 * n) <= fuel)%nat ->
       isWellFormed (S fuel) breakable (definiteHead kMap ai n ++ rest)
       = Some (kMap, s')) /\
   exists fuel' rest',
     isWellFormed fuel' breakable (definiteHead kMap ai n ++ rest')
     = Some (kMap, [])).
Proof.
  intros Hv. pose proof (headValid_range ai n Hv) as Hn.
  assert (Hwf : forall f b r,
    isWellFormed (S f) b (definiteHead kMap ai n ++ r)
    = if mapOverflow n then Some (-1, r)
      else finish kMap (forItems (isWellFormed f) f (2 * n) r)).
  { intros f b r. rewrite isWellFormed_definite.
    - now apply checkContent_map.
    - unfold kMap. lia.
    - exact Hv.
    - unfold kMap, kSimpleOrFloat. lia. }
  split; [unfold mapOverflow, u64; bool_to_Z; tauto|].
  split; [now apply mapOverflow_iff|].
  split; [intros Ho; now rewrite Hwf, Ho|].
  intros Ho. rewrite Hwf, Ho.
  split; [reflexivity|]. split; [|split].
  - intros s'. destruct (forItems _ fuel (2 * n) rest) as [[ok s1]|] eqn:E;
      cbn [finish]; [|discriminate].
    destruct ok; [|unfold kMap; discriminate].
    intros [= <-]. now apply (forItems_accepts _ fuel).
  - intros s' Hrun Hk.
    apply (itemsRun_forItems _ _ fuel) in Hrun; [|exact Hk].
    rewrite Z2Nat.id in Hrun by lia. now rewrite Hrun.
  - exists (S (S (Z.to_nat (2 * n)))), (repeat 0 (Z.to_nat (2 * n)) ++ []).
    rewrite Hwf, Ho.
    pose proof (itemsRun_zeros (Z.to_nat (2 * n)) (Z.to_nat (2 * n)) []) as Hrun.
    apply (itemsRun_forItems _ _ (S (Z.to_nat (2 * n)))) in Hrun; [|lia].
    rewrite Z2Nat.id in Hrun by lia. now rewrite Hrun.
Qed.

(** The claim on the heads [BB 80 00 00 00 00 00 00 00] ([n = 2^63],
    rejected) and [A1] ([n = 1], two children). *)
Lemma map_header_overflow_guard_witness :
  isWellFormed 1 false (definiteHead kMap 27 (2 ^ 63) ++ [0; 0]) = Some (-1, [0; 0]) /\
  isWellFormed 4 false (definiteHead kMap 1 1 ++ [0; 0])
  = finish kMap (forItems (isWellFormed 3) 3 (2 * 1) [0; 0]).
Proof.
  split.
  - refine (proj1 (proj2 (proj2
      (map_header_overflow_guard 27 (2 ^ 63) [0; 0] 0 false _))) eq_refl).
    right. cbn. lia.
  - refine (proj1 (proj2 (proj2 (proj2
      (map_header_overflow_guard 1 1 [0; 0] 3 false _))) eq_refl)).
    left. lia.
Defined.

(** ** Indefinite-length strings *)

Lemma whileChunks_accepts (item : bool -> stream -> checked) (majorType : Z)
      (k : nat) :
  forall s s' : stream,
    whileChunks item k majorType s = Some (true, s') ->
    exists n, (n < k)%nat /\ chunksRun item majorType n s s'.
Proof.
  induction k as [|k IH]; intros s s'; cbn [whileChunks]; [discriminate|].
  destruct (item true s) as [[t s1]|] eqn:E; [|discriminate].
  destruct (Z.eqb_spec t (-2)) as [->|H2].
  { intros [= <-]. exists 0%nat. split; [lia|]. now constructor. }
  destruct (Z.eqb_spec t (-1)) as [->|H1]; [discriminate|].
  destruct (Z.eqb_spec t majorType) as [->|Hm]; cbn [negb]; [|discriminate].
  intros H. destruct (IH _ _ H) as (n & Hn & Hrun).
  exists (S n). split; [lia|]. econstructor; eassumption.
Qed.

Lemma chunksRun_whileChunks (item : bool -> stream -> checked) (majorType : Z)
      (n : nat) :
  majorType <> -2 -> majorType <> -1 ->
  forall (k : nat) (s s' : stream),
    chunksRun item majorType n s s' -> (n < k)%nat ->
    whileChunks item k majorType s = Some (true, s').
Proof.
  intros H2 H1. induction n as [|n IH]; intros k s s' Hrun Hk;
    (destruct k as [|k]; [lia|]); cbn [whileChunks].
  - inversion Hrun as [s0 s1 E|]; subst. now rewrite E.
  - inversion Hrun as [|n0 s0 s1 s2 E Hrest]; subst. rewrite E.
    replace (majorType =? -2) with false by (symmetry; bool_to_Z; lia).
    replace (majorType =? -1) with false by (symmetry; bool_to_Z; lia).
    rewrite Z.eqb_refl. cbn [negb]. apply IH; [assumption|lia].
Qed.

Lemma whileChunks_mismatch (item : bool -> stream -> checked) (majorType : Z)
      (k : nat) (s s1 : stream) (t : Z) :
  item true s = Some (t, s1) ->
  t <> -2 -> t <> majorType ->
  whileChunks item (S k) majorType s = Some (false, s1).
Proof.
  intros E H2 Hm. cbn [whileChunks]. rewrite E.
  replace (t =? -2) with false by (symmetry; bool_to_Z; lia).
  destruct (t =? -1); [reflexivity|].
  now replace (t =? majorType) with false by (symmetry; bool_to_Z; lia).
Qed.

(** On the initial byte of an indefinite-length item the checker hands
    over to [isIndefiniteWellFormed]. *)
Lemma isWellFormed_indefinite (fuel : nat) (breakable : bool) (major : Z)
      (s : stream) :
  0 <= major <= 7 ->
  isWellFormed (S fuel) breakable (indefiniteHead major :: s)
  = isIndefiniteWellFormed (isWellFormed fuel) fuel major breakable s.
Proof.
  intros Hm. unfold indefiniteHead.
  destruct (initial_byte_fields major 31) as (Hib & Hmt & Hland); [lia|lia|].
  cbv zeta in Hib, Hmt, Hland.
  cbn [isWellFormed]. cbv beta iota zeta delta [read].
  pose proof (u8_range (Z.shiftl major 5 + 31)) as Hr.
  replace (u8 (Z.shiftl major 5 + 31) <? 0) with false
    by (symmetry; bool_to_Z; lia).
  rewrite (u8_small (u8 _)) by assumption.
  rewrite Hmt, Hland. change (u8 31) with 31.
  reflexivity.
Qed.

(** A successful check returns the major type of the initial byte of the
    item it has checked. *)
Lemma isWellFormed_major (fuel : nat) (breakable : bool) (s s' : stream) (t : Z) :
  isWellFormed fuel breakable s = Some (t, s') ->
  0 <= t ->
  exists ib s0, s = ib :: s0 /\ Z.shiftr (u8 ib) 5 = t.
Proof.
  destruct fuel as [|fuel]; [discriminate|].
  cbn [isWellFormed].
  destruct s as [|ib s0]; [cbn; intros [= <- <-]; lia|].
  cbv beta iota zeta delta [read].
  pose proof (u8_range ib) as Hib.
  replace (u8 ib <? 0) with false by (symmetry; bool_to_Z; lia).
  rewrite (u8_small (u8 ib)) by assumption.
  intros H Ht. exists ib, s0. split; [reflexivity|].
  revert H.
  set (mt := Z.shiftr (u8 ib) 5).
  destruct (readHead mt _ s0) as [s1|s1|val s1].
  - intros [= <- <-]. lia.
  - unfold isIndefiniteWellFormed, finish.
    repeat split_if;
      repeat match goal with
             | |- context [match ?l with Some _ => _ | None => _ end] =>
                 destruct l as [[[] ?]|]
             end;
      intros [= <- <-]; lia.
  - unfold checkContent, finish.
    repeat split_if;
      repeat match goal with
             | |- context [match ?l with Some _ => _ | None => _ end] =>
                 destruct l as [[? ?]|]
             | |- context [let (_, _) := ?p in _] => destruct p as [[] ?]
             | |- context [if ?c then _ else _] => destruct c
             end;
      intros [= <- <-]; lia.
Qed.

(** The indefinite-length byte string [5F 5F FF FF], whose only chunk
    [5F FF] is itself an indefinite-length byte string (additional
    information 31), evaluated: the checker returns [2], not [-1]. *)
Lemma nested_indefinite_chunk_accepted :
  Z.shiftr 0x5F 5 = kBytes /\ Z.land 0x5F 31 = 31 /\
  isWellFormed 2 true [0x5F; 0xFF] = Some (kBytes, []) /\
  isWellFormed 5 false [0x5F; 0x5F; 0xFF; 0xFF] = Some (kBytes, []) /\
  isWellFormed 5 false [0x5F; 0x5F; 0xFF; 0xFF] <> Some (-1, []).
Proof. repeat split. discriminate. Qed.

Lemma isWellFormed_break (fuel : nat) (rest : stream) :
  isWellFormed (S fuel) true (0xFF :: rest) = Some (-2, rest).
Proof. reflexivity. Qed.

(** C3 (the code departs from the claim).  The chunk loop of an
    indefinite-length Bytes or Text item tests only the value that the
    recursive check returns, and for an indefinite-length string the
    recursive check returns the major type, as it does for a
    definite-length one.  So a chunk that is itself an indefinite-length
    string of the outer major type is not rejected: whenever the checker
    accepts an indefinite-length string followed by a Break, it also
    accepts the indefinite-length string of the same major type that has
    that string as its only chunk, and returns the major type, not [-1].
    The chunk's initial byte has additional information 31. *)
Theorem indefinite_string_nested_chunk
        (fuel : nat) (breakable : bool) (major : Z) (inner rest : stream) :
  major = kBytes \/ major = kText ->
  isWellFormed fuel true (indefiniteHead major :: inner)
  = Some (major, 0xFF :: rest) ->
  Z.shiftr (indefiniteHead major) 5 = major /\
  Z.land (indefiniteHead major) 31 = 31 /\
  isWellFormed (S fuel) breakable
    (indefiniteHead major :: indefiniteHead major :: inner)
  = Some (major, rest) /\
  isWellFormed (S fuel) breakable
    (indefiniteHead major :: indefiniteHead major :: inner)
  <> Some (-1, rest).
Proof.
  intros Hmajor Hinner.
  assert (Hrange : 0 <= major <= 7) by (unfold kBytes, kText in Hmajor; lia).
  assert (Hstr : (major =? kBytes) || (major =? kText) = true)
    by (bool_to_Z; lia).
  assert (Hfuel : exists f, fuel = S (S f)).
  { destruct fuel as [|[|f]]; [discriminate| |now exists f].
    rewrite isWellFormed_indefinite in Hinner by assumption.
    unfold isIndefiniteWellFormed in Hinner. rewrite Hstr in Hinner.
    discriminate. }
  destruct Hfuel as [f ->].
  assert (Hres : isWellFormed (S (S (S f))) breakable
                   (indefiniteHead major :: indefiniteHead major :: inner)
                 = Some (major, rest)).
  { rewrite isWellFormed_indefinite by assumption.
    unfold isIndefiniteWellFormed. rewrite Hstr.
    rewrite (chunksRun_whileChunks _ major 1) with (s' := rest);
      [reflexivity|lia|lia| |lia].
    apply chunksRun_chunk with (s1 := 0xFF :: rest); [exact Hinner|].
    apply chunksRun_break. apply isWellFormed_break. }
  split; [|split; [|split]].
  - destruct Hmajor as [-> | ->]; reflexivity.
  - destruct Hmajor as [-> | ->]; reflexivity.
  - exact Hres.
  - rewrite Hres. intros [= E]. lia.
Qed.

(** The property on [5F 5F FF FF]: the chunk [5F FF] followed by the
    Break of the outer string. *)
Lemma indefinite_string_nested_chunk_witness :
  isWellFormed 3 false [0x5F; 0x5F; 0xFF; 0xFF] = Some (2, []) /\
  isWellFormed 3 false [0x5F; 0x5F; 0xFF; 0xFF] <> Some (-1, []).
Proof.
  exact (proj2 (proj2
    (indefinite_string_nested_chunk 2 false kBytes [0xFF; 0xFF] []
       (or_introl eq_refl) eq_refl))).
Defined.

(** X23.  What the chunk loop enforces.  On an indefinite-length Bytes or
    Text item the checker returns the outer major type exactly when the
    recursive check returns that major type for every child up to a Break
    (given a bound of the model above the number of children), and it then
    leaves what follows the Break; such a child starts with an initial
    byte of the outer major type.  A child for which the recursive check
    returns anything else, another major type or [-1], makes the checker
    return [-1] at that child.  With a bound above the length of the
    stream the checker returns. *)
Theorem indefinite_string_chunks
        (fuel : nat) (breakable : bool) (major : Z) (s : stream) :
  major = kBytes \/ major = kText ->
  isWellFormed (S fuel) breakable (indefiniteHead major :: s)
  = finish major (whileChunks (isWellFormed fuel) fuel major s) /\
  (forall t s',
      isWellFormed (S fuel) breakable (indefiniteHead major :: s) = Some (t, s') ->
      t <> -1 ->
      t = major /\
      exists n, (n < fuel)%nat /\ chunksRun (isWellFormed fuel) major n s s') /\
  (forall n s',
      chunksRun (isWellFormed fuel) major n s s' -> (n < fuel)%nat ->
      isWellFormed (S fuel) breakable (indefiniteHead major :: s)
      = Some (major, s')) /\
  (forall s1,
      isWellFormed fuel true s = Some (major, s1) ->
      exists ib s0, s = ib :: s0 /\ Z.shiftr (u8 ib) 5 = major) /\
  (forall t s1,
      isWellFormed fuel true s = Some (t, s1) ->
      t <> -2 -> t <> major ->
      isWellFormed (S fuel) breakable (indefiniteHead major :: s)
      = Some (-1, s1)) /\
  ((length s < fuel)%nat ->
   exists t s',
     isWellFormed (S fuel) breakable (indefiniteHead major :: s) = Some (t, s')).
Proof.
  intros Hmajor.
  assert (Hrange : 0 <= major <= 7) by (unfold kBytes, kText in Hmajor; lia).
  assert (E : isWellFormed (S fuel) breakable (indefiniteHead major :: s)
              = finish major (whileChunks (isWellFormed fuel) fuel major s)).
  { rewrite isWellFormed_indefinite by assumption.
    unfold isIndefiniteWellFormed.
    now replace ((major =? kBytes) || (major =? kText)) with true
      by (symmetry; bool_to_Z; lia). }
  rewrite E. split; [reflexivity|]. split; [|split; [|split; [|split]]].
  - intros t s'.
    destruct (whileChunks _ fuel major s) as [[ok s1]|] eqn:Ew;
      cbn [finish]; [|discriminate].
    destruct ok; intros [= <- <-] Ht; [|congruence].
    split; [reflexivity|]. now apply whileChunks_accepts.
  - intros n s' Hrun Hn.
    rewrite (chunksRun_whileChunks _ major n) with (s' := s');
      try assumption; try reflexivity;
      unfold kBytes, kText in Hmajor; lia.
  - intros s1 H. apply (isWellFormed_major fuel true s s1 major H). lia.
  - intros t s1 H H2 Hm.
    destruct fuel as [|fuel]; [discriminate|].
    now rewrite (whileChunks_mismatch _ major fuel s s1 t).
  - intros Hlen.
    destruct (whileChunks_total (isWellFormed fuel) fuel
                (isWellFormed_productive fuel) fuel major s Hlen Hlen)
      as (ok & s' & -> & _).
    cbn [finish]. eauto.
Qed.

(** The property on [5F 41 00 FF] (one definite-length chunk) and on
    [5F 01 FF] (a chunk of major type 0). *)
Lemma indefinite_string_chunks_witness :
  isWellFormed 5 false (indefiniteHead kBytes :: [0x41; 0x00; 0xFF])
  = Some (kBytes, []) /\
  isWellFormed 5 false (indefiniteHead kBytes :: [0x01; 0xFF])
  = Some (-1, [0xFF]).
Proof.
  split.
  - refine (proj1 (proj2 (proj2
      (indefinite_string_chunks 4 false kBytes [0x41; 0x00; 0xFF] _)))
      1%nat [] _ _).
    + left. reflexivity.
    + apply chunksRun_chunk with (s1 := [0xFF]); [reflexivity|].
      apply chunksRun_break. reflexivity.
    + lia.
  - refine (proj1 (proj2 (proj2 (proj2 (proj2
      (indefinite_string_chunks 4 false kBytes [0x01; 0xFF] _)))))
      0 [0xFF] _ _ _).
    + left. reflexivity.
    + reflexivity.
    + lia.
    + unfold kBytes. lia.
Defined.

(** * Further properties of the code *)

(** ** Definite-length heads seen by the reader *)

Lemma readValue_definite (ai n : Z) (rest : stream) :
  headValid ai n ->
  readValue ai (be_bytes (Z.to_nat (argBytes ai)) n ++ rest) = (n, rest).
Proof.
  intros Hv.
  pose proof (be_bytes_isByte (Z.to_nat (argBytes ai)) n) as Hb.
  pose proof (be_value_small (Z.to_nat (argBytes ai)) n) as Hn.
  revert Hb Hn.
  destruct Hv as [[Hai ->]|[Hai Hrange]].
  - intros _ _.
    replace (argBytes ai) with 0 by (unfold argBytes; now repeat decide_if).
    cbn [Z.to_nat be_bytes app]. unfold readValue. now repeat decide_if.
  - revert Hrange. unfold argBytes.
    destruct (Z.eqb_spec ai 24) as [E24|N24];
      [|destruct (Z.eqb_spec ai 25) as [E25|N25];
        [|destruct (Z.eqb_spec ai 26) as [E26|N26];
          [|destruct (Z.eqb_spec ai 27) as [E27|N27]; [|lia]]]];
      intros Hrange;
      cbv beta iota zeta delta [Z.to_nat Pos.to_nat Pos.iter_op Nat.add];
      cbn [be_bytes app]; intros Hb Hn; bytes_of_Forall;
      specialize (Hn ltac:(cbn; lia)); subst ai.
    + rewrite readValue_8 by assumption. now rewrite Hn.
    + rewrite readValue_16 by assumption. now rewrite Hn.
    + rewrite readValue_32 by assumption. now rewrite Hn.
    + rewrite readValue_64 by assumption. now rewrite Hn.
Qed.

Lemma headValid_argBytes (ai n : Z) :
  headValid ai n -> 0 <= argBytes ai /\ 0 <= ai <= 27.
Proof.
  intros [[H _]|[H _]]; unfold argBytes; repeat split_if; lia.
Qed.

(** One call of [readDataType] on a definite-length head, in any of the
    five argument forms. *)
Lemma readDataType_definite (r : Reader.t) (major ai n : Z) (rest : stream) :
  state_ r = State.kStart ->
  0 <= major <= 7 ->
  headValid ai n ->
  readDataType r (definiteHead major ai n ++ rest)
  = let '(d, v, e) := determineType major ai n in
    (d, Reader.mk State.kStart (32 * major + ai) major ai (argBytes ai) v e,
     rest).
Proof.
  intros Hs Hm Hv.
  destruct (headValid_argBytes ai n Hv) as [Hab Hai].
  destruct (initial_byte_fields major ai) as (Hib & Hmt & Hland); [lia|lia|].
  cbv zeta in Hib, Hmt, Hland.
  unfold definiteHead. rewrite <- app_comm_cons.
  pose proof (u8_range (Z.shiftl major 5 + ai)) as Hr.
  assert (Hraw : Z.shiftl major 5 + ai = 32 * major + ai).
  { rewrite Z.shiftl_mul_pow2 by lia. change (2 ^ 5) with 32. lia. }
  rewrite Hraw in *. rewrite u8_small in Hib, Hmt, Hland by lia.
  rewrite readDataType_head.
  - cbv zeta. rewrite Hmt, Hland, readValue_definite by assumption.
    reflexivity.
  - assumption.
  - lia.
  - unfold badInitialByte. cbv zeta. rewrite Hmt, Hland. bool_to_Z. lia.
  - rewrite Hland. unfold available.
    rewrite length_app, be_bytes_length. lia.
Qed.

Lemma determineType_major (major ai n : Z) :
  0 <= major <= 6 ->
  determineType major ai n = (majorDataType major, n, SyntaxError.kNoError).
Proof.
  intros Hm. unfold determineType, majorDataType.
  repeat split_if; bool_to_Z; try reflexivity; lia.
Qed.

(** X1.  The Reader does not require the shortest encoding: a definite
    head of major type 0 to 6 whose argument [n] is carried in any of the
    five forms is decoded, in one call, to the data type of the major type
    with argument [n]; only the head is consumed. *)
Theorem readDataType_any_width
        (r : Reader.t) (major ai n : Z) (rest : stream) :
  state_ r = State.kStart ->
  0 <= major <= 6 ->
  headValid ai n ->
  exists r',
    readDataType r (definiteHead major ai n ++ rest)
    = (majorDataType major, r', rest) /\
    state_ r' = State.kStart /\
    getSyntaxError r' = SyntaxError.kNoError /\
    getRawValue r' = n /\
    isIndefiniteLength r' = false.
Proof.
  intros Hs Hm Hv.
  rewrite readDataType_definite by (assumption || lia).
  rewrite determineType_major by assumption.
  eexists. split; [reflexivity|].
  repeat split.
  destruct (headValid_argBytes ai n Hv) as [_ Hai].
  unfold isIndefiniteLength. cbn [majorType_ addlInfo_].
  destruct (_ || _); [|reflexivity]. apply Z.eqb_neq. lia.
Qed.

(** The property on [1B 00 00 00 00 00 00 00 05], the eight-byte form of
    the unsigned integer 5. *)
Lemma readDataType_any_width_witness :
  exists r',
    readDataType Reader.init (definiteHead 0 27 5 ++ [])
    = (majorDataType 0, r', []) /\
    state_ r' = State.kStart /\
    getSyntaxError r' = SyntaxError.kNoError /\
    getRawValue r' = 5 /\
    isIndefiniteLength r' = false.
Proof.
  apply (readDataType_any_width Reader.init 0 27 5 []).
  - reflexivity.
  - lia.
  - right. cbn. lia.
Defined.

(** ** What the reader makes of the writer's output *)

Lemma readDataType_written (r : Reader.t) (major u : Z) (rest : stream) :
  state_ r = State.kStart ->
  0 <= major <= 6 ->
  0 <= u < 2 ^ 64 ->
  readDataType r (Writer.writeTypedInt (Z.shiftl major 5) u ++ rest)
  = (majorDataType major,
     Reader.mk State.kStart (32 * major + widthCode (chosenWidth u) u) major
               (widthCode (chosenWidth u) u)
               (argBytes (widthCode (chosenWidth u) u)) u
               SyntaxError.kNoError,
     rest).
Proof.
  intros Hs Hm Hu.
  rewrite readDataType_writeTypedInt by (assumption || lia).
  cbv zeta. now rewrite determineType_major.
Qed.

(** X2.  An unsigned integer written by [writeUnsignedInt] is read back, in
    one call and whatever follows it, as [kUnsignedInt] with
    [getUnsignedInt] equal to it. *)
Theorem writeUnsignedInt_round_trip (u : Z) (r : Reader.t) (rest : stream) :
  0 <= u < 2 ^ 64 ->
  state_ r = State.kStart ->
  exists r',
    readDataType r (Writer.writeUnsignedInt u ++ rest)
    = (DataType.kUnsignedInt, r', rest) /\
    state_ r' = State.kStart /\
    getSyntaxError r' = SyntaxError.kNoError /\
    getUnsignedInt r' = u.
Proof.
  intros Hu Hs. unfold Writer.writeUnsignedInt, kUnsignedInt.
  rewrite readDataType_written by (assumption || lia).
  eexists. split; [reflexivity|]. repeat split.
Qed.

Lemma writeUnsignedInt_round_trip_witness :
  exists r',
    readDataType Reader.init (Writer.writeUnsignedInt 1000000 ++ [])
    = (DataType.kUnsignedInt, r', []) /\
    state_ r' = State.kStart /\
    getSyntaxError r' = SyntaxError.kNoError /\
    getUnsignedInt r' = 1000000.
Proof.
  apply (writeUnsignedInt_round_trip 1000000 Reader.init []).
  - lia.
  - reflexivity.
Defined.

(** X3.  A tag number written by [writeTag] is read back as [kTag] with
    [getTag] equal to it; the tagged item that follows is left in the
    stream. *)
Theorem writeTag_round_trip (v : Z) (r : Reader.t) (rest : stream) :
  0 <= v < 2 ^ 64 ->
  state_ r = State.kStart ->
  exists r',
    readDataType r (Writer.writeTag v ++ rest) = (DataType.kTag, r', rest) /\
    state_ r' = State.kStart /\
    getSyntaxError r' = SyntaxError.kNoError /\
    getTag r' = v.
Proof.
  intros Hv Hs. unfold Writer.writeTag, kTag.
  rewrite readDataType_written by (assumption || lia).
  eexists. split; [reflexivity|]. repeat split.
Qed.

Lemma writeTag_round_trip_witness :
  exists r',
    readDataType Reader.init (Writer.writeTag 55799 ++ [0x01])
    = (DataType.kTag, r', [0x01]) /\
    state_ r' = State.kStart /\
    getSyntaxError r' = SyntaxError.kNoError /\
    getTag r' = 55799.
Proof.
  apply (writeTag_round_trip 55799 Reader.init [0x01]).
  - lia.
  - reflexivity.
Defined.

Lemma begin_round_trip (major n : Z) (r : Reader.t) (rest : stream) :
  2 <= major <= 5 ->
  0 <= n < 2 ^ 32 ->
  state_ r = State.kStart ->
  exists r',
    readDataType r (Writer.writeTypedInt (Z.shiftl major 5) n ++ rest)
    = (majorDataType major, r', rest) /\
    state_ r' = State.kStart /\
    getLength r' = n /\
    isIndefiniteLength r' = false.
Proof.
  intros Hm Hn Hs.
  rewrite readDataType_written by (assumption || lia).
  eexists. split; [reflexivity|]. repeat split.
  pose proof (widthCode_range n (proj1 Hn)) as Hc.
  unfold isIndefiniteLength. cbn [majorType_ addlInfo_].
  destruct (_ || _); [|reflexivity]. apply Z.eqb_neq. lia.
Qed.

(** X4.  The preludes written by [beginBytes], [beginText], [beginArray]
    and [beginMap] for a length [n] are read back as [kBytes], [kText],
    [kArray] and [kMap] with [getLength] equal to [n] and
    [isIndefiniteLength] false; the content is left in the stream. *)
Theorem begin_definite_round_trip (n : Z) (r : Reader.t) (rest : stream) :
  0 <= n < 2 ^ 32 ->
  state_ r = State.kStart ->
  (exists r',
      readDataType r (Writer.beginBytes n ++ rest) = (DataType.kBytes, r', rest) /\
      state_ r' = State.kStart /\ getLength r' = n /\
      isIndefiniteLength r' = false) /\
  (exists r',
      readDataType r (Writer.beginText n ++ rest) = (DataType.kText, r', rest) /\
      state_ r' = State.kStart /\ getLength r' = n /\
      isIndefiniteLength r' = false) /\
  (exists r',
      readDataType r (Writer.beginArray n ++ rest) = (DataType.kArray, r', rest) /\
      state_ r' = State.kStart /\ getLength r' = n /\
      isIndefiniteLength r' = false) /\
  (exists r',
      readDataType r (Writer.beginMap n ++ rest) = (DataType.kMap, r', rest) /\
      state_ r' = State.kStart /\ getLength r' = n /\
      isIndefiniteLength r' = false).
Proof.
  intros Hn Hs.
  unfold Writer.beginBytes, Writer.beginText, Writer.beginArray,
    Writer.beginMap, kBytes, kText, kArray, kMap.
  repeat split.
  - apply (begin_round_trip 2 n r rest); (assumption || lia).
  - apply (begin_round_trip 3 n r rest); (assumption || lia).
  - apply (begin_round_trip 4 n r rest); (assumption || lia).
  - apply (begin_round_trip 5 n r rest); (assumption || lia).
Qed.

Lemma begin_definite_round_trip_witness :
  exists r',
    readDataType Reader.init (Writer.beginBytes 5 ++ [0x68; 0x65; 0x6C; 0x6C; 0x6F])
    = (DataType.kBytes, r', [0x68; 0x65; 0x6C; 0x6C; 0x6F]) /\
    state_ r' = State.kStart /\ getLength r' = 5 /\
    isIndefiniteLength r' = false.
Proof.
  refine (proj1 (begin_definite_round_trip 5 Reader.init
                   [0x68; 0x65; 0x6C; 0x6C; 0x6F] _ _)).
  - lia.
  - reflexivity.
Defined.

(** X5.  The one-byte preludes of the indefinite-length containers are read
    back as their data type with [isIndefiniteLength] true and length 0, and
    the byte written by [endIndefinite] is read back as [kBreak]. *)
Theorem begin_indefinite_round_trip (r : Reader.t) (rest : stream) :
  state_ r = State.kStart ->
  (exists r',
      readDataType r (Writer.beginIndefiniteBytes ++ rest)
      = (DataType.kBytes, r', rest) /\
      isIndefiniteLength r' = true /\ getLength r' = 0) /\
  (exists r',
      readDataType r (Writer.beginIndefiniteText ++ rest)
      = (DataType.kText, r', rest) /\
      isIndefiniteLength r' = true /\ getLength r' = 0) /\
  (exists r',
      readDataType r (Writer.beginIndefiniteArray ++ rest)
      = (DataType.kArray, r', rest) /\
      isIndefiniteLength r' = true /\ getLength r' = 0) /\
  (exists r',
      readDataType r (Writer.beginIndefiniteMap ++ rest)
      = (DataType.kMap, r', rest) /\
      isIndefiniteLength r' = true /\ getLength r' = 0) /\
  (exists r',
      readDataType r (Writer.endIndefinite ++ rest)
      = (DataType.kBreak, r', rest) /\
      isIndefiniteLength r' = false /\ state_ r' = State.kStart).
Proof.
  intros Hs. destruct r as [st i0 mt ai wa v se]. cbn in Hs. subst st.
  split; [|split; [|split; [|split]]].
  - exists (Reader.mk State.kStart 0x5F 2 31 0 0 SyntaxError.kNoError).
    repeat split.
  - exists (Reader.mk State.kStart 0x7F 3 31 0 0 SyntaxError.kNoError).
    repeat split.
  - exists (Reader.mk State.kStart 0x9F 4 31 0 0 SyntaxError.kNoError).
    repeat split.
  - exists (Reader.mk State.kStart 0xBF 5 31 0 0 SyntaxError.kNoError).
    repeat split.
  - exists (Reader.mk State.kStart 0xFF 7 31 0 0 SyntaxError.kNoError).
    repeat split.
Qed.

Lemma begin_indefinite_round_trip_witness :
  exists r',
    readDataType Reader.init (Writer.beginIndefiniteBytes ++ [0xFF])
    = (DataType.kBytes, r', [0xFF]) /\
    isIndefiniteLength r' = true /\ getLength r' = 0.
Proof.
  exact (proj1 (begin_indefinite_round_trip Reader.init [0xFF] eq_refl)).
Defined.

(** X6.  [writeBoolean b] is read back as [kBoolean] with [getBoolean]
    equal to [b]; [writeNull] and [writeUndefined] are read back as [kNull]
    and [kUndefined]. *)
Theorem writeBoolean_round_trip (b : bool) (r : Reader.t) (rest : stream) :
  state_ r = State.kStart ->
  (exists r',
      readDataType r (Writer.writeBoolean b ++ rest)
      = (DataType.kBoolean, r', rest) /\
      getBoolean r' = b /\ state_ r' = State.kStart) /\
  (exists r',
      readDataType r (Writer.writeNull ++ rest) = (DataType.kNull, r', rest) /\
      getBoolean r' = false /\ state_ r' = State.kStart) /\
  (exists r',
      readDataType r (Writer.writeUndefined ++ rest)
      = (DataType.kUndefined, r', rest) /\
      getBoolean r' = false /\ state_ r' = State.kStart).
Proof.
  intros Hs. destruct r as [st i0 mt ai wa v se]. cbn in Hs. subst st.
  split; [|split].
  - destruct b.
    + exists (Reader.mk State.kStart 0xF5 7 21 0 0 SyntaxError.kNoError).
      repeat split.
    + exists (Reader.mk State.kStart 0xF4 7 20 0 0 SyntaxError.kNoError).
      repeat split.
  - exists (Reader.mk State.kStart 0xF6 7 22 0 0 SyntaxError.kNoError).
    repeat split.
  - exists (Reader.mk State.kStart 0xF7 7 23 0 0 SyntaxError.kNoError).
    repeat split.
Qed.

Lemma writeBoolean_round_trip_witness :
  exists r',
    readDataType Reader.init (Writer.writeBoolean true ++ [])
    = (DataType.kBoolean, r', []) /\
    getBoolean r' = true /\ state_ r' = State.kStart.
Proof.
  exact (proj1 (writeBoolean_round_trip true Reader.init [] eq_refl)).
Defined.

Lemma writeSimpleValue_head (v : Z) :
  0 <= v < 256 -> ~ (24 <= v <= 31) ->
  Writer.writeSimpleValue v
  = definiteHead kSimpleOrFloat (if v <? 24 then v else 24) v.
Proof.
  intros Hv Hres. unfold Writer.writeSimpleValue, definiteHead, write.
  destruct (Z.ltb_spec v 24) as [Hlt|Hge].
  - replace (argBytes v) with 0 by (unfold argBytes; now repeat decide_if).
    cbn [Z.to_nat be_bytes app]. f_equal. apply u8_small.
    unfold kSimpleOrFloat. change (Z.shiftl 7 5) with 224. lia.
  - change (argBytes 24) with 1.
    cbv beta iota zeta delta [Z.to_nat Pos.to_nat Pos.iter_op Nat.add].
    cbn [be_bytes app]. change (2 ^ (8 * Z.of_nat 0)) with 1.
    rewrite Z.div_1_r. unfold kSimpleOrFloat.
    change (u8 (Z.shiftl 7 5 + 24)) with (Z.shiftl 7 5 + 24).
    reflexivity.
Qed.

(** X7.  A simple value [v] below 20 or from 32 to 255 written by
    [writeSimpleValue] is read back as [kSimpleValue] with [getSimpleValue]
    equal to [v].  The values 20 to 23 are not distinct simple values on
    the wire: [writeSimpleValue] writes for them the bytes of false, true,
    null and undefined. *)
Theorem writeSimpleValue_round_trip (v : Z) (r : Reader.t) (rest : stream) :
  state_ r = State.kStart ->
  (0 <= v < 20 \/ 32 <= v < 256 ->
   exists r',
     readDataType r (Writer.writeSimpleValue v ++ rest)
     = (DataType.kSimpleValue, r', rest) /\
     getSimpleValue r' = v /\
     getSyntaxError r' = SyntaxError.kNoError /\
     state_ r' = State.kStart) /\
  Writer.writeSimpleValue 20 = Writer.writeBoolean false /\
  Writer.writeSimpleValue 21 = Writer.writeBoolean true /\
  Writer.writeSimpleValue 22 = Writer.writeNull /\
  Writer.writeSimpleValue 23 = Writer.writeUndefined.
Proof.
  intros Hs. split; [|repeat split].
  intros Hv.
  rewrite writeSimpleValue_head by lia.
  rewrite readDataType_definite.
  - assert (E : determineType kSimpleOrFloat (if v <? 24 then v else 24) v
                = (DataType.kSimpleValue, v, SyntaxError.kNoError)).
    { unfold determineType, kSimpleOrFloat.
      destruct (Z.ltb_spec v 24); repeat decide_if; reflexivity. }
    rewrite E. eexists. split; [reflexivity|].
    unfold getSimpleValue, kSimpleOrFloat.
    cbn [majorType_ value_ Z.eqb Pos.eqb]. rewrite u8_small by lia.
    repeat split.
  - assumption.
  - unfold kSimpleOrFloat. lia.
  - destruct (Z.ltb_spec v 24); [left; lia|right; cbn; lia].
Qed.

Lemma writeSimpleValue_round_trip_witness :
  exists r',
    readDataType Reader.init (Writer.writeSimpleValue 100 ++ [])
    = (DataType.kSimpleValue, r', []) /\
    getSimpleValue r' = 100 /\
    getSyntaxError r' = SyntaxError.kNoError /\
    state_ r' = State.kStart.
Proof.
  refine (proj1 (writeSimpleValue_round_trip 100 Reader.init [] eq_refl) _).
  right. lia.
Defined.

Lemma writeFloat_head (val : Z) :
  Writer.writeFloat val = definiteHead kSimpleOrFloat 26 val.
Proof.
  unfold Writer.writeFloat, definiteHead, write, kSimpleOrFloat.
  change (argBytes 26) with 4.
  cbv beta iota zeta delta [Z.to_nat Pos.to_nat Pos.iter_op Nat.add].
  cbn [be_bytes app].
  change (u8 (Z.shiftl 7 5 + 26)) with (Z.shiftl 7 5 + 26).
  unfold u8. rewrite !Z.shiftr_div_pow2 by lia.
  change (2 ^ (8 * Z.of_nat 0)) with 1. rewrite Z.div_1_r. reflexivity.
Qed.

Lemma writeDouble_head (val : Z) :
  Writer.writeDouble val = definiteHead kSimpleOrFloat 27 val.
Proof.
  unfold Writer.writeDouble, definiteHead, write, kSimpleOrFloat.
  change (argBytes 27) with 8.
  cbv beta iota zeta delta [Z.to_nat Pos.to_nat Pos.iter_op Nat.add].
  cbn [be_bytes app].
  change (u8 (Z.shiftl 7 5 + 27)) with (Z.shiftl 7 5 + 27).
  unfold u8. rewrite !Z.shiftr_div_pow2 by lia.
  change (2 ^ (8 * Z.of_nat 0)) with 1. rewrite Z.div_1_r. reflexivity.
Qed.

(** X8.  Floating-point numbers travel bit-exactly: the 32-bit pattern
    written by [writeFloat] is read back as [kFloat] with that pattern as
    raw value, and the 64-bit pattern written by [writeDouble] as [kDouble]
    with that pattern as raw value; [getDouble] is then the number that the
    pattern denotes. *)
Theorem writeFloat_round_trip (val : Z) (r : Reader.t) (rest : stream) :
  state_ r = State.kStart ->
  (0 <= val < 2 ^ 32 ->
   exists r',
     readDataType r (Writer.writeFloat val ++ rest) = (DataType.kFloat, r', rest) /\
     getRawValue r' = val /\
     getDouble r' = CMath.memcpy_ieee754 23 8 val /\
     state_ r' = State.kStart) /\
  (0 <= val < 2 ^ 64 ->
   exists r',
     readDataType r (Writer.writeDouble val ++ rest) = (DataType.kDouble, r', rest) /\
     getRawValue r' = val /\
     getDouble r' = CMath.memcpy_ieee754 52 11 val /\
     state_ r' = State.kStart).
Proof.
  intros Hs. split; intros Hv.
  - rewrite writeFloat_head, readDataType_definite;
      [|assumption|unfold kSimpleOrFloat; lia|right; cbn; lia].
    eexists. split; [reflexivity|]. split; [reflexivity|].
    split; [|reflexivity].
    unfold getDouble, kSimpleOrFloat. cbn [majorType_ addlInfo_ value_].
    cbn [Z.eqb Pos.eqb negb]. unfold u32. now rewrite Z.mod_small by lia.
  - rewrite writeDouble_head, readDataType_definite;
      [|assumption|unfold kSimpleOrFloat; lia|right; cbn; lia].
    eexists. split; [reflexivity|]. split; [reflexivity|].
    split; reflexivity.
Qed.

(** The property on the pattern [0x3FC00000] of the float 1.5. *)
Lemma writeFloat_round_trip_witness :
  exists r',
    readDataType Reader.init (Writer.writeFloat 0x3FC00000 ++ [])
    = (DataType.kFloat, r', []) /\
    getRawValue r' = 0x3FC00000 /\
    getDouble r' = CMath.memcpy_ieee754 23 8 0x3FC00000 /\
    state_ r' = State.kStart.
Proof.
  refine (proj1 (writeFloat_round_trip 0x3FC00000 Reader.init [] eq_refl) _).
  lia.
Defined.

(** ** The outcomes of a call of the reader *)

Lemma determineType_not_eos (mt ai v : Z) :
  fst (fst (determineType mt ai v)) <> DataType.kEOS.
Proof. unfold determineType. repeat split_if; discriminate. Qed.

Lemma run_determine (r : Reader.t) (s : stream) :
  state_ r = State.kDetermineType ->
  exists d r',
    readDataType r s = (d, r', s) /\ d <> DataType.kEOS /\
    state_ r' = State.kStart.
Proof.
  intros Hs. rewrite step_determine by assumption.
  pose proof (determineType_not_eos (majorType_ r) (addlInfo_ r) (value_ r)) as H.
  destruct (determineType _ _ _) as [[d v] e]. cbn [fst] in H.
  eexists. eexists. split; [reflexivity|]. split; [assumption|reflexivity].
Qed.

Lemma run_readValue (r : Reader.t) (s : stream) :
  state_ r = State.kReadValue ->
  exists d r',
    readDataType r s = (d, r', snd (readValue (addlInfo_ r) s)) /\
    d <> DataType.kEOS /\ state_ r' = State.kStart.
Proof.
  intros Hs. rewrite step_read by assumption.
  apply run_determine. reflexivity.
Qed.

Lemma readValue_consumes (ai : Z) (s : stream) :
  argBytes ai <= available s ->
  snd (readValue ai s) = skipn (Z.to_nat (argBytes ai)) s.
Proof.
  unfold argBytes, readValue, available.
  destruct (ai =? 24).
  { destruct s as [|b0 s]; cbn [length]; [lia|]. reflexivity. }
  destruct (ai =? 25).
  { destruct s as [|b1 [|b0 s]]; cbn [length]; try lia. reflexivity. }
  destruct (ai =? 26).
  { destruct s as [|b3 [|b2 [|b1 [|b0 s]]]]; cbn [length]; try lia.
    reflexivity. }
  destruct (ai =? 27).
  { destruct s as [|b7 [|b6 [|b5 [|b4 [|b3 [|b2 [|b1 [|b0 s]]]]]]]];
      cbn [length]; try lia.
    reflexivity. }
  intros _. repeat split_if; reflexivity.
Qed.

Lemma outcome_additionalInfo (r : Reader.t) (s : stream) :
  state_ r = State.kAdditionalInfo ->
  exists d r' s',
    readDataType r s = (d, r', s') /\ outcome r s d r' s' /\
    (starved r s = false -> s' = skipn (Z.to_nat (argBytes (addlInfo_ r))) s).
Proof.
  intros Hs.
  assert (Hst : starved r s = (available s <? argBytes (addlInfo_ r)))
    by (unfold starved; now rewrite Hs).
  destruct (Z_le_gt_dec 24 (addlInfo_ r)) as [H24|H24];
    [destruct (Z_le_gt_dec (addlInfo_ r) 27) as [H27|H27]|].
  - rewrite step_addl_wait by (assumption || lia).
    set (r1 := with_state State.kWaitAvailable
                 (with_waitAvailable (argBytes (addlInfo_ r)) r)).
    assert (Ha1 : addlInfo_ r1 = addlInfo_ r) by (destruct r; reflexivity).
    assert (Hw1 : waitAvailable_ r1 = argBytes (addlInfo_ r))
      by (destruct r; reflexivity).
    destruct (Z.ltb_spec (available s) (argBytes (addlInfo_ r))) as [Hlt|Hge].
    + rewrite step_wait_eos by (try reflexivity; lia).
      exists DataType.kEOS, r1, s. split; [reflexivity|]. split.
      * apply outcome_starved; [assumption|now right].
      * congruence.
    + rewrite step_wait_ready by (try reflexivity; lia).
      destruct (run_readValue (with_state State.kReadValue r1) s eq_refl)
        as (d & r' & E & Hd & Hk).
      replace (addlInfo_ (with_state State.kReadValue r1)) with (addlInfo_ r)
        in E by (destruct r; reflexivity).
      rewrite E, readValue_consumes by lia.
      do 3 eexists. split; [reflexivity|]. split; [|reflexivity].
      now apply outcome_item.
  - assert (Hab : argBytes (addlInfo_ r) = 0)
      by (unfold argBytes; repeat decide_if; reflexivity).
    assert (Hns : starved r s = false).
    { rewrite Hst, Hab. apply Z.ltb_ge. apply available_nonneg. }
    assert (Hcases : 28 <= addlInfo_ r <= 30 \/
                     (addlInfo_ r = 31 /\
                      (majorType_ r = 0 \/ majorType_ r = 1 \/ majorType_ r = 6)) \/
                     (31 < addlInfo_ r \/
                      (addlInfo_ r = 31 /\ majorType_ r <> 0 /\
                       majorType_ r <> 1 /\ majorType_ r <> 6))) by lia.
    rewrite Hab. cbn [Z.to_nat skipn].
    destruct Hcases as [He|[[He Hm]|Hr]].
    + rewrite step_addl_error by assumption.
      do 3 eexists. split; [reflexivity|]. split; [|reflexivity].
      apply outcome_stuck; [assumption|destruct r; assumption|].
      destruct r; cbn in *; lia.
    + rewrite step_addl_not_indefinite by assumption.
      do 3 eexists. split; [reflexivity|]. split; [|reflexivity].
      apply outcome_stuck; [assumption|destruct r; assumption|].
      destruct r; cbn in *; lia.
    + rewrite step_addl_read by (assumption || lia).
      destruct (run_readValue
                  (with_state State.kReadValue (with_waitAvailable 0 r)) s
                  eq_refl) as (d & r' & E & Hd & Hk).
      replace (addlInfo_ (with_state State.kReadValue (with_waitAvailable 0 r)))
        with (addlInfo_ r) in E by (destruct r; reflexivity).
      rewrite E, readValue_consumes by (rewrite Hab; apply available_nonneg).
      rewrite Hab. cbn [Z.to_nat skipn].
      do 3 eexists. split; [reflexivity|]. split; [|reflexivity].
      now apply outcome_item.
  - assert (Hab : argBytes (addlInfo_ r) = 0)
      by (unfold argBytes; repeat decide_if; reflexivity).
    assert (Hns : starved r s = false).
    { rewrite Hst, Hab. apply Z.ltb_ge. apply available_nonneg. }
    rewrite step_addl_read by (assumption || lia).
    destruct (run_readValue
                (with_state State.kReadValue (with_waitAvailable 0 r)) s
                eq_refl) as (d & r' & E & Hd & Hk).
    replace (addlInfo_ (with_state State.kReadValue (with_waitAvailable 0 r)))
      with (addlInfo_ r) in E by (destruct r; reflexivity).
    rewrite E, readValue_consumes by (rewrite Hab; apply available_nonneg).
    do 3 eexists. split; [reflexivity|]. split; [|reflexivity].
    now apply outcome_item.
Qed.

Lemma outcome_transfer (r1 r2 : Reader.t) (s1 s2 : stream)
      (d : DataType.t) (r' : Reader.t) (s' : stream) :
  starved r1 s1 = starved r2 s2 ->
  outcome r1 s1 d r' s' -> outcome r2 s2 d r' s'.
Proof.
  intros E H. destruct H; rewrite E in *.
  - now apply outcome_starved.
  - now apply outcome_stuck.
  - now apply outcome_item.
Qed.

Lemma readDataType_outcome (r : Reader.t) (s : stream) :
  exists d r' s', readDataType r s = (d, r', s') /\ outcome r s d r' s'.
Proof.
  destruct (state_ r) eqn:Hs.
  - destruct s as [|ib t].
    + rewrite step_start_empty by assumption.
      do 3 eexists. split; [reflexivity|].
      apply outcome_starved; [unfold starved; now rewrite Hs|now left].
    + rewrite step_start by assumption.
      destruct (outcome_additionalInfo
                  (Reader.mk State.kAdditionalInfo (u8 ib) (Z.shiftr (u8 ib) 5)
                             (Z.land (u8 ib) 31) 0 0 SyntaxError.kNoError)
                  t eq_refl) as (d & r' & s' & E & Ho & _).
      exists d, r', s'. split; [exact E|].
      eapply outcome_transfer; [|exact Ho].
      unfold starved. now rewrite Hs.
  - destruct (outcome_additionalInfo r s Hs) as (d & r' & s' & E & Ho & _).
    eauto.
  - assert (Hst : starved r s = (available s <? waitAvailable_ r))
      by (unfold starved; now rewrite Hs).
    destruct (Z.ltb_spec (available s) (waitAvailable_ r)) as [Hlt|Hge].
    + rewrite step_wait_eos by assumption.
      do 3 eexists. split; [reflexivity|].
      apply outcome_starved; [assumption|now right].
    + rewrite step_wait_ready by assumption.
      destruct (run_readValue (with_state State.kReadValue r) s eq_refl)
        as (d & r' & E & Hd & Hk).
      rewrite E. do 3 eexists. split; [reflexivity|].
      now apply outcome_item.
  - destruct (run_readValue r s Hs) as (d & r' & E & Hd & Hk).
    rewrite E. do 3 eexists. split; [reflexivity|].
    apply outcome_item; [unfold starved; now rewrite Hs|assumption..].
  - destruct (run_determine r s Hs) as (d & r' & E & Hd & Hk).
    rewrite E. do 3 eexists. split; [reflexivity|].
    apply outcome_item; [unfold starved; now rewrite Hs|assumption..].
Qed.

(** X9.  [readDataType] returns [kEOS] exactly when the stream cannot
    supply the bytes the head in progress still needs: with the initial
    byte and the announced argument bytes available it never reports end of
    stream, from whatever record it is called. *)
Theorem readDataType_eos_iff (r : Reader.t) (s : stream) :
  fst (fst (readDataType r s)) = DataType.kEOS <-> starved r s = true.
Proof.
  destruct (readDataType_outcome r s) as (d & r' & s' & E & Ho).
  rewrite E. cbn [fst]. destruct Ho as [r' s' Hst _|r' s' Hst _ _|d r' s' Hst Hd _].
  - tauto.
  - rewrite Hst. split; discriminate.
  - rewrite Hst. split; [contradiction|discriminate].
Qed.

(** X10.  After a call, from whatever record, the state machine rests in
    [kStart], [kWaitAvailable] or [kAdditionalInfo], never in
    [kReadValue] or [kDetermineType].  It rests in [kWaitAvailable] only
    after [kEOS] and in [kAdditionalInfo] only after a syntax error on
    additional information 28 to 31; every call that reports a data item
    ends in [kStart]. *)
Theorem readDataType_resting_state (r : Reader.t) (s : stream) :
  (state_ (snd (fst (readDataType r s))) = State.kStart \/
   (state_ (snd (fst (readDataType r s))) = State.kWaitAvailable /\
    fst (fst (readDataType r s)) = DataType.kEOS) \/
   (state_ (snd (fst (readDataType r s))) = State.kAdditionalInfo /\
    fst (fst (readDataType r s)) = DataType.kSyntaxError /\
    28 <= addlInfo_ (snd (fst (readDataType r s))) <= 31)) /\
  (fst (fst (readDataType r s)) <> DataType.kEOS ->
   fst (fst (readDataType r s)) <> DataType.kSyntaxError ->
   state_ (snd (fst (readDataType r s))) = State.kStart).
Proof.
  destruct (readDataType_outcome r s) as (d & r' & s' & E & Ho).
  rewrite E. cbn [fst snd].
  destruct Ho as [r' s' _ Hk|r' s' _ Hk Hai|d r' s' _ Hd Hk].
  - split; [|congruence]. destruct Hk; auto.
  - split; [|congruence]. auto.
  - split; auto.
Qed.

(** X11.  Called in [kStart] on a non-empty stream, [readDataType] takes
    the initial byte and, unless it reports [kEOS], exactly the argument
    bytes that the additional information announces: it never reads into
    the payload or the next item, also when it reports a syntax error.
    When it reports [kEOS] only the initial byte has been taken. *)
Theorem readDataType_consumes_head (r : Reader.t) (ib : Z) (t : stream) :
  state_ r = State.kStart ->
  snd (readDataType r (ib :: t))
  = if starved r (ib :: t) then t
    else skipn (Z.to_nat (argBytes (Z.land (u8 ib) 31))) t.
Proof.
  intros Hs. rewrite step_start by assumption.
  set (rA := Reader.mk State.kAdditionalInfo (u8 ib) (Z.shiftr (u8 ib) 5)
                       (Z.land (u8 ib) 31) 0 0 SyntaxError.kNoError).
  assert (Hst : starved r (ib :: t) = starved rA t)
    by (unfold starved; now rewrite Hs).
  rewrite Hst.
  destruct (outcome_additionalInfo rA t eq_refl) as (d & r' & s' & E & Ho & Hc).
  destruct (starved rA t) eqn:Hstarved.
  - unfold starved in Hstarved. cbn [state_ rA addlInfo_] in Hstarved.
    apply Z.ltb_lt in Hstarved.
    destruct (shortRead_additionalInfo rA t [] eq_refl Hstarved) as (E1 & _).
    now rewrite E1.
  - rewrite E. cbn [snd]. now apply Hc.
Qed.

(** The property on the head [19 03 E8] followed by the item [01]. *)
Lemma readDataType_consumes_head_witness :
  snd (readDataType Reader.init (0x19 :: [0x03; 0xE8; 0x01]))
  = if starved Reader.init (0x19 :: [0x03; 0xE8; 0x01]) then [0x03; 0xE8; 0x01]
    else skipn (Z.to_nat (argBytes (Z.land (u8 0x19) 31))) [0x03; 0xE8; 0x01].
Proof.
  apply (readDataType_consumes_head Reader.init 0x19 [0x03; 0xE8; 0x01]).
  reflexivity.
Defined.

(** ** Negative integers beyond the signed range *)

Lemma getInt_value (r : Reader.t) :
  majorType_ r = kNegativeInt ->
  0 <= value_ r < 2 ^ 64 ->
  getInt r = if value_ r <? 2 ^ 63 then - 1 - value_ r
             else 2 ^ 64 - 1 - value_ r.
Proof.
  intros Hm Hv. unfold getInt. rewrite Hm, Z.eqb_refl.
  destruct (Z.ltb_spec (value_ r) (2 ^ 63)) as [Hlt|Hge].
  - rewrite (s64_small (value_ r)) by lia. apply s64_small. lia.
  - assert (E : s64 (value_ r) = value_ r - 2 ^ 64).
    { unfold s64.
      replace ((value_ r + 2 ^ 63) mod 2 ^ 64) with (value_ r - 2 ^ 63); [lia|].
      apply (Z.mod_unique _ (2 ^ 64) 1); lia. }
    rewrite E. rewrite s64_small; lia.
Qed.

(** X12.  Every 64-bit argument is admitted for a negative integer on the
    wire.  For an argument [n] below [2^63] [getInt] returns [-1 - n]; for
    [n >= 2^63], where [-1 - n] does not fit [int64_t], it returns the
    non-negative number [2^64 - 1 - n] instead.  On an unsigned integer
    [getInt] returns 0, whatever the argument. *)
Theorem getInt_negative_range
        (r : Reader.t) (ai n : Z) (rest : stream) :
  state_ r = State.kStart ->
  headValid ai n ->
  (exists r',
      readDataType r (definiteHead kNegativeInt ai n ++ rest)
      = (DataType.kNegativeInt, r', rest) /\
      getSyntaxError r' = SyntaxError.kNoError /\
      (n < 2 ^ 63 -> getInt r' = - 1 - n) /\
      (2 ^ 63 <= n -> getInt r' = 2 ^ 64 - 1 - n /\ 0 <= getInt r')) /\
  (exists r',
      readDataType r (definiteHead kUnsignedInt ai n ++ rest)
      = (DataType.kUnsignedInt, r', rest) /\
      getUnsignedInt r' = n /\ getInt r' = 0).
Proof.
  intros Hs Hv. pose proof (headValid_range ai n Hv) as Hn.
  split.
  - unfold kNegativeInt.
    rewrite readDataType_definite by (assumption || lia).
    rewrite determineType_major by lia.
    eexists. split; [reflexivity|]. split; [reflexivity|].
    match goal with
    | |- context [getInt ?x] =>
        pose proof (getInt_value x eq_refl Hn) as E; cbn [value_] in E
    end.
    rewrite E. destruct (Z.ltb_spec n (2 ^ 63)); split; intros; lia.
  - unfold kUnsignedInt.
    rewrite readDataType_definite by (assumption || lia).
    rewrite determineType_major by lia.
    eexists. split; [reflexivity|]. split; reflexivity.
Qed.

(** The property on [3B FF FF FF FF FF FF FF FF], the negative integer
    [-2^64]: [getInt] returns 0. *)
Lemma getInt_negative_range_witness :
  exists r',
    readDataType Reader.init (definiteHead kNegativeInt 27 (2 ^ 64 - 1) ++ [])
    = (DataType.kNegativeInt, r', []) /\
    getSyntaxError r' = SyntaxError.kNoError /\
    (2 ^ 64 - 1 < 2 ^ 63 -> getInt r' = - 1 - (2 ^ 64 - 1)) /\
    (2 ^ 63 <= 2 ^ 64 - 1 ->
     getInt r' = 2 ^ 64 - 1 - (2 ^ 64 - 1) /\ 0 <= getInt r').
Proof.
  refine (proj1 (getInt_negative_range Reader.init 27 (2 ^ 64 - 1) [] eq_refl _)).
  right. cbn. lia.
Defined.

(** ** Results of the checker *)

Lemma major_range (ib : Z) : 0 <= Z.shiftr (u8 ib) 5 <= 7.
Proof.
  pose proof (u8_range ib) as H.
  rewrite Z.shiftr_div_pow2 by lia. change (2 ^ 5) with 32.
  split; [apply Z.div_pos; lia|].
  assert (u8 ib / 32 < 8) by (apply Z.div_lt_upper_bound; lia). lia.
Qed.

Lemma readHead_indefinite_inv (majorType ai : Z) (s s1 : stream) :
  readHead majorType ai s = HeadIndefinite s1 -> ai = 31 /\ s1 = s.
Proof.
  unfold readHead.
  repeat match goal with
         | |- context [let (_, _) := ?p in _] => destruct p
         | |- context [if ?c then _ else _] => destruct c eqn:?
         end; try discriminate.
  intros [= <-]. bool_to_Z. auto.
Qed.

Lemma break_byte (x : Z) :
  0 <= x < 256 -> Z.shiftr x 5 = 7 -> u8 (Z.land x 31) = 31 -> x = 255.
Proof.
  intros Hx Hm Ha. rewrite Z.shiftr_div_pow2 in Hm by lia.
  change 31 with (Z.ones 5) in Ha at 1. rewrite Z.land_ones in Ha by lia.
  change (2 ^ 5) with 32 in *.
  pose proof (Z.mod_pos_bound x 32 eq_refl) as Hb.
  rewrite u8_small in Ha by lia.
  pose proof (Z.div_mod x 32 ltac:(lia)). lia.
Qed.

(** X13.  The checker returns [-1], [-2] or a major type from 0 to 7.  It
    returns [-2] only when called with [breakable] set and only on the Break
    byte [0xFF], of which it consumes just that byte; a result from 0 to 7
    is the major type of the initial byte of the item. *)
Theorem isWellFormed_result
        (fuel : nat) (breakable : bool) (s s' : stream) (t : Z) :
  isWellFormed fuel breakable s = Some (t, s') ->
  t = -1 \/
  (t = -2 /\ breakable = true /\ exists ib, s = ib :: s' /\ u8 ib = 0xFF) \/
  (0 <= t <= 7 /\ exists ib s0, s = ib :: s0 /\ Z.shiftr (u8 ib) 5 = t).
Proof.
  intros H.
  destruct (Z_le_gt_dec 0 t) as [Hpos|Hneg].
  { right. right.
    destruct (isWellFormed_major fuel breakable s s' t H Hpos)
      as (ib & s0 & -> & Hm).
    pose proof (major_range ib). split; [lia|]. eauto. }
  destruct (Z.eq_dec t (-1)) as [E1|N1]; [now left|].
  right. left.
  destruct fuel as [|fuel]; [discriminate|].
  cbn [isWellFormed] in H.
  destruct s as [|ib s0]; [cbn in H; injection H as <- <-; lia|].
  cbv beta iota zeta delta [read] in H.
  pose proof (u8_range ib) as Hib.
  replace (u8 ib <? 0) with false in H by (symmetry; bool_to_Z; lia).
  rewrite (u8_small (u8 ib)) in H by assumption.
  pose proof (major_range ib) as Hmaj.
  destruct (readHead _ _ s0) as [s1|s1|val s1] eqn:Eh.
  - injection H as <- <-. lia.
  - apply readHead_indefinite_inv in Eh. destruct Eh as [Hai ->].
    revert H. unfold isIndefiniteWellFormed, finish.
    repeat match goal with
           | |- context [match ?l with Some _ => _ | None => _ end] =>
               destruct l as [[[] ?]|]
           | |- context [if ?c then _ else _] => destruct c eqn:?
           end; intros [= <- <-]; try lia.
    all: bool_to_Z; unfold kSimpleOrFloat in *;
      repeat split; exists ib; split; [reflexivity|];
      apply break_byte; assumption.
  - revert H. unfold checkContent, finish.
    repeat match goal with
           | |- context [match ?l with Some _ => _ | None => _ end] =>
               destruct l as [[? ?]|]
           | |- context [let (_, _) := ?p in _] => destruct p as [[] ?]
           | |- context [if ?c then _ else _] => destruct c
           end; intros [= <- <-]; lia.
Qed.

(** The property on the Break byte inside an indefinite-length container. *)
Lemma isWellFormed_result_witness :
  -2 = -1 \/
  (-2 = -2 /\ true = true /\ exists ib, [0xFF; 0x01] = ib :: [0x01] /\ u8 ib = 0xFF) \/
  (0 <= -2 <= 7 /\
   exists ib s0, [0xFF; 0x01] = ib :: s0 /\ Z.shiftr (u8 ib) 5 = -2).
Proof.
  apply (isWellFormed_result 1 true [0xFF; 0x01] [0x01] (-2)).
  reflexivity.
Defined.

(** ** The writer's output under the checker *)

Lemma writeTypedInt_definiteHead (major u : Z) :
  0 <= major <= 7 ->
  0 <= u < 2 ^ 64 ->
  Writer.writeTypedInt (Z.shiftl major 5) u
  = definiteHead major (widthCode (chosenWidth u) u) u /\
  headValid (widthCode (chosenWidth u) u) u.
Proof.
  intros Hm Hu. split.
  - rewrite writeTypedInt_bytes. unfold definiteHead.
    pose proof (widthCode_range u (proj1 Hu)) as Hc.
    rewrite argBytes_widthCode, Nat2Z.id by lia. f_equal.
    apply u8_small. rewrite Z.shiftl_mul_pow2 by lia.
    change (2 ^ 5) with 32. lia.
  - unfold headValid, chosenWidth.
    repeat split_if; bool_to_Z; cbn [widthCode];
      [left; lia|right; cbn; lia..].
Qed.

Lemma checkContent_scalar (item : bool -> stream -> checked) (k : nat)
      (major n : Z) (rest : stream) :
  major = 0 \/ major = 1 \/ major = 7 ->
  checkContent item k major n rest = Some (major, rest).
Proof.
  intros Hm. unfold checkContent. now repeat decide_if.
Qed.

Lemma isWellFormed_scalar (fuel : nat) (breakable : bool)
      (major ai n : Z) (rest : stream) :
  major = 0 \/ major = 1 \/ major = 7 ->
  headValid ai n ->
  ~ (major = kSimpleOrFloat /\ ai = 24 /\ n < 32) ->
  isWellFormed (S fuel) breakable (definiteHead major ai n ++ rest)
  = Some (major, rest).
Proof.
  intros Hm Hv Hs.
  rewrite isWellFormed_definite by (assumption || lia).
  now apply checkContent_scalar.
Qed.

(** X14.  What the Writer emits for an unsigned or signed integer, a
    boolean, null, undefined, a float pattern, a double pattern, or a simple
    value outside 24..31 is accepted by the checker, which returns the major
    type and consumes exactly the bytes written. *)
Theorem writer_scalars_well_formed
        (fuel : nat) (breakable : bool) (rest : stream) :
  (forall u, 0 <= u < 2 ^ 64 ->
     isWellFormed (S fuel) breakable (Writer.writeUnsignedInt u ++ rest)
     = Some (kUnsignedInt, rest)) /\
  (forall i, - 2 ^ 63 <= i < 2 ^ 63 ->
     isWellFormed (S fuel) breakable (Writer.writeInt i ++ rest)
     = Some (if i <? 0 then kNegativeInt else kUnsignedInt, rest)) /\
  (forall b,
     isWellFormed (S fuel) breakable (Writer.writeBoolean b ++ rest)
     = Some (kSimpleOrFloat, rest)) /\
  isWellFormed (S fuel) breakable (Writer.writeNull ++ rest)
  = Some (kSimpleOrFloat, rest) /\
  isWellFormed (S fuel) breakable (Writer.writeUndefined ++ rest)
  = Some (kSimpleOrFloat, rest) /\
  (forall v, 0 <= v < 256 -> ~ (24 <= v <= 31) ->
     isWellFormed (S fuel) breakable (Writer.writeSimpleValue v ++ rest)
     = Some (kSimpleOrFloat, rest)) /\
  (forall val, 0 <= val < 2 ^ 32 ->
     isWellFormed (S fuel) breakable (Writer.writeFloat val ++ rest)
     = Some (kSimpleOrFloat, rest)) /\
  (forall val, 0 <= val < 2 ^ 64 ->
     isWellFormed (S fuel) breakable (Writer.writeDouble val ++ rest)
     = Some (kSimpleOrFloat, rest)).
Proof.
  split; [|split; [|split; [|split; [|split; [|split; [|split]]]]]].
  - intros u Hu. unfold Writer.writeUnsignedInt, kUnsignedInt.
    destruct (writeTypedInt_definiteHead 0 u) as [-> Hv]; [lia|lia|].
    apply isWellFormed_scalar; [lia|assumption|unfold kSimpleOrFloat; lia].
  - intros i Hi. rewrite writeInt_cases by assumption.
    unfold kNegativeInt, kUnsignedInt.
    destruct (Z.ltb_spec i 0).
    + destruct (writeTypedInt_definiteHead 1 (-1 - i)) as [-> Hv]; [lia|lia|].
      apply isWellFormed_scalar; [lia|assumption|unfold kSimpleOrFloat; lia].
    + destruct (writeTypedInt_definiteHead 0 i) as [-> Hv]; [lia|lia|].
      apply isWellFormed_scalar; [lia|assumption|unfold kSimpleOrFloat; lia].
  - intros []; reflexivity.
  - reflexivity.
  - reflexivity.
  - intros v Hv Hres. rewrite writeSimpleValue_head by assumption.
    apply isWellFormed_scalar.
    + unfold kSimpleOrFloat. lia.
    + destruct (Z.ltb_spec v 24); [left; lia|right; cbn; lia].
    + destruct (Z.ltb_spec v 24); lia.
  - intros val Hval. rewrite writeFloat_head.
    apply isWellFormed_scalar;
      [unfold kSimpleOrFloat; lia|right; cbn; lia|lia].
  - intros val Hval. rewrite writeDouble_head.
    apply isWellFormed_scalar;
      [unfold kSimpleOrFloat; lia|right; cbn; lia|lia].
Qed.

Lemma writer_scalars_well_formed_witness :
  isWellFormed 1 false (Writer.writeInt (-1000) ++ [0xFF])
  = Some (if -1000 <? 0 then kNegativeInt else kUnsignedInt, [0xFF]).
Proof.
  refine (proj1 (proj2 (writer_scalars_well_formed 0 false [0xFF])) (-1000) _).
  lia.
Defined.

(** ** Definite-length strings *)

Lemma readRaw_spec (s : stream) :
  forall n, 0 <= n ->
    readRaw n s = if n <=? available s
                  then (true, skipn (Z.to_nat n) s) else (false, []).
Proof.
  induction s as [|b s IH]; intros n Hn; cbn [readRaw].
  - change (available []) with 0.
    destruct (Z.ltb_spec 0 n), (Z.leb_spec n 0); try lia; try reflexivity.
    replace n with 0 by lia. reflexivity.
  - rewrite available_cons. pose proof (available_nonneg s) as Ha.
    destruct (Z.ltb_spec 0 n) as [Hpos|Hz].
    + rewrite IH by lia.
      replace (Z.to_nat n) with (S (Z.to_nat (n - 1))) by lia.
      cbn [skipn].
      destruct (Z.leb_spec (n - 1) (available s)),
               (Z.leb_spec n (1 + available s)); try lia; reflexivity.
    + replace n with 0 by lia.
      replace (0 <=? 1 + available s) with true by (symmetry; bool_to_Z; lia).
      reflexivity.
Qed.

Lemma checkContent_string (item : bool -> stream -> checked) (k : nat)
      (major n : Z) (s : stream) :
  major = kBytes \/ major = kText ->
  0 <= n < 2 ^ 64 ->
  checkContent item k major n s
  = if n <=? available s
    then Some (major, skipn (Z.to_nat n) s)
    else Some (-1, []).
Proof.
  intros Hm Hn. unfold kBytes, kText in Hm. unfold checkContent.
  replace ((major =? 2) || (major =? 3)) with true
    by (symmetry; bool_to_Z; lia).
  assert (E : (if n <=? UINT32_MAX then readRaw (u32 n) s else readRaw n s)
              = readRaw n s).
  { destruct (Z.leb_spec n UINT32_MAX) as [Hs|Hs]; [|reflexivity].
    unfold u32, UINT32_MAX in *. now rewrite Z.mod_small by lia. }
  rewrite E, readRaw_spec by lia.
  now destruct (n <=? available s).
Qed.

(** X15.  On a definite-length byte or text string of length [n] the
    checker skips exactly [n] bytes of content and returns the major type;
    when fewer than [n] bytes follow the head it returns [-1], having read
    the stream to its end. *)
Theorem definite_string_well_formed
        (fuel : nat) (breakable : bool) (major ai n : Z) (s : stream) :
  major = kBytes \/ major = kText ->
  headValid ai n ->
  isWellFormed (S fuel) breakable (definiteHead major ai n ++ s)
  = if n <=? available s
    then Some (major, skipn (Z.to_nat n) s)
    else Some (-1, []).
Proof.
  intros Hm Hv. pose proof (headValid_range ai n Hv) as Hn.
  rewrite isWellFormed_definite.
  - now apply checkContent_string.
  - unfold kBytes, kText in Hm. lia.
  - assumption.
  - unfold kBytes, kText, kSimpleOrFloat in *. lia.
Qed.

(** The property on [42 01 02 03] (two bytes of content, one byte left)
    and on [42 01] (truncated). *)
Lemma definite_string_well_formed_witness :
  isWellFormed 1 false (definiteHead kBytes 2 2 ++ [0x01; 0x02; 0x03])
  = (if 2 <=? available [0x01; 0x02; 0x03]
     then Some (kBytes, skipn (Z.to_nat 2) [0x01; 0x02; 0x03])
     else Some (-1, [])).
Proof.
  apply (definite_string_well_formed 0 false kBytes 2 2 [0x01; 0x02; 0x03]).
  - left. reflexivity.
  - left. lia.
Defined.

(** X16.  A byte or text string written as [beginBytes] or [beginText] of
    the buffer's length followed by [writeBytes] of the buffer is accepted
    by the checker, which consumes exactly what was written. *)
Theorem written_string_well_formed
        (fuel : nat) (breakable : bool) (buffer : list Z) (rest : stream) :
  Z.of_nat (length buffer) < 2 ^ 32 ->
  isWellFormed (S fuel) breakable
    (Writer.beginBytes (Z.of_nat (length buffer)) ++
     Writer.writeBytes buffer ++ rest)
  = Some (kBytes, rest) /\
  isWellFormed (S fuel) breakable
    (Writer.beginText (Z.of_nat (length buffer)) ++
     Writer.writeBytes buffer ++ rest)
  = Some (kText, rest).
Proof.
  intros Hlen.
  assert (Hbytes : forall major, major = kBytes \/ major = kText ->
    isWellFormed (S fuel) breakable
      (Writer.writeTypedInt (Z.shiftl major 5) (Z.of_nat (length buffer)) ++
       Writer.writeBytes buffer ++ rest)
    = Some (major, rest)).
  { intros major Hm.
    destruct (writeTypedInt_definiteHead major (Z.of_nat (length buffer)))
      as [-> Hv]; [unfold kBytes, kText in Hm; lia|lia|].
    rewrite isWellFormed_definite;
      [|unfold kBytes, kText in Hm; lia|assumption
       |unfold kBytes, kText, kSimpleOrFloat in *; lia].
    rewrite checkContent_string by (assumption || lia).
    unfold Writer.writeBytes, available.
    rewrite length_app, length_map.
    replace (_ <=? _) with true by (symmetry; bool_to_Z; lia).
    rewrite Nat2Z.id, <- (length_map u8 buffer), skipn_app, skipn_all.
    now rewrite Nat.sub_diag. }
  split; [apply (Hbytes kBytes)|apply (Hbytes kText)]; auto.
Qed.

Lemma written_string_well_formed_witness :
  isWellFormed 1 false
    (Writer.beginBytes (Z.of_nat (length [0x68; 0x69])) ++
     Writer.writeBytes [0x68; 0x69] ++ [0xF6])
  = Some (kBytes, [0xF6]).
Proof.
  refine (proj1 (written_string_well_formed 0 false [0x68; 0x69] [0xF6] _)).
  cbn. lia.
Defined.

(** ** Definite-length arrays and tags *)

Lemma checkContent_array (item : bool -> stream -> checked) (k : nat)
      (n : Z) (rest : stream) :
  0 <= n < 2 ^ 64 ->
  checkContent item k kArray n rest = finish kArray (forItems item k n rest).
Proof.
  intros Hn. unfold checkContent, kArray. cbn [Z.eqb Pos.eqb orb].
  destruct (Z.leb_spec n UINT32_MAX) as [Hs|Hs]; [|reflexivity].
  unfold u32, UINT32_MAX in *. now rewrite Z.mod_small by lia.
Qed.

Lemma checkContent_tag (item : bool -> stream -> checked) (k : nat)
      (n : Z) (rest : stream) :
  checkContent item k kTag n rest
  = match item false rest with
    | None => None
    | Some (t, s') => Some (if t <? 0 then -1 else kTag, s')
    end.
Proof. reflexivity. Qed.

(** X17.  On a definite-length array with argument [n] the checker checks
    [n] children, each with [breakable] unset: it accepts exactly when [n]
    children in a row are accepted and then returns what is left after
    them.  On a tag it checks the one item that follows, again with
    [breakable] unset, and accepts exactly when that item is accepted. *)
Theorem array_and_tag_children
        (fuel : nat) (breakable : bool) (ai n : Z) (rest : stream) :
  headValid ai n ->
  (isWellFormed (S fuel) breakable (definiteHead kArray ai n ++ rest)
   = finish kArray (forItems (isWellFormed fuel) fuel n rest) /\
   (forall s',
       isWellFormed (S fuel) breakable (definiteHead kArray ai n ++ rest)
       = Some (kArray, s') ->
       itemsRun (isWellFormed fuel) (Z.to_nat n) rest s') /\
   (forall s',
       itemsRun (isWellFormed fuel) (Z.to_nat n) rest s' ->
       (Z.to_nat n <= fuel)%nat ->
       isWellFormed (S fuel) breakable (definiteHead kArray ai n ++ rest)
       = Some (kArray, s'))) /\
  (forall t s',
      isWellFormed fuel false rest = Some (t, s') ->
      isWellFormed (S fuel) breakable (definiteHead kTag ai n ++ rest)
      = Some (if t <? 0 then -1 else kTag, s')).
Proof.
  intros Hv. pose proof (headValid_range ai n Hv) as Hn.
  assert (Ha : isWellFormed (S fuel) breakable (definiteHead kArray ai n ++ rest)
               = finish kArray (forItems (isWellFormed fuel) fuel n rest)).
  { rewrite isWellFormed_definite;
      [|unfold kArray; lia|assumption|unfold kArray, kSimpleOrFloat; lia].
    now apply checkContent_array. }
  split; [split; [exact Ha|split]|].
  - intros s'. rewrite Ha.
    destruct (forItems _ fuel n rest) as [[ok s1]|] eqn:E;
      cbn [finish]; [|discriminate].
    destruct ok; [|unfold kArray; discriminate].
    intros [= <-]. now apply (forItems_accepts _ fuel).
  - intros s' Hrun Hk. rewrite Ha.
    apply (itemsRun_forItems _ _ fuel) in Hrun; [|exact Hk].
    rewrite Z2Nat.id in Hrun by lia. now rewrite Hrun.
  - intros t s' E.
    rewrite isWellFormed_definite;
      [|unfold kTag; lia|assumption|unfold kTag, kSimpleOrFloat; lia].
    now rewrite checkContent_tag, E.
Qed.

(** The property on the tag [C1] followed by the item [01], and by a Break. *)
Lemma array_and_tag_children_witness :
  isWellFormed 2 false (definiteHead kTag 1 1 ++ [0x01])
  = Some (if 0 <? 0 then -1 else kTag, []) /\
  isWellFormed 2 true (definiteHead kTag 1 1 ++ [0xFF])
  = Some (if -1 <? 0 then -1 else kTag, []).
Proof.
  split.
  - refine (proj2 (array_and_tag_children 1 false 1 1 [0x01] _) 0 [] _).
    + left. lia.
    + reflexivity.
  - refine (proj2 (array_and_tag_children 1 true 1 1 [0xFF] _) (-1) [] _).
    + left. lia.
    + reflexivity.
Defined.

Lemma isWellFormed_writeUnsignedInt (fuel : nat) (breakable : bool)
      (u : Z) (rest : stream) :
  0 <= u < 2 ^ 64 ->
  isWellFormed (S fuel) breakable (Writer.writeUnsignedInt u ++ rest)
  = Some (kUnsignedInt, rest).
Proof.
  intros Hu. unfold Writer.writeUnsignedInt, kUnsignedInt.
  destruct (writeTypedInt_definiteHead 0 u) as [-> Hv]; [lia|lia|].
  apply isWellFormed_scalar; [lia|assumption|unfold kSimpleOrFloat; lia].
Qed.

Lemma itemsRun_unsigned (fuel : nat) (us : list Z) (rest : stream) :
  Forall (fun u => 0 <= u < 2 ^ 64) us ->
  itemsRun (isWellFormed (S fuel)) (length us)
           (concat (map Writer.writeUnsignedInt us) ++ rest) rest.
Proof.
  induction 1 as [|u us Hu Hus IH]; cbn [map concat length app].
  - constructor.
  - rewrite <- app_assoc.
    eapply itemsRun_next; [|..|exact IH].
    + now apply isWellFormed_writeUnsignedInt.
    + unfold kUnsignedInt. lia.
Qed.

(** X18.  An array written as [beginArray] of the number of elements
    followed by that many [writeUnsignedInt] is accepted by the checker,
    which consumes exactly what was written and leaves what follows.  The
    bound of the model has to cover the number of elements. *)
Theorem written_array_well_formed
        (fuel : nat) (breakable : bool) (us : list Z) (rest : stream) :
  Forall (fun u => 0 <= u < 2 ^ 64) us ->
  Z.of_nat (length us) < 2 ^ 32 ->
  (length us <= fuel)%nat ->
  isWellFormed (S (S fuel)) breakable
    (Writer.beginArray (Z.of_nat (length us)) ++
     concat (map Writer.writeUnsignedInt us) ++ rest)
  = Some (kArray, rest).
Proof.
  intros Hus Hlen Hfuel. unfold Writer.beginArray.
  destruct (writeTypedInt_definiteHead kArray (Z.of_nat (length us)))
    as [-> Hv]; [unfold kArray; lia|lia|].
  rewrite isWellFormed_definite;
    [|unfold kArray; lia|assumption|unfold kArray, kSimpleOrFloat; lia].
  rewrite checkContent_array by lia.
  pose proof (itemsRun_unsigned fuel us rest Hus) as Hrun.
  apply (itemsRun_forItems _ _ (S fuel)) in Hrun; [|lia].
  now rewrite Hrun.
Qed.

Lemma written_array_well_formed_witness :
  isWellFormed 4 false
    (Writer.beginArray (Z.of_nat (length [1; 1000])) ++
     concat (map Writer.writeUnsignedInt [1; 1000]) ++ [0xF6])
  = Some (kArray, [0xF6]).
Proof.
  apply (written_array_well_formed 2 false [1; 1000] [0xF6]).
  - repeat constructor; lia.
  - cbn. lia.
  - cbn. lia.
Defined.

(** ** Agreement of the reader and the checker on malformed heads *)

Lemma determineType_syntax_error (mt ai v : Z) :
  fst (fst (determineType mt ai v)) = DataType.kSyntaxError ->
  mt = 7 /\ ((ai = 24 /\ v < 32) \/ 28 <= ai <= 30).
Proof.
  unfold determineType.
  repeat split_if; cbn [fst]; intros H; try discriminate H;
    bool_to_Z; lia.
Qed.

Lemma isWellFormed_head_fields (fuel : nat) (breakable : bool)
      (ib : Z) (t : stream) :
  isWellFormed (S fuel) breakable (ib :: t)
  = match readHead (Z.shiftr (u8 ib) 5) (Z.land (u8 ib) 31) t with
    | HeadMalformed s => Some (-1, s)
    | HeadIndefinite s =>
        isIndefiniteWellFormed (isWellFormed fuel) fuel
                               (Z.shiftr (u8 ib) 5) breakable s
    | HeadValue val s =>
        checkContent (isWellFormed fuel) fuel (Z.shiftr (u8 ib) 5) val s
    end.
Proof.
  cbn [isWellFormed]. cbv beta iota zeta delta [read].
  pose proof (u8_range ib) as Hib.
  replace (u8 ib <? 0) with false by (symmetry; bool_to_Z; lia).
  rewrite (u8_small (u8 ib)) by assumption.
  pose proof (land_31_range (u8 ib)) as Hai.
  now rewrite (u8_small (Z.land (u8 ib) 31)) by lia.
Qed.

Lemma isWellFormed_bad_initial (fuel : nat) (breakable : bool)
      (ib : Z) (t : stream) :
  badInitialByte (u8 ib) = true ->
  isWellFormed (S fuel) breakable (ib :: t) = Some (-1, t).
Proof.
  intros Hbad. rewrite isWellFormed_head_fields.
  unfold badInitialByte in Hbad. cbv zeta in Hbad.
  set (ai := Z.land (u8 ib) 31) in *. set (mt := Z.shiftr (u8 ib) 5) in *.
  bool_to_Z. destruct Hbad as [[H1 H2]|[H1 H2]].
  - unfold readHead. now repeat decide_if.
  - unfold readHead. repeat decide_if.
    unfold isIndefiniteWellFormed, kBytes, kText, kArray, kMap, kSimpleOrFloat.
    now repeat decide_if.
Qed.

Lemma readDataType_u8 (r : Reader.t) (ib : Z) (t : stream) :
  state_ r = State.kStart ->
  readDataType r (ib :: t) = readDataType r (u8 ib :: t).
Proof.
  intros Hs. rewrite !step_start by assumption.
  now rewrite (u8_small (u8 ib)) by apply u8_range.
Qed.

(** X19.  Whenever the Reader, called in [kStart], reports a syntax error
    (reserved additional information, indefinite length on an integer or
    tag, or a simple value below 32 in the one-byte form), the checker run
    on the same bytes returns [-1], and it has consumed the same bytes as
    the Reader. *)
Theorem syntax_error_is_malformed
        (r r' : Reader.t) (s s' : stream) (fuel : nat) (breakable : bool) :
  state_ r = State.kStart ->
  readDataType r s = (DataType.kSyntaxError, r', s') ->
  isWellFormed (S fuel) breakable s = Some (-1, s').
Proof.
  intros Hs H.
  destruct s as [|ib t].
  { rewrite step_start_empty in H by assumption. discriminate. }
  rewrite readDataType_u8 in H by assumption.
  pose proof (u8_range ib) as Hib.
  destruct (badInitialByte (u8 ib)) eqn:Hbad.
  - rewrite isWellFormed_bad_initial by assumption.
    rewrite step_start, (u8_small (u8 ib)) in H by assumption.
    unfold badInitialByte in Hbad. cbv zeta in Hbad. bool_to_Z.
    destruct Hbad as [[H1 H2]|[H1 H2]].
    + rewrite step_addl_error in H by (cbn; auto). now injection H as _ <-.
    + rewrite step_addl_not_indefinite in H
        by (cbn; first [reflexivity | assumption | tauto]).
      now injection H as _ <-.
  - destruct (Z.ltb_spec (available t) (argBytes (Z.land (u8 ib) 31)))
      as [Hlt|Hge].
    { rewrite step_start, (u8_small (u8 ib)) in H by assumption.
      destruct (shortRead_additionalInfo
                  (Reader.mk State.kAdditionalInfo (u8 ib) (Z.shiftr (u8 ib) 5)
                             (Z.land (u8 ib) 31) 0 0 SyntaxError.kNoError)
                  t [] eq_refl Hlt) as (E & _).
      rewrite E in H. discriminate. }
    rewrite readDataType_head in H by assumption.
    cbv zeta in H.
    pose proof (determineType_syntax_error (Z.shiftr (u8 ib) 5)
                  (Z.land (u8 ib) 31)
                  (fst (readValue (Z.land (u8 ib) 31) t))) as Hd.
    destruct (determineType _ _ _) as [[d v] e]. cbn [fst] in Hd.
    injection H as -> _ <-.
    destruct (Hd eq_refl) as [Hmt [[Hai Hv]|Hres]].
    2:{ unfold badInitialByte in Hbad. cbv zeta in Hbad. bool_to_Z. lia. }
    rewrite isWellFormed_head_fields, Hmt, Hai.
    rewrite Hai in Hge, Hv. change (argBytes 24) with 1 in Hge.
    destruct t as [|b0 t']; [cbn in Hge; lia|].
    revert Hv. unfold readValue, readHead.
    cbv beta iota zeta delta [Z.eqb Pos.eqb read fst snd].
    pose proof (u8_range b0) as Hb0.
    unfold u64. rewrite (Z.mod_small (u8 b0)) by lia. intros Hv.
    replace (u8 b0 <? 0) with false by (symmetry; bool_to_Z; lia).
    rewrite (u8_small (u8 b0)) by assumption.
    unfold kSimpleOrFloat. cbn [Z.eqb Pos.eqb andb].
    now replace (u8 b0 <? 32) with true by (symmetry; bool_to_Z; lia).
Qed.

(** The property on [F8 10], the simple value 16 in the one-byte form. *)
Lemma syntax_error_is_malformed_witness :
  isWellFormed 1 false [0xF8; 0x10] = Some (-1, []).
Proof.
  apply (syntax_error_is_malformed
           Reader.init
           (Reader.mk State.kStart 0xF8 7 24 1 0x10 SyntaxError.kBadSimpleValue)
           [0xF8; 0x10] [] 0 false).
  - reflexivity.
  - reflexivity.
Defined.

(** ** The checker does not look beyond the item *)

Lemma read_app (s s' q : stream) (v : Z) :
  read s = (v, s') -> 0 <= v -> read (s ++ q) = (v, s' ++ q).
Proof.
  destruct s as [|b s0]; cbn; intros [= <- <-] Hv; [lia|reflexivity].
Qed.

Lemma read_empty_after_fail (s s' : stream) (v : Z) :
  read s = (v, s') -> v < 0 -> s' = [] /\ v = -1.
Proof.
  destruct s as [|b s0]; cbn; intros [= <- <-] Hv; [auto|].
  pose proof (u8_range b). lia.
Qed.

Lemma read_range (s : stream) : -1 <= fst (read s) < 256.
Proof. destruct s as [|b s0]; cbn; [lia|]. pose proof (u8_range b). lia. Qed.

Lemma read4_app (s s' q : stream) (v : Z) :
  read4 s = (v, s') -> 0 <= v -> read4 (s ++ q) = (v, s' ++ q).
Proof.
  unfold read4.
  destruct s as [|b3 [|b2 [|b1 [|b0 s0]]]];
    cbv beta iota zeta delta [read app]; intros [= <- <-] Hv;
    try reflexivity; exfalso; revert Hv;
    rewrite ?Z.lor_m1_r; lia.
Qed.

Lemma readHead_app (majorType ai : Z) (s q : stream) :
  (forall s1, readHead majorType ai s <> HeadMalformed s1) ->
  readHead majorType ai (s ++ q) = appHead (readHead majorType ai s) q.
Proof.
  unfold readHead. intros Hok.
  destruct (ai =? 24).
  { destruct (read s) as [v s1] eqn:E.
    destruct (Z.ltb_spec v 0) as [Hneg|Hpos]; [now elim (Hok s1)|].
    rewrite (read_app _ _ q _ E Hpos).
    replace (v <? 0) with false by (symmetry; bool_to_Z; lia).
    now destruct (_ && _). }
  destruct (ai =? 25).
  { destruct s as [|b1 [|b0 s0]]; cbv beta iota zeta delta [read app] in *.
    - now elim (Hok []).
    - exfalso. revert Hok. rewrite Z.lor_m1_r. cbn. intros Hok.
      now elim (Hok []).
    - now destruct (_ <? 0). }
  destruct (ai =? 26).
  { destruct (read4 s) as [v s1] eqn:E.
    destruct (Z.ltb_spec v 0) as [Hneg|Hpos]; [now elim (Hok s1)|].
    rewrite (read4_app _ _ q _ E Hpos).
    now replace (v <? 0) with false by (symmetry; bool_to_Z; lia). }
  destruct (ai =? 27).
  { destruct (read4 s) as [v s1] eqn:E.
    destruct (Z.ltb_spec v 0) as [Hneg|Hpos]; [now elim (Hok s1)|].
    rewrite (read4_app _ _ q _ E Hpos).
    replace (v <? 0) with false by (symmetry; bool_to_Z; lia).
    destruct (read4 s1) as [v2 s2] eqn:E2.
    destruct (Z.ltb_spec v2 0) as [Hneg2|Hpos2]; [now elim (Hok s2)|].
    rewrite (read4_app _ _ q _ E2 Hpos2).
    now replace (v2 <? 0) with false by (symmetry; bool_to_Z; lia). }
  repeat split_if; try reflexivity; now elim (Hok s).
Qed.

Lemma readRaw_app (s : stream) :
  forall (n : Z) (s' q : stream),
    readRaw n s = (true, s') -> readRaw n (s ++ q) = (true, s' ++ q).
Proof.
  induction s as [|b s IH]; intros n s' q; cbn [readRaw app].
  - destruct (0 <? n) eqn:E; [discriminate|].
    intros [= <-]. destruct q; cbn [readRaw]; now rewrite E.
  - destruct (0 <? n); [apply IH|]. now intros [= <-].
Qed.

Section LocalLoops.

Variable item : bool -> stream -> checked.
Hypothesis Hlocal : local item.

Lemma forItems_app (k : nat) :
  forall (n : Z) (s s' q : stream),
    forItems item k n s = Some (true, s') ->
    forItems item k n (s ++ q) = Some (true, s' ++ q).
Proof.
  induction k as [|k IH]; intros n s s' q; cbn [forItems];
    destruct (0 <? n); try discriminate; try (now intros [= <-]).
  destruct (item false s) as [[t s1]|] eqn:E; [|discriminate].
  destruct (Z.ltb_spec t 0) as [Hneg|Hpos]; [discriminate|].
  rewrite (Hlocal false s s1 q t E) by lia.
  replace (t <? 0) with false by (symmetry; bool_to_Z; lia).
  apply IH.
Qed.

Lemma whileChunks_app (k : nat) (majorType : Z) :
  forall (s s' q : stream),
    whileChunks item k majorType s = Some (true, s') ->
    whileChunks item k majorType (s ++ q) = Some (true, s' ++ q).
Proof.
  induction k as [|k IH]; intros s s' q; cbn [whileChunks]; [discriminate|].
  destruct (item true s) as [[t s1]|] eqn:E; [|discriminate].
  destruct (Z.eqb_spec t (-1)) as [->|H1].
  { change (-1 =? -2) with false. change (-1 =? -1) with true.
    cbv iota. discriminate. }
  rewrite (Hlocal true s s1 q t E) by assumption.
  replace (t =? -1) with false by (symmetry; bool_to_Z; lia).
  destruct (t =? -2); [now intros [= <-]|].
  destruct (negb _); [discriminate|]. apply IH.
Qed.

Lemma whileItems_app (k : nat) :
  forall (s s' q : stream),
    whileItems item k s = Some (true, s') ->
    whileItems item k (s ++ q) = Some (true, s' ++ q).
Proof.
  induction k as [|k IH]; intros s s' q; cbn [whileItems]; [discriminate|].
  destruct (item true s) as [[t s1]|] eqn:E; [|discriminate].
  destruct (Z.eqb_spec t (-1)) as [->|H1].
  { change (-1 =? -2) with false. change (-1 =? -1) with true.
    cbv iota. discriminate. }
  rewrite (Hlocal true s s1 q t E) by assumption.
  replace (t =? -1) with false by (symmetry; bool_to_Z; lia).
  destruct (t =? -2); [now intros [= <-]|]. apply IH.
Qed.

Lemma whilePairs_app (k : nat) :
  forall (s s' q : stream),
    whilePairs item k s = Some (true, s') ->
    whilePairs item k (s ++ q) = Some (true, s' ++ q).
Proof.
  induction k as [|k IH]; intros s s' q; cbn [whilePairs]; [discriminate|].
  destruct (item true s) as [[t s1]|] eqn:E; [|discriminate].
  destruct (Z.eqb_spec t (-1)) as [->|H1].
  { change (-1 =? -2) with false. change (-1 =? -1) with true.
    cbv iota. discriminate. }
  rewrite (Hlocal true s s1 q t E) by assumption.
  replace (t =? -1) with false by (symmetry; bool_to_Z; lia).
  destruct (t =? -2); [now intros [= <-]|].
  destruct (item false s1) as [[t2 s2]|] eqn:E2; [|discriminate].
  destruct (Z.ltb_spec t2 0) as [Hneg|Hpos]; [discriminate|].
  rewrite (Hlocal false s1 s2 q t2 E2) by lia.
  replace (t2 <? 0) with false by (symmetry; bool_to_Z; lia).
  apply IH.
Qed.

Lemma finish_app (majorType : Z) (l l' : option (bool * stream))
      (q s' : stream) (t : Z) :
  (forall s1, l = Some (true, s1) -> l' = Some (true, s1 ++ q)) ->
  finish majorType l = Some (t, s') -> t <> -1 ->
  finish majorType l' = Some (t, s' ++ q).
Proof.
  intros Hl. destruct l as [[[] s1]|]; cbn [finish]; try discriminate.
  - intros [= <- <-] _. now rewrite (Hl s1 eq_refl).
  - intros [= <- <-] Ht. congruence.
Qed.

Lemma isIndefiniteWellFormed_app (k : nat) (majorType : Z) (breakable : bool)
      (s s' q : stream) (t : Z) :
  isIndefiniteWellFormed item k majorType breakable s = Some (t, s') ->
  t <> -1 ->
  isIndefiniteWellFormed item k majorType breakable (s ++ q)
  = Some (t, s' ++ q).
Proof.
  unfold isIndefiniteWellFormed.
  repeat split_if.
  - apply finish_app. intros s1. apply whileChunks_app.
  - apply finish_app. intros s1. apply whileItems_app.
  - apply finish_app. intros s1. apply whilePairs_app.
  - now intros [= <- <-].
  - intros [= <- <-]. congruence.
  - intros [= <- <-]. congruence.
Qed.

Lemma checkContent_app (k : nat) (majorType val : Z)
      (s s' q : stream) (t : Z) :
  checkContent item k majorType val s = Some (t, s') ->
  t <> -1 ->
  checkContent item k majorType val (s ++ q) = Some (t, s' ++ q).
Proof.
  unfold checkContent.
  destruct ((majorType =? 2) || (majorType =? 3)).
  { set (n := if val <=? UINT32_MAX then u32 val else val).
    replace (if val <=? UINT32_MAX then readRaw (u32 val) s else readRaw val s)
      with (readRaw n s) by (unfold n; now destruct (val <=? UINT32_MAX)).
    replace (if val <=? UINT32_MAX then readRaw (u32 val) (s ++ q)
             else readRaw val (s ++ q))
      with (readRaw n (s ++ q)) by (unfold n; now destruct (val <=? UINT32_MAX)).
    destruct (readRaw n s) as [[] s1] eqn:E.
    - rewrite (readRaw_app s n s1 q E). now intros [= <- <-].
    - intros [= <- <-]. congruence. }
  destruct (majorType =? 5).
  { destruct (mapOverflow val); [intros [= <- <-]; congruence|].
    destruct (_ <=? UINT32_MAX);
      apply finish_app; intros s1; apply forItems_app. }
  destruct (majorType =? 4).
  { destruct (_ <=? UINT32_MAX);
      apply finish_app; intros s1; apply forItems_app. }
  destruct (majorType =? 6).
  { destruct (item false s) as [[t1 s1]|] eqn:E; [|discriminate].
    destruct (Z.ltb_spec t1 0) as [Hneg|Hpos];
      [intros [= <- <-]; congruence|].
    rewrite (Hlocal false s s1 q t1 E) by lia.
    replace (t1 <? 0) with false by (symmetry; bool_to_Z; lia).
    now intros [= <- <-]. }
  now intros [= <- <-].
Qed.

End LocalLoops.

Lemma isWellFormed_local (fuel : nat) : local (isWellFormed fuel).
Proof.
  induction fuel as [|fuel IH]; intros b s s' q t; [discriminate|].
  destruct s as [|ib s0].
  { cbn. intros [= <- <-]. congruence. }
  rewrite <- app_comm_cons, !isWellFormed_head_fields.
  destruct (readHead _ _ s0) as [s1|s1|val s1] eqn:E.
  - intros [= <- <-]. congruence.
  - rewrite readHead_app by (rewrite E; discriminate). rewrite E.
    cbn [appHead]. now apply isIndefiniteWellFormed_app.
  - rewrite readHead_app by (rewrite E; discriminate). rewrite E.
    cbn [appHead]. now apply checkContent_app.
Qed.

(** X20.  The checker does not look beyond the item it checks: when it
    accepts an item (or reports a Break), it returns the same result and
    leaves the same bytes unconsumed whatever bytes are appended to the
    stream. *)
Theorem isWellFormed_appended
        (fuel : nat) (breakable : bool) (s s' q : stream) (t : Z) :
  isWellFormed fuel breakable s = Some (t, s') ->
  t <> -1 ->
  isWellFormed fuel breakable (s ++ q) = Some (t, s' ++ q).
Proof.
  intros H Ht. now apply (isWellFormed_local fuel breakable s s' q t).
Qed.

(** The property on the array [82 01 02] with [FF] appended. *)
Lemma isWellFormed_appended_witness :
  isWellFormed 4 false ([0x82; 0x01; 0x02] ++ [0xFF]) = Some (4, [] ++ [0xFF]).
Proof.
  apply (isWellFormed_appended 4 false [0x82; 0x01; 0x02] [] [0xFF] 4).
  - reflexivity.
  - lia.
Defined.

(** ** The checker returns, whatever the bound of the model *)

Section MonotoneLoops.

Variables item1 item2 : bool -> stream -> checked.
Hypothesis Hmono :
  forall (b : bool) (s : stream) (r : Z * stream),
    item1 b s = Some r -> item2 b s = Some r.

Lemma forItems_mono (k : nat) :
  forall (k' : nat) (n : Z) (s : stream) (r : bool * stream),
    (k <= k')%nat ->
    forItems item1 k n s = Some r -> forItems item2 k' n s = Some r.
Proof.
  induction k as [|k IH]; intros k' n s r Hk.
  - cbn [forItems]. destruct k'; cbn [forItems];
      destruct (0 <? n); try discriminate; auto.
  - destruct k' as [|k']; [lia|]. cbn [forItems].
    destruct (0 <? n); [|auto].
    destruct (item1 false s) as [[t s1]|] eqn:E; [|discriminate].
    rewrite (Hmono _ _ _ E).
    destruct (t <? 0); [auto|]. apply IH. lia.
Qed.

Lemma whileChunks_mono (k : nat) (majorType : Z) :
  forall (k' : nat) (s : stream) (r : bool * stream),
    (k <= k')%nat ->
    whileChunks item1 k majorType s = Some r ->
    whileChunks item2 k' majorType s = Some r.
Proof.
  induction k as [|k IH]; intros k' s r Hk; [discriminate|].
  destruct k' as [|k']; [lia|]. cbn [whileChunks].
  destruct (item1 true s) as [[t s1]|] eqn:E; [|discriminate].
  rewrite (Hmono _ _ _ E).
  destruct (t =? -2); [auto|]. destruct (t =? -1); [auto|].
  destruct (negb _); [auto|]. apply IH. lia.
Qed.

Lemma whileItems_mono (k : nat) :
  forall (k' : nat) (s : stream) (r : bool * stream),
    (k <= k')%nat ->
    whileItems item1 k s = Some r -> whileItems item2 k' s = Some r.
Proof.
  induction k as [|k IH]; intros k' s r Hk; [discriminate|].
  destruct k' as [|k']; [lia|]. cbn [whileItems].
  destruct (item1 true s) as [[t s1]|] eqn:E; [|discriminate].
  rewrite (Hmono _ _ _ E).
  destruct (t =? -2); [auto|]. destruct (t =? -1); [auto|]. apply IH. lia.
Qed.

Lemma whilePairs_mono (k : nat) :
  forall (k' : nat) (s : stream) (r : bool * stream),
    (k <= k')%nat ->
    whilePairs item1 k s = Some r -> whilePairs item2 k' s = Some r.
Proof.
  induction k as [|k IH]; intros k' s r Hk; [discriminate|].
  destruct k' as [|k']; [lia|]. cbn [whilePairs].
  destruct (item1 true s) as [[t s1]|] eqn:E; [|discriminate].
  rewrite (Hmono _ _ _ E).
  destruct (t =? -2); [auto|]. destruct (t =? -1); [auto|].
  destruct (item1 false s1) as [[t2 s2]|] eqn:E2; [|discriminate].
  rewrite (Hmono _ _ _ E2).
  destruct (t2 <? 0); [auto|]. apply IH. lia.
Qed.

Lemma finish_mono (majorType : Z) (l l' : option (bool * stream))
      (r : Z * stream) :
  (forall x, l = Some x -> l' = Some x) ->
  finish majorType l = Some r -> finish majorType l' = Some r.
Proof.
  intros Hl. destruct l as [x|]; [|discriminate].
  now rewrite (Hl x eq_refl).
Qed.

Lemma isIndefiniteWellFormed_mono (k k' : nat) (majorType : Z)
      (breakable : bool) (s : stream) (r : Z * stream) :
  (k <= k')%nat ->
  isIndefiniteWellFormed item1 k majorType breakable s = Some r ->
  isIndefiniteWellFormed item2 k' majorType breakable s = Some r.
Proof.
  intros Hk. unfold isIndefiniteWellFormed.
  repeat split_if; auto; apply finish_mono; intros x.
  - now apply whileChunks_mono.
  - now apply whileItems_mono.
  - now apply whilePairs_mono.
Qed.

Lemma checkContent_mono (k k' : nat) (majorType val : Z)
      (s : stream) (r : Z * stream) :
  (k <= k')%nat ->
  checkContent item1 k majorType val s = Some r ->
  checkContent item2 k' majorType val s = Some r.
Proof.
  intros Hk. unfold checkContent.
  destruct ((majorType =? 2) || (majorType =? 3)); [auto|].
  destruct (majorType =? 5).
  { destruct (mapOverflow val); [auto|].
    destruct (_ <=? UINT32_MAX);
      apply finish_mono; intros x; now apply forItems_mono. }
  destruct (majorType =? 4).
  { destruct (_ <=? UINT32_MAX);
      apply finish_mono; intros x; now apply forItems_mono. }
  destruct (majorType =? 6); [|auto].
  destruct (item1 false s) as [[t1 s1]|] eqn:E; [|discriminate].
  now rewrite (Hmono _ _ _ E).
Qed.

End MonotoneLoops.

Lemma isWellFormed_mono (fuel : nat) :
  forall (fuel' : nat) (b : bool) (s : stream) (r : Z * stream),
    (fuel <= fuel')%nat ->
    isWellFormed fuel b s = Some r -> isWellFormed fuel' b s = Some r.
Proof.
  induction fuel as [|fuel IH]; intros fuel' b s r Hf; [discriminate|].
  destruct fuel' as [|fuel']; [lia|].
  assert (Hitem : forall (b : bool) (s : stream) (r : Z * stream),
             isWellFormed fuel b s = Some r ->
             isWellFormed fuel' b s = Some r)
    by (intros; apply (IH fuel'); [lia|assumption]).
  destruct s as [|ib s0]; [auto|].
  rewrite !isWellFormed_head_fields.
  destruct (readHead _ _ s0) as [s1|s1|val s1]; [auto| |].
  - apply isIndefiniteWellFormed_mono; [assumption|lia].
  - apply checkContent_mono; [assumption|lia].
Qed.

(** X21.  The checker returns on every finite stream, and what it returns
    does not depend on the bound given to the model, as long as that bound
    is above the number of readable bytes.  It never consumes more than
    there is, and whenever it reports anything but "malformed" it has
    consumed at least one byte, so that the loops over the items of an
    indefinite-length container make progress. *)
Theorem isWellFormed_returns (breakable : bool) (s : stream) :
  exists (t : Z) (s' : stream),
    (length s' <= length s)%nat /\
    (t <> -1 -> (length s' < length s)%nat) /\
    forall fuel : nat,
      (length s < fuel)%nat ->
      isWellFormed fuel breakable s = Some (t, s').
Proof.
  destruct (isWellFormed_productive (S (length s)) breakable s)
    as (t & s' & E & Hle & Hlt); [lia|].
  exists t, s'. split; [assumption|]. split; [assumption|].
  intros fuel Hf.
  apply (isWellFormed_mono (S (length s))); [lia|assumption].
Qed.

(** ** Indefinite-length arrays and maps *)

Lemma isWellFormed_negative (fuel : nat) : twoErrors (isWellFormed fuel).
Proof.
  intros b s s' t H Hneg.
  destruct fuel as [|fuel]; [discriminate|].
  destruct s as [|ib s0]; [cbn in H; injection H as <- <-; lia|].
  rewrite isWellFormed_head_fields in H.
  pose proof (major_range ib) as Hmaj.
  destruct (readHead _ _ s0) as [s1|s1|val s1] eqn:Eh.
  - injection H as <- <-. lia.
  - revert H. unfold isIndefiniteWellFormed, finish.
    repeat match goal with
           | |- context [match ?l with Some _ => _ | None => _ end] =>
               destruct l as [[[] ?]|]
           | |- context [if ?c then _ else _] => destruct c eqn:?
           end; intros [= <- <-]; lia.
  - revert H. unfold checkContent, finish.
    repeat match goal with
           | |- context [match ?l with Some _ => _ | None => _ end] =>
               destruct l as [[? ?]|]
           | |- context [let (_, _) := ?p in _] => destruct p as [[] ?]
           | |- context [if ?c then _ else _] => destruct c
           end; intros [= <- <-]; lia.
Qed.

Lemma whileItems_accepts (item : bool -> stream -> checked) (k : nat) :
  twoErrors item ->
  forall (s s' : stream),
    whileItems item k s = Some (true, s') ->
    exists n, elementsRun item n s s'.
Proof.
  intros Hneg. induction k as [|k IH]; intros s s'; [discriminate|].
  cbn [whileItems].
  destruct (item true s) as [[t s1]|] eqn:E; [|discriminate].
  destruct (Z.eqb_spec t (-2)) as [->|N2].
  { intros [= <-]. exists 0%nat. now constructor. }
  destruct (Z.eqb_spec t (-1)) as [->|N1]; [discriminate|].
  intros H. destruct (IH _ _ H) as [n Hn].
  exists (S n). apply (elementsRun_next item n s s1 s' t); auto.
  destruct (Z_lt_le_dec t 0) as [Hlt|Hle]; [|assumption].
  destruct (Hneg _ _ _ _ E Hlt); lia.
Qed.

Lemma elementsRun_whileItems (item : bool -> stream -> checked)
      (n : nat) (s s' : stream) :
  elementsRun item n s s' ->
  forall k, (n < k)%nat -> whileItems item k s = Some (true, s').
Proof.
  induction 1 as [s s' E|n s s1 s' t E Ht _ IH]; intros k Hk;
    (destruct k as [|k]; [lia|]); cbn [whileItems]; rewrite E.
  - reflexivity.
  - replace (t =? -2) with false by (symmetry; bool_to_Z; lia).
    replace (t =? -1) with false by (symmetry; bool_to_Z; lia).
    apply IH. lia.
Qed.

Lemma whilePairs_accepts (item : bool -> stream -> checked) (k : nat) :
  twoErrors item ->
  forall (s s' : stream),
    whilePairs item k s = Some (true, s') ->
    exists n, pairsRun item n s s'.
Proof.
  intros Hneg. induction k as [|k IH]; intros s s'; [discriminate|].
  cbn [whilePairs].
  destruct (item true s) as [[t s1]|] eqn:E; [|discriminate].
  destruct (Z.eqb_spec t (-2)) as [->|N2].
  { intros [= <-]. exists 0%nat. now constructor. }
  destruct (Z.eqb_spec t (-1)) as [->|N1]; [discriminate|].
  destruct (item false s1) as [[t2 s2]|] eqn:E2; [|discriminate].
  destruct (Z.ltb_spec t2 0) as [Hneg2|Hpos2]; [discriminate|].
  intros H. destruct (IH _ _ H) as [n Hn].
  exists (S n). apply (pairsRun_next item n s s1 s2 s' t t2); auto.
  destruct (Z_lt_le_dec t 0) as [Hlt|Hle]; [|assumption].
  destruct (Hneg _ _ _ _ E Hlt); lia.
Qed.

Lemma pairsRun_whilePairs (item : bool -> stream -> checked)
      (n : nat) (s s' : stream) :
  pairsRun item n s s' ->
  forall k, (n < k)%nat -> whilePairs item k s = Some (true, s').
Proof.
  induction 1 as [s s' E|n s s1 s2 s' t1 t2 E Ht1 E2 Ht2 _ IH]; intros k Hk;
    (destruct k as [|k]; [lia|]); cbn [whilePairs]; rewrite E.
  - reflexivity.
  - replace (t1 =? -2) with false by (symmetry; bool_to_Z; lia).
    replace (t1 =? -1) with false by (symmetry; bool_to_Z; lia).
    rewrite E2.
    replace (t2 <? 0) with false by (symmetry; bool_to_Z; lia).
    apply IH. lia.
Qed.

Lemma isWellFormed_indefinite_array (fuel : nat) (breakable : bool)
      (rest : stream) :
  isWellFormed (S fuel) breakable (indefiniteHead kArray :: rest)
  = finish kArray (whileItems (isWellFormed fuel) fuel rest).
Proof. reflexivity. Qed.

Lemma isWellFormed_indefinite_map (fuel : nat) (breakable : bool)
      (rest : stream) :
  isWellFormed (S fuel) breakable (indefiniteHead kMap :: rest)
  = finish kMap (whilePairs (isWellFormed fuel) fuel rest).
Proof. reflexivity. Qed.

Lemma isWellFormed_stray_break (fuel : nat) (q : stream) :
  isWellFormed (S fuel) false (0xFF :: q) = Some (-1, q).
Proof. reflexivity. Qed.

(** X22.  Indefinite-length arrays and maps under the checker.  An
    indefinite-length array is accepted exactly when it holds some number
    of accepted elements followed by a Break, and an indefinite-length map
    exactly when it holds some number of pairs of an accepted key and an
    accepted value followed by a Break; the checker then returns what is
    left after the Break.  The Break is looked for only where an element
    or a key may start: a Break in the place of a value makes the map
    malformed. *)
Theorem indefinite_array_and_map
        (fuel : nat) (breakable : bool) (rest : stream) :
  (forall s',
      isWellFormed (S fuel) breakable (indefiniteHead kArray :: rest)
      = Some (kArray, s') ->
      exists n, elementsRun (isWellFormed fuel) n rest s') /\
  (forall n s',
      elementsRun (isWellFormed fuel) n rest s' ->
      (n < fuel)%nat ->
      isWellFormed (S fuel) breakable (indefiniteHead kArray :: rest)
      = Some (kArray, s')) /\
  (forall s',
      isWellFormed (S fuel) breakable (indefiniteHead kMap :: rest)
      = Some (kMap, s') ->
      exists n, pairsRun (isWellFormed fuel) n rest s') /\
  (forall n s',
      pairsRun (isWellFormed fuel) n rest s' ->
      (n < fuel)%nat ->
      isWellFormed (S fuel) breakable (indefiniteHead kMap :: rest)
      = Some (kMap, s')) /\
  (forall t q,
      isWellFormed fuel true rest = Some (t, 0xFF :: q) ->
      0 <= t ->
      isWellFormed (S fuel) breakable (indefiniteHead kMap :: rest)
      = Some (-1, q)).
Proof.
  rewrite isWellFormed_indefinite_array, isWellFormed_indefinite_map.
  repeat apply conj.
  - intros s'.
    destruct (whileItems _ fuel rest) as [[[] s1]|] eqn:E;
      cbn [finish]; try discriminate.
    intros [= <-].
    apply (whileItems_accepts _ fuel (isWellFormed_negative fuel) _ _ E).
  - intros n s' Hrun Hn.
    now rewrite (elementsRun_whileItems _ n rest s' Hrun fuel Hn).
  - intros s'.
    destruct (whilePairs _ fuel rest) as [[[] s1]|] eqn:E;
      cbn [finish]; try discriminate.
    intros [= <-].
    apply (whilePairs_accepts _ fuel (isWellFormed_negative fuel) _ _ E).
  - intros n s' Hrun Hn.
    now rewrite (pairsRun_whilePairs _ n rest s' Hrun fuel Hn).
  - intros t q E Ht.
    destruct fuel as [|fuel]; [discriminate|].
    cbn [whilePairs]. rewrite E.
    replace (t =? -2) with false by (symmetry; bool_to_Z; lia).
    replace (t =? -1) with false by (symmetry; bool_to_Z; lia).
    now rewrite isWellFormed_stray_break.
Qed.

(** The property on the map [BF 01 02 FF] and on the map [BF 01 FF]. *)
Lemma indefinite_array_and_map_witness :
  isWellFormed 3 false (indefiniteHead kMap :: [0x01; 0x02; 0xFF])
  = Some (kMap, []) /\
  isWellFormed 3 false (indefiniteHead kMap :: [0x01; 0xFF]) = Some (-1, []).
Proof.
  split.
  - refine (proj1 (proj2 (proj2 (proj2
              (indefinite_array_and_map 2 false [0x01; 0x02; 0xFF]))))
              1%nat [] _ _); [|lia].
    apply (pairsRun_next _ 0 _ [0x02; 0xFF] [0xFF] _ 0 0);
      [reflexivity|lia|reflexivity|lia|].
    apply pairsRun_break. reflexivity.
  - refine (proj2 (proj2 (proj2 (proj2
              (indefinite_array_and_map 2 false [0x01; 0xFF]))))
              0 [] _ _); [reflexivity|lia].
Defined.
